(** * Procedural terrain and free-fly camera: a shallow embedding

    The C++ sources [landscape.cpp] and [camera.hpp] are embedded function by
    function.  [float] is IEEE-754 binary32 and [double] binary64, both taken
    from the executable specification [SpecFloat] of the standard library
    (round to nearest, ties to even), so every definition below computes.
    [int] arithmetic of the lattice hash is 32-bit two's complement with the
    wrap-around written out.

    The mesh builder computes its vertex indices [z * width + x] in [int]
    too, and signed overflow is undefined in C++.  The three passes below
    write these indices as mathematical integers, which is what the code
    computes exactly as long as no index leaves the range of [int]: for
    positive [width] and [depth] with [width * depth <= INT_MAX]
    ([int_index_exact]).  Every statement about a mesh of arbitrary size
    carries that bound, and [int_index] is the index as 32-bit arithmetic
    evaluates it.  The largest index is [width * depth - 1], so on a grid
    of more than INT_MAX + 1 vertices the source does overflow.

    Every float expression is evaluated operation by operation, each
    operation rounded once (no contraction into fused multiply-adds).

    The C math library ([cosf], [sinf], [tanf]) and the result of an
    out-of-range float-to-int conversion are not fixed by the language; they
    are an interface ([Platform]) whose laws are the special values of
    C Annex F and the range of the cosine. *)

From Stdlib Require Import ZArith List Bool Lia Ascii.
From Stdlib Require Import Reals Lra Psatz Machin.
From Stdlib Require Import Floats.SpecFloat.
Import ListNotations.

Local Open Scope Z_scope.

(** ** Machine numbers *)

(** [float]: IEEE-754 binary32. *)
Module F32.
Definition prec : Z := 24.
Definition emax : Z := 128.
Definition float : Type := spec_float.

Definition add : float -> float -> float := SFadd prec emax.
Definition sub : float -> float -> float := SFsub prec emax.
Definition mul : float -> float -> float := SFmul prec emax.
Definition div : float -> float -> float := SFdiv prec emax.
Definition sqrt : float -> float := SFsqrt prec emax.
Definition opp : float -> float := SFopp.
Definition ltb : float -> float -> bool := SFltb.
Definition leb : float -> float -> bool := SFleb.

(** [(float)n] for an [int] (or any integer) [n]. *)
Definition of_int (n : Z) : float := binary_normalize prec emax n 0 false.

(** The decimal literal [n/d] written with suffix [f]: the binary32 number
    nearest to the quotient. *)
Definition lit (n d : positive) : float :=
  SFdiv prec emax (S754_finite false n 0) (S754_finite false d 0).

Definition zero : float := S754_zero false.
Definition one : float := of_int 1.
Definition two : float := of_int 2.

Definition is_finite (x : float) : bool :=
  match x with
  | S754_zero _ | S754_finite _ _ _ => true
  | _ => false
  end.

Definition is_nan (x : float) : bool :=
  match x with S754_nan => true | _ => false end.

Definition valid (x : float) : bool := valid_binary prec emax x.
End F32.

(** [double]: IEEE-754 binary64. *)
Module F64.
Definition prec : Z := 53.
Definition emax : Z := 1024.
Definition double : Type := spec_float.

Definition sub : double -> double -> double := SFsub prec emax.
Definition div : double -> double -> double := SFdiv prec emax.
Definition of_int (n : Z) : double := binary_normalize prec emax n 0 false.
Definition lit (n d : positive) : double :=
  SFdiv prec emax (S754_finite false n 0) (S754_finite false d 0).
Definition zero : double := S754_zero false.

Definition is_finite (x : double) : bool :=
  match x with
  | S754_zero _ | S754_finite _ _ _ => true
  | _ => false
  end.

(** [float(d)]: conversion of a double to binary32. *)
Definition to_float (d : double) : F32.float :=
  match d with
  | S754_finite s m e => binary_round F32.prec F32.emax s m e
  | _ => d
  end.

(** A [float] operand promoted to [double] (exact). *)
Definition of_float (f : F32.float) : double := f.
End F64.

Abbreviation float := F32.float.
Abbreviation double := F64.double.

(** 32-bit [int]. *)
Module Int.
Definition min_signed : Z := - 2 ^ 31.
Definition max_signed : Z := 2 ^ 31 - 1.

(** Reduction of a mathematical result to a 32-bit two's complement value. *)
Definition wrap (v : Z) : Z := (v + 2 ^ 31) mod 2 ^ 32 - 2 ^ 31.

Definition add (a b : Z) : Z := wrap (a + b).
Definition mul (a b : Z) : Z := wrap (a * b).
Definition shl (a n : Z) : Z := wrap (Z.shiftl a n).

Definition in_range (v : Z) : bool := (min_signed <=? v) && (v <=? max_signed).
End Int.

(** The real number a float stands for (0 for infinities and NaN). *)
Definition SF2R (x : spec_float) : R :=
  match x with
  | S754_finite s m e =>
      ((if s then -1 else 1) * IZR (Zpos m) * powerRZ 2 e)%R
  | _ => 0%R
  end.

(** ** What the platform supplies *)

Class Platform := {
  cosf : float -> float;
  sinf : float -> float;
  tanf : float -> float;
  (** the value an out-of-range or NaN float-to-int conversion leaves
      (saturation on arm64, [INT_MIN] on x86) *)
  fcvt_invalid : float -> Z;

  cosf_zero : forall s, cosf (S754_zero s) = F32.one;
  cosf_infinity : forall s, cosf (S754_infinity s) = S754_nan;
  cosf_nan : cosf S754_nan = S754_nan;
  cosf_valid : forall x, F32.valid (cosf x) = true;
  cosf_range : forall x, F32.is_finite x = true ->
     F32.leb (F32.opp F32.one) (cosf x) = true /\ F32.leb (cosf x) F32.one = true;
  sinf_zero : forall s, sinf (S754_zero s) = S754_zero s;
  fcvt_invalid_range : forall x, Int.in_range (fcvt_invalid x) = true
}.

(** [floorf]: the largest integral value not above [x]. *)
Definition floorf (x : float) : float :=
  match x with
  | S754_finite s m e =>
      if 0 <=? e then x
      else binary_normalize F32.prec F32.emax
             (Z.shiftr (cond_Zopp s (Zpos m)) (- e)) 0 s
  | _ => x
  end.

(** [static_cast<int>(x)]: truncation toward zero when the result fits. *)
Definition float_to_int `{Platform} (x : float) : Z :=
  match x with
  | S754_zero _ => 0
  | S754_finite s m e =>
      let t := cond_Zopp s (if 0 <=? e then Z.shiftl (Zpos m) e
                            else Z.shiftr (Zpos m) (- e)) in
      if Int.in_range t then t else fcvt_invalid x
  | _ => fcvt_invalid x
  end.

(** [for (int i = 0; i < hi; ++i) body], threading the state the body
    mutates. *)
Fixpoint for_range {St : Type} (i : Z) (n : nat) (body : Z -> St -> St) (s : St) : St :=
  match n with
  | O => s
  | S k => for_range (i + 1) k body (body i s)
  end.

Definition for_lt {St : Type} (hi : Z) (body : Z -> St -> St) (s : St) : St :=
  for_range 0 (Z.to_nat hi) body s.

(** ** landscape.cpp: noise *)

Section Noise.
Context `{Platform}.

Definition LANDSCAPE_WIDTH : Z := 50.
Definition LANDSCAPE_DEPTH : Z := 50.
Definition TERRAIN_SCALE : float := F32.of_int 5.
Definition TERRAIN_HEIGHT : float := F32.of_int 12.

(** The integer the hash leaves after masking with [0x7fffffff]. *)
Definition simple_noise_hash (x z : Z) : Z :=
  let n := Int.add x (Int.mul z 57) in
  let n := Z.lxor (Int.shl n 13) n in
  Z.land
    (Int.add (Int.mul n (Int.add (Int.mul (Int.mul n n) 15731) 789221))
             1376312589)
    2147483647.

Definition simple_noise (x z : Z) : float :=
  F32.sub F32.one
    (F32.div (F32.of_int (simple_noise_hash x z)) (F32.of_int 1073741824)).

Definition cosine_interpolate (a b blend : float) : float :=
  let ft := F32.mul blend (F32.lit 31415927 10000000) in
  let f := F32.mul (F32.sub F32.one (cosf ft)) (F32.lit 5 10) in
  F32.add (F32.mul a (F32.sub F32.one f)) (F32.mul b f).

Definition smoothed_noise (x z : float) : float :=
  let int_x := float_to_int (floorf x) in
  let int_z := float_to_int (floorf z) in
  let frac_x := F32.sub x (F32.of_int int_x) in
  let frac_z := F32.sub z (F32.of_int int_z) in
  let v1 := simple_noise int_x int_z in
  let v2 := simple_noise (Int.add int_x 1) int_z in
  let v3 := simple_noise int_x (Int.add int_z 1) in
  let v4 := simple_noise (Int.add int_x 1) (Int.add int_z 1) in
  let i1 := cosine_interpolate v1 v2 frac_x in
  let i2 := cosine_interpolate v3 v4 frac_x in
  cosine_interpolate i1 i2 frac_z.

(** The loop state of [fractal_noise]. *)
Record octave_state := {
  total : float;
  frequency : float;
  amplitude : float
}.

Definition persistence : float := F32.lit 45 100.
Definition octaves : Z := 5.

Definition octave_step (x z : float) (st : octave_state) : octave_state :=
  {| total := F32.add (total st)
                (F32.mul (smoothed_noise (F32.mul x (frequency st))
                                         (F32.mul z (frequency st)))
                         (amplitude st));
     amplitude := F32.mul (amplitude st) persistence;
     frequency := F32.mul (frequency st) F32.two |}.

Definition fractal_noise (x z : float) : float :=
  total (for_lt octaves (fun _ => octave_step x z)
           {| total := F32.zero; frequency := F32.one; amplitude := F32.one |}).
End Noise.

(** ** simd vectors and matrices *)

Record float3 := mk_float3 { f3x : float; f3y : float; f3z : float }.
Record float4 := mk_float4 { f4x : float; f4y : float; f4z : float; f4w : float }.
Record float4x4 := mk_float4x4 { col0 : float4; col1 : float4; col2 : float4; col3 : float4 }.

(** Modelled from the spec: Apple's [simd] library is outside the source
    tree.  The operators are lane-wise, [dot] sums the lane products left to
    right, [length] is the square root of the dot product, [normalize]
    scales by the reciprocal of the length, [clamp] is [min (max x lo) hi]
    with the minimum and maximum of IEEE-754 (a NaN operand is dropped). *)
Module simd.
Definition map2 (op : float -> float -> float) (a b : float3) : float3 :=
  {| f3x := op (f3x a) (f3x b); f3y := op (f3y a) (f3y b); f3z := op (f3z a) (f3z b) |}.

Definition add : float3 -> float3 -> float3 := map2 F32.add.
Definition sub : float3 -> float3 -> float3 := map2 F32.sub.
Definition scale (a : float3) (k : float) : float3 :=
  {| f3x := F32.mul (f3x a) k; f3y := F32.mul (f3y a) k; f3z := F32.mul (f3z a) k |}.

Definition dot (a b : float3) : float :=
  F32.add (F32.add (F32.mul (f3x a) (f3x b)) (F32.mul (f3y a) (f3y b)))
          (F32.mul (f3z a) (f3z b)).

Definition cross (a b : float3) : float3 :=
  {| f3x := F32.sub (F32.mul (f3y a) (f3z b)) (F32.mul (f3z a) (f3y b));
     f3y := F32.sub (F32.mul (f3z a) (f3x b)) (F32.mul (f3x a) (f3z b));
     f3z := F32.sub (F32.mul (f3x a) (f3y b)) (F32.mul (f3y a) (f3x b)) |}.

Definition length (a : float3) : float := F32.sqrt (dot a a).

Definition normalize (a : float3) : float3 :=
  scale a (F32.div F32.one (F32.sqrt (dot a a))).

Definition fmax (a b : float) : float :=
  if F32.is_nan a then b else if F32.is_nan b then a
  else if F32.ltb a b then b else a.

Definition fmin (a b : float) : float :=
  if F32.is_nan a then b else if F32.is_nan b then a
  else if F32.ltb b a then b else a.

Definition clamp (a lo hi : float3) : float3 := map2 fmin (map2 fmax a lo) hi.
End simd.

(** ** objects.hpp *)

Record Vertex := mk_Vertex { position : float3; normal : float3 }.

Record GameObject := {
  modelMatrix : float4x4;
  color : float3;
  vertices : list Vertex;
  indices : list Z
}.

(** ** camera.hpp: matrices used by the two modules *)

Definition matrix_translation (tx ty tz : float) : float4x4 :=
  {| col0 := mk_float4 F32.one F32.zero F32.zero F32.zero;
     col1 := mk_float4 F32.zero F32.one F32.zero F32.zero;
     col2 := mk_float4 F32.zero F32.zero F32.one F32.zero;
     col3 := mk_float4 tx ty tz F32.one |}.

Definition matrix_look_at_right_hand (eye center up : float3) : float4x4 :=
  let f := simd.normalize (simd.sub center eye) in
  let s := simd.normalize (simd.cross f up) in
  let u := simd.cross s f in
  {| col0 := mk_float4 (f3x s) (f3x u) (F32.opp (f3x f)) F32.zero;
     col1 := mk_float4 (f3y s) (f3y u) (F32.opp (f3y f)) F32.zero;
     col2 := mk_float4 (f3z s) (f3z u) (F32.opp (f3z f)) F32.zero;
     col3 := mk_float4 (F32.opp (simd.dot s eye)) (F32.opp (simd.dot u eye))
                       (simd.dot f eye) F32.one |}.

Section MatrixPerspective.
Context `{Platform}.

Definition matrix_perspective_right_hand (fovyRadians aspect nearZ farZ : float) : float4x4 :=
  let ys := F32.div F32.one (tanf (F32.mul fovyRadians (F32.lit 5 10))) in
  let xs := F32.div ys aspect in
  let zs := F32.div farZ (F32.sub nearZ farZ) in
  {| col0 := mk_float4 xs F32.zero F32.zero F32.zero;
     col1 := mk_float4 F32.zero ys F32.zero F32.zero;
     col2 := mk_float4 F32.zero F32.zero zs (F32.opp F32.one);
     col3 := mk_float4 F32.zero F32.zero (F32.mul zs nearZ) F32.zero |}.
End MatrixPerspective.

(** The two builders no other function of the sources calls. *)
Section MatrixRotation.
Context `{Platform}.

End MatrixRotation.


(** ** landscape.cpp: the mesh *)

(** [v[i] = x] on a vector; an index past the end is undefined in C++ and
    leaves the list as it is here. *)
Fixpoint vec_set {A : Type} (l : list A) (i : nat) (x : A) : list A :=
  match l, i with
  | [], _ => []
  | _ :: t, O => x :: t
  | h :: t, S k => h :: vec_set t k x
  end.

Section Landscape.
Context `{Platform}.

Definition default_vertex : Vertex :=
  mk_Vertex (mk_float3 F32.zero F32.zero F32.zero) (mk_float3 F32.zero F32.zero F32.zero).

(** [v[i]] for an [int] index. *)
Definition vec_get (l : list Vertex) (i : Z) : Vertex := nth (Z.to_nat i) l default_vertex.

Definition height_of (l : list Vertex) (i : Z) : float := f3y (position (vec_get l i)).

Definition set_normal (l : list Vertex) (i : Z) (n : float3) : list Vertex :=
  vec_set l (Z.to_nat i) (mk_Vertex (position (vec_get l i)) n).

(** The height the first pass stores at grid cell (x, z). *)
Definition grid_height (width depth x z : Z) : float :=
  F32.mul
    (fractal_noise
       (F32.mul (F32.div (F32.of_int x) (F32.of_int width)) TERRAIN_SCALE)
       (F32.mul (F32.div (F32.of_int z) (F32.of_int depth)) TERRAIN_SCALE))
    TERRAIN_HEIGHT.

Definition grid_vertex (width depth x z : Z) : Vertex :=
  {| position :=
       {| f3x := F32.sub (F32.of_int x) (F32.div (F32.of_int width) F32.two);
          f3y := grid_height width depth x z;
          f3z := F32.sub (F32.of_int z) (F32.div (F32.of_int depth) F32.two) |};
     normal := mk_float3 F32.zero F32.one F32.zero |}.

Definition vertex_pass (width depth : Z) : list Vertex :=
  for_lt depth (fun z vs =>
    for_lt width (fun x vs => vs ++ [grid_vertex width depth x z]) vs) [].

(** The index expression [z * width + x] of the second and third loop nest
    as 32-bit [int] arithmetic evaluates it.  The passes below use the exact
    value [z * width + x]; the two agree on every cell of a grid with
    [width * depth <= INT_MAX].  Where the exact value is above INT_MAX the
    source overflows (undefined behaviour), so the passes are the code's on
    grids within the bound only. *)
Definition int_index (width x z : Z) : Z := Int.add (Int.mul z width) x.

(** The vector handed to [simd::normalize] for cell (x, z); the four
    neighbour indices are exact integers (see [int_index]). *)
Definition slope (width depth : Z) (vs : list Vertex) (x z : Z) : float3 :=
  let heightL := height_of vs (z * width + (if 0 <? x then x - 1 else x)) in
  let heightR := height_of vs (z * width + (if x <? width - 1 then x + 1 else x)) in
  let heightD := height_of vs ((if 0 <? z then z - 1 else z) * width + x) in
  let heightU := height_of vs ((if z <? depth - 1 then z + 1 else z) * width + x) in
  {| f3x := F32.sub heightL heightR; f3y := F32.two; f3z := F32.sub heightD heightU |}.

(** The second loop nest; the index of the vertex written is an exact
    integer (see [int_index]). *)
Definition normal_pass (width depth : Z) (vs : list Vertex) : list Vertex :=
  for_lt depth (fun z vs =>
    for_lt width (fun x vs =>
      set_normal vs (z * width + x) (simd.normalize (slope width depth vs x z))) vs) vs.

(** The third loop nest.  [i0] to [i3] and the loop bounds [depth - 1] and
    [width - 1] are exact integers: they are the source's [int] values, and
    unchanged by the conversion to [uint32_t] of [push_back], for dimensions
    above [INT_MIN] and [width * depth <= INT_MAX]. *)
Definition index_pass (width depth : Z) : list Z :=
  for_lt (depth - 1) (fun z ix =>
    for_lt (width - 1) (fun x ix =>
      let i0 := z * width + x in
      let i1 := z * width + x + 1 in
      let i2 := (z + 1) * width + x in
      let i3 := (z + 1) * width + x + 1 in
      ix ++ [i0; i2; i1; i1; i2; i3]) ix) [].

Definition create_landscape (width depth : Z) : GameObject :=
  {| vertices := normal_pass width depth (vertex_pass width depth);
     indices := index_pass width depth;
     modelMatrix := matrix_translation F32.zero F32.zero F32.zero;
     color := mk_float3 (F32.lit 3 10) (F32.lit 6 10) (F32.lit 2 10) |}.

Definition get_terrain_height (x z : float) : float :=
  let noise_x :=
    F32.mul (F32.div (F32.add x (F32.div (F32.of_int LANDSCAPE_WIDTH) F32.two))
                     (F32.of_int LANDSCAPE_WIDTH)) TERRAIN_SCALE in
  let noise_z :=
    F32.mul (F32.div (F32.add z (F32.div (F32.of_int LANDSCAPE_DEPTH) F32.two))
                     (F32.of_int LANDSCAPE_DEPTH)) TERRAIN_SCALE in
  F32.mul (fractal_noise noise_x noise_z) TERRAIN_HEIGHT.
End Landscape.

(** ** camera.hpp: the camera *)

Record Camera := {
  cam_position : float3;
  yaw : float;
  pitch : float;
  moveSpeed : float;
  lookSpeed : float;
  viewMatrix : float4x4;
  projectionMatrix : float4x4
}.

(** The function-local statics of [update_camera]: one copy for the whole
    program, shared by every camera. *)
Record Statics := {
  lastMouseX : double;
  lastMouseY : double;
  firstMouse : bool
}.

Definition initial_statics : Statics :=
  {| lastMouseX := F64.zero; lastMouseY := F64.zero; firstMouse := true |}.

Definition zero4 : float4 := mk_float4 F32.zero F32.zero F32.zero F32.zero.
Definition zero4x4 : float4x4 := mk_float4x4 zero4 zero4 zero4 zero4.

Definition PITCH_LIMIT : float := F32.lit 15708 10000.
Definition MOVE_EPSILON : float := F32.lit 1 100.
Definition minBounds : float3 :=
  mk_float3 (F32.opp (F32.of_int 20)) F32.zero (F32.opp (F32.of_int 20)).
Definition maxBounds : float3 :=
  mk_float3 (F32.of_int 20) (F32.of_int 20) (F32.of_int 20).
Definition world_up : float3 := mk_float3 F32.zero F32.one F32.zero.

Section CameraController.
Context `{Platform}.

Definition M_PI : double := F64.lit 314159265358979323846 100000000000000000000.

Definition make_camera (width height : Z) : Camera :=
  {| cam_position := mk_float3 F32.zero F32.zero (F32.of_int 3);
     yaw := F32.zero;
     pitch := F32.zero;
     moveSpeed := F32.of_int 8;
     lookSpeed := F32.lit 5 1000;
     viewMatrix := zero4x4;
     projectionMatrix :=
       matrix_perspective_right_hand
         (F64.to_float (F64.div M_PI (F64.of_float (F32.of_int 3))))
         (F32.div (F32.of_int width) (F32.of_int height))
         (F32.lit 1 10) (F32.of_int 100) |}.

(** The pointer delta of one call and the statics it leaves. *)
Definition pointer_delta (st : Statics) (mouseX mouseY : double) : float * float * Statics :=
  let lastX := if firstMouse st then mouseX else lastMouseX st in
  let lastY := if firstMouse st then mouseY else lastMouseY st in
  let deltaX := F64.to_float (F64.sub mouseX lastX) in
  let deltaY := F64.to_float (F64.sub mouseY lastY) in
  (deltaX, deltaY,
   {| lastMouseX := mouseX; lastMouseY := mouseY; firstMouse := false |}).

Definition clamp_pitch (p : float) : float :=
  let p := if F32.ltb PITCH_LIMIT p then PITCH_LIMIT else p in
  if F32.ltb p (F32.opp PITCH_LIMIT) then F32.opp PITCH_LIMIT else p.

Definition forward_of (yaw pitch : float) : float3 :=
  let cos_pitch := cosf pitch in
  simd.normalize
    (mk_float3 (F32.mul (sinf yaw) cos_pitch) (sinf pitch)
               (F32.mul (F32.opp (cosf yaw)) cos_pitch)).

Definition right_of (forward : float3) : float3 :=
  simd.normalize (simd.cross forward world_up).

Definition add_y (v : float3) (d : float) : float3 :=
  mk_float3 (f3x v) (F32.add (f3y v) d) (f3z v).
Definition sub_y (v : float3) (d : float) : float3 :=
  mk_float3 (f3x v) (F32.sub (f3y v) d) (f3z v).

Definition move_dir (keys : ascii -> bool) (forward right : float3) : float3 :=
  let moveDir := mk_float3 F32.zero F32.zero F32.zero in
  let moveDir := if keys "W"%char then simd.add moveDir forward else moveDir in
  let moveDir := if keys "S"%char then simd.sub moveDir forward else moveDir in
  let moveDir := if keys "A"%char then simd.sub moveDir right else moveDir in
  let moveDir := if keys "D"%char then simd.add moveDir right else moveDir in
  let moveDir := if keys " "%char then add_y moveDir F32.one else moveDir in
  if keys "C"%char || keys "X"%char then sub_y moveDir F32.one else moveDir.

Definition advance (pos moveDir : float3) (speed dt : float) : float3 :=
  if F32.ltb MOVE_EPSILON (simd.length moveDir)
  then simd.add pos (simd.scale (simd.scale (simd.normalize moveDir) speed) dt)
  else pos.

Definition update_camera (st : Statics) (cam : Camera) (dt : float)
    (keys : ascii -> bool) (mouseX mouseY : double) : Statics * Camera :=
  let '(deltaX, deltaY, st') := pointer_delta st mouseX mouseY in
  let yaw' := F32.add (yaw cam) (F32.mul deltaX (lookSpeed cam)) in
  let pitch' := clamp_pitch (F32.sub (pitch cam) (F32.mul deltaY (lookSpeed cam))) in
  let forward := forward_of yaw' pitch' in
  let right := right_of forward in
  let moveDir := move_dir keys forward right in
  let pos := simd.clamp (advance (cam_position cam) moveDir (moveSpeed cam) dt)
                        minBounds maxBounds in
  (st',
   {| cam_position := pos;
      yaw := yaw';
      pitch := pitch';
      moveSpeed := moveSpeed cam;
      lookSpeed := lookSpeed cam;
      viewMatrix := matrix_look_at_right_hand pos (simd.add pos forward) world_up;
      projectionMatrix := projectionMatrix cam |}).
End CameraController.

(** ** A platform to run the definitions on

    The laws of [Platform] are satisfiable: the crudest math library that
    obeys them answers 1 for the cosine of every finite argument, and arm64
    saturation is a lawful out-of-range conversion. *)

Definition coarse_cosf (x : float) : float :=
  match x with
  | S754_zero _ | S754_finite _ _ _ => F32.one
  | _ => S754_nan
  end.

Definition coarse_sinf (x : float) : float :=
  match x with
  | S754_zero _ => x
  | S754_finite _ _ _ => F32.zero
  | _ => S754_nan
  end.

Definition saturating_fcvt (x : float) : Z :=
  match x with
  | S754_infinity false | S754_finite false _ _ => Int.max_signed
  | S754_infinity true | S754_finite true _ _ => Int.min_signed
  | _ => 0
  end.

#[export] Instance coarse_platform : Platform.
Proof.
  refine {| cosf := coarse_cosf; sinf := coarse_sinf; tanf := coarse_sinf;
            fcvt_invalid := saturating_fcvt |}.
  - reflexivity.
  - reflexivity.
  - reflexivity.
  - intros [ | | | ]; reflexivity.
  - intros [ | | | ]; simpl; intros; try discriminate; split; reflexivity.
  - reflexivity.
  - intros [ | [|] | | [|] ]; reflexivity.
Defined.

(** * Vocabulary of the statements *)

(** The integers [lo, lo+1, ..., lo+n-1] a counted loop visits. *)
Fixpoint zseq (lo : Z) (n : nat) : list Z :=
  match n with
  | O => []
  | S k => lo :: zseq (lo + 1) k
  end.

(** One row of the vertex pass. *)
Definition grid_row `{Platform} (width depth z : Z) : list Vertex :=
  map (fun x => grid_vertex width depth x z) (zseq 0 (Z.to_nat width)).

(** The six indices the index pass appends for the quad at (x, z). *)
Definition quad_indices (width z x : Z) : list Z :=
  [z * width + x; (z + 1) * width + x; z * width + x + 1;
   z * width + x + 1; (z + 1) * width + x; (z + 1) * width + x + 1].

(** What the loops of the normal pass have established before cell
    (x, z) is visited. *)
Definition normals_done (width depth : Z) (vs0 : list Vertex) (z x : Z)
    (vs : list Vertex) : Prop :=
  length vs = length vs0 /\
  (forall i, position (vec_get vs i) = position (vec_get vs0 i)) /\
  (forall x' z', 0 <= x' < width -> 0 <= z' < depth ->
     z' < z \/ (z' = z /\ x' < x) ->
     normal (vec_get vs (z' * width + x')) =
     simd.normalize (slope width depth vs0 x' z')).

(** The statics once some earlier call has seen the pointer at the origin. *)
Definition statics_after_origin : Statics :=
  {| lastMouseX := F64.zero; lastMouseY := F64.zero; firstMouse := false |}.

(** Two floats that are the same number: identical, or zeros of either sign. *)
Definition same_number (a b : float) : Prop :=
  a = b \/ (exists s t, a = S754_zero s /\ b = S754_zero t).

(** The statics after some other camera has been driven with the pointer at
    the origin. *)
Definition statics_after_other_camera : Statics :=
  fst (@update_camera coarse_platform initial_statics
         (@make_camera coarse_platform 800 600) F32.one (fun _ => false)
         F64.zero F64.zero).

(** Component-wise membership in the box [-20,20] x [0,20] x [-20,20]. *)
Definition in_bounds (p : float3) : Prop :=
  (F32.leb (f3x minBounds) (f3x p) = true /\ F32.leb (f3x p) (f3x maxBounds) = true) /\
  (F32.leb (f3y minBounds) (f3y p) = true /\ F32.leb (f3y p) (f3y maxBounds) = true) /\
  (F32.leb (f3z minBounds) (f3z p) = true /\ F32.leb (f3z p) (f3z maxBounds) = true).

(** Only the strafe-right key held. *)
Definition only_D (c : ascii) : bool := Ascii.eqb c "D"%char.

(** The camera of the bounds test: a fresh camera moved to (19.9, 0, 0). *)
Definition camera_at_edge : Camera :=
  let cam := @make_camera coarse_platform 800 600 in
  {| cam_position := mk_float3 (F32.lit 199 10) F32.zero F32.zero;
     yaw := yaw cam; pitch := pitch cam;
     moveSpeed := moveSpeed cam; lookSpeed := lookSpeed cam;
     viewMatrix := viewMatrix cam; projectionMatrix := projectionMatrix cam |}.

(** A lane of the move direction that is +0 or NaN. *)
Definition null_or_nan (t : float) : Prop := t = F32.zero \/ t = S754_nan.

(** Keys that cancel pairwise: forward with back, left with right, up with
    down ('C' or 'X'); in particular no movement key at all. *)
Definition balanced (keys : ascii -> bool) : Prop :=
  keys "W"%char = keys "S"%char /\
  keys "A"%char = keys "D"%char /\
  keys " "%char = (keys "C"%char || keys "X"%char).

(** Forward and back held together, nothing else. *)
Definition forward_and_back (c : ascii) : bool :=
  Ascii.eqb c "W"%char || Ascii.eqb c "S"%char.

(** [FLT_MAX], the largest finite binary32 number. *)
Definition FLT_MAX : float := S754_finite false 16777215 104.

(** The range [-25, 25] of the height test. *)
Definition in_height_range (h : float) : bool :=
  F32.leb (F32.opp (F32.of_int 25)) h && F32.leb h (F32.of_int 25).

(** 2^e as a real. *)
Definition bpow (e : Z) : R := powerRZ 2 e.

(** Where the real [x] sits in the interval [m 2^e, (m+1) 2^e). *)
Definition inbetween (m e : Z) (x : R) (l : location) : Prop :=
  match l with
  | loc_Exact => x = (IZR m * bpow e)%R
  | loc_Inexact Lt => (IZR m * bpow e < x < (IZR m + / 2) * bpow e)%R
  | loc_Inexact Eq => x = ((IZR m + / 2) * bpow e)%R
  | loc_Inexact Gt => ((IZR m + / 2) * bpow e < x < (IZR m + 1) * bpow e)%R
  end.

(** The float [r] stands for [m2 * 2^e1] with sign [sx], or for an overflow. *)
Definition rounded_to (sx : bool) (m2 e1 : Z) (r : spec_float) : Prop :=
  match r with
  | S754_zero s => s = sx /\ m2 = 0
  | S754_finite s m e =>
      s = sx /\ F32.valid r = true /\ (IZR (Zpos m) * bpow e = IZR m2 * bpow e1)%R
  | S754_infinity s => s = sx /\ (bpow 128 <= IZR m2 * bpow e1)%R
  | S754_nan => False
  end.

(** The sign bit as a factor. *)
Definition sign_factor (s : bool) : R := if s then (-1)%R else 1%R.

(** [r] is what binary32 arithmetic returns for the exact result [x]:
    a valid float that no representable number separates from [x], within
    half a unit in the last place when it is finite. *)
Record Rnd (x : R) (r : spec_float) : Prop := {
  rnd_valid : F32.valid r = true;
  rnd_not_nan : r <> S754_nan;
  rnd_upper : forall B, F32.valid B = true -> F32.is_finite B = true ->
      (x <= SF2R B)%R ->
      r <> S754_infinity false /\ (F32.is_finite r = true -> (SF2R r <= SF2R B)%R);
  rnd_lower : forall B, F32.valid B = true -> F32.is_finite B = true ->
      (SF2R B <= x)%R ->
      r <> S754_infinity true /\ (F32.is_finite r = true -> (SF2R B <= SF2R r)%R);
  rnd_error : F32.is_finite r = true ->
      (Rabs (SF2R r - x) <= Rabs x * bpow (-24) + bpow (-150))%R
}.

(** What a comparison result says about two reals. *)
Definition real_order (c : comparison) (x y : R) : Prop :=
  match c with
  | Lt => (x < y)%R
  | Eq => x = y
  | Gt => (y < x)%R
  end.

(** A valid finite float: what every operation below consumes and produces. *)
Definition good (a : spec_float) : Prop :=
  F32.valid a = true /\ F32.is_finite a = true.

(** Unit roundoff of binary32 and half its smallest positive number. *)
Definition u24 : R := bpow (-24).
Definition eta : R := bpow (-150).

(** The bound obtained for [smoothed_noise]: two nested interpolations of
    values in [-1, 1]. *)
Definition SMOOTH_BOUND : R := ((1 + / 2097152) * (1 + / 2097152))%R.

(** 2^100: coordinates up to this magnitude keep every intermediate of the
    height computation finite. *)
Definition COORD_LIMIT : float := S754_finite false 8388608 77.

(** The squared Euclidean norm of the three lanes, as a real. *)
Definition norm2 (v : float3) : R :=
  (SF2R (f3x v) * SF2R (f3x v) + SF2R (f3y v) * SF2R (f3y v) +
   SF2R (f3z v) * SF2R (f3z v))%R.

(** Lanes that are valid finite floats of magnitude at most 64. *)
Definition tame (v : float3) : Prop :=
  (good (f3x v) /\ (Rabs (SF2R (f3x v)) <= 64)%R) /\
  (good (f3y v) /\ (Rabs (SF2R (f3y v)) <= 64)%R) /\
  (good (f3z v) /\ (Rabs (SF2R (f3z v)) <= 64)%R).

(** The vector of height differences at cell (x, z), with a missing
    neighbour replaced by the cell itself. *)
Definition grid_slope `{Platform} (width depth x z : Z) : float3 :=
  let heightL := grid_height width depth (if 0 <? x then x - 1 else x) z in
  let heightR := grid_height width depth (if x <? width - 1 then x + 1 else x) z in
  let heightD := grid_height width depth x (if 0 <? z then z - 1 else z) in
  let heightU := grid_height width depth x (if z <? depth - 1 then z + 1 else z) in
  {| f3x := F32.sub heightL heightR; f3y := F32.two; f3z := F32.sub heightD heightU |}.

(** The grid column and row of the vertex stored at index [i]. *)
Definition grid_x (width i : Z) : Z := i mod width.
Definition grid_z (width i : Z) : Z := i / width.

(** Twice the signed area, in the grid plane, of the triangle with vertex
    indices [a], [b], [c]: the y component of (b - a) x (c - a). *)
Definition winding (width a b c : Z) : Z :=
  (grid_z width b - grid_z width a) * (grid_x width c - grid_x width a) -
  (grid_x width b - grid_x width a) * (grid_z width c - grid_z width a).

(** [indices[k]] *)
Definition index_at (ix : list Z) (k : Z) : Z := nth (Z.to_nat k) ix 0.

(** Only the forward key held. *)
Definition only_W (c : ascii) : bool := Ascii.eqb c "W"%char.

(** A lane clamped to the bounds of the given axis. *)
Definition clamp_to (lo hi v : float) : float := simd.fmin (simd.fmax v lo) hi.

(** A column of NaN above the given homogeneous entry. *)
Definition nan_column (w : float) : float4 := mk_float4 S754_nan S754_nan S754_nan w.

(** The smallest positive binary32 number, negated: -2^-149. *)
Definition NEG_FLT_TRUE_MIN : float := S754_finite true 1 (-149).


(** The input of one frame. *)
Record Frame := {
  frame_dt : float;
  frame_keys : ascii -> bool;
  frame_mouseX : double;
  frame_mouseY : double
}.

(** [update_camera] called once per frame, the statics carried along. *)
Definition run_frames `{Platform} (st : Statics) (cam : Camera) (frames : list Frame)
    : Statics * Camera :=
  fold_left (fun sc fr =>
               update_camera (fst sc) (snd sc) (frame_dt fr) (frame_keys fr)
                             (frame_mouseX fr) (frame_mouseY fr))
            frames (st, cam).

(** Only the up key (space) held; only a down key ('C') held. *)
Definition only_space (c : ascii) : bool := Ascii.eqb c " "%char.
Definition only_C (c : ascii) : bool := Ascii.eqb c "C"%char.

(** What every frame leaves: the position in the box, the pitch clamped
    unless it is NaN, and the pointer statics initialised. *)
Definition settled (sc : Statics * Camera) : Prop :=
  in_bounds (cam_position (snd sc)) /\
  (F32.is_nan (pitch (snd sc)) = true \/
   (F32.leb (F32.opp PITCH_LIMIT) (pitch (snd sc)) = true /\
    F32.leb (pitch (snd sc)) PITCH_LIMIT = true)) /\
  firstMouse (fst sc) = false.

(** What no frame touches. *)
Definition same_settings (cam cam' : Camera) : Prop :=
  moveSpeed cam' = moveSpeed cam /\ lookSpeed cam' = lookSpeed cam /\
  projectionMatrix cam' = projectionMatrix cam.

(** Two key states the camera cannot tell apart: the same movement keys,
    and a down key ('C' or 'X') held in both or in neither. *)
Definition same_movement_keys (keys keys' : ascii -> bool) : Prop :=
  keys "W"%char = keys' "W"%char /\ keys "S"%char = keys' "S"%char /\
  keys "A"%char = keys' "A"%char /\ keys "D"%char = keys' "D"%char /\
  keys " "%char = keys' " "%char /\
  (keys "C"%char || keys "X"%char) = (keys' "C"%char || keys' "X"%char).

(** 'C' and 'X' held together; 'X' alone. *)
Definition both_down (c : ascii) : bool := Ascii.eqb c "C"%char || Ascii.eqb c "X"%char.
Definition only_X (c : ascii) : bool := Ascii.eqb c "X"%char.

(** * Properties *)


(** ** Counted loops *)

Lemma zseq_length lo n : length (zseq lo n) = n.
Proof. revert lo; induction n; simpl; intros; [reflexivity | now rewrite IHn]. Qed.

Lemma zseq_In lo n i : In i (zseq lo n) <-> lo <= i < lo + Z.of_nat n.
Proof.
  revert lo; induction n as [|n IH]; intros lo; simpl zseq.
  - simpl; lia.
  - simpl In. rewrite IH. lia.
Qed.

Lemma zseq_nth lo n k d : (k < n)%nat -> nth k (zseq lo n) d = lo + Z.of_nat k.
Proof.
  revert lo k; induction n as [|n IH]; intros lo k Hk; [lia|].
  destruct k as [|k]; simpl; [lia|]. rewrite IH by lia. lia.
Qed.

(** A loop whose body only appends is a [flat_map] over the visited
    counters. *)
Lemma for_range_append {A : Type} (f : Z -> list A) n :
  forall lo (s : list A),
    for_range lo n (fun i s => s ++ f i) s = s ++ flat_map f (zseq lo n).
Proof.
  induction n as [|n IH]; intros lo s; simpl.
  - now rewrite app_nil_r.
  - rewrite IH. now rewrite <- app_assoc.
Qed.

Lemma for_range_ext {St : Type} (f g : Z -> St -> St) n :
  forall lo s, (forall i s, lo <= i < lo + Z.of_nat n -> f i s = g i s) ->
    for_range lo n f s = for_range lo n g s.
Proof.
  induction n as [|n IH]; intros lo s Hfg; simpl; [reflexivity|].
  rewrite Hfg by lia. apply IH. intros; apply Hfg; lia.
Qed.

(** Loop invariants: [P i s] holds before the iteration with counter [i]. *)
Lemma for_range_invariant {St : Type} (P : Z -> St -> Prop) (body : Z -> St -> St) n :
  forall lo s,
    P lo s ->
    (forall i s, lo <= i < lo + Z.of_nat n -> P i s -> P (i + 1) (body i s)) ->
    P (lo + Z.of_nat n) (for_range lo n body s).
Proof.
  induction n as [|n IH]; intros lo s H0 Hstep; simpl for_range.
  - now replace (lo + Z.of_nat 0) with lo by lia.
  - replace (lo + Z.of_nat (S n)) with ((lo + 1) + Z.of_nat n) by lia.
    apply IH.
    + apply Hstep; [lia | exact H0].
    + intros i s' Hi. apply Hstep. lia.
Qed.

Lemma flat_map_const_length {A B : Type} (f : A -> list B) (k : nat) (l : list A) :
  (forall a, In a l -> length (f a) = k) ->
  length (flat_map f l) = (length l * k)%nat.
Proof.
  induction l as [|a l IH]; intros Hk; simpl; [reflexivity|].
  rewrite length_app, Hk by (now left).
  rewrite IH by (intros; apply Hk; now right). lia.
Qed.

(** ** The three passes of [create_landscape] as lists *)

Section LandscapeFacts.
Context `{Platform}.

Lemma vertex_pass_rows width depth :
  vertex_pass width depth = flat_map (grid_row width depth) (zseq 0 (Z.to_nat depth)).
Proof.
  unfold vertex_pass, for_lt.
  rewrite <- (app_nil_l (flat_map _ _)), <- for_range_append.
  apply for_range_ext. intros z vs _.
  rewrite for_range_append. unfold grid_row.
  generalize (zseq 0 (Z.to_nat width)) as l.
  induction l as [|a l IH]; [reflexivity|].
  simpl. apply app_inv_head in IH. now rewrite IH.
Qed.

Lemma index_pass_quads width depth :
  index_pass width depth =
  flat_map (fun z => flat_map (quad_indices width z) (zseq 0 (Z.to_nat (width - 1))))
           (zseq 0 (Z.to_nat (depth - 1))).
Proof.
  unfold index_pass, for_lt.
  rewrite <- (app_nil_l (flat_map _ _)), <- for_range_append.
  apply for_range_ext. intros z ix _.
  now rewrite for_range_append.
Qed.

Lemma grid_row_length width depth z : length (grid_row width depth z) = Z.to_nat width.
Proof. unfold grid_row. now rewrite length_map, zseq_length. Qed.

Lemma vertex_pass_length width depth :
  length (vertex_pass width depth) = (Z.to_nat depth * Z.to_nat width)%nat.
Proof.
  rewrite vertex_pass_rows.
  rewrite (flat_map_const_length _ (Z.to_nat width)).
  - now rewrite zseq_length.
  - intros; apply grid_row_length.
Qed.

Lemma index_pass_length width depth :
  length (index_pass width depth) =
  (Z.to_nat (depth - 1) * (Z.to_nat (width - 1) * 6))%nat.
Proof.
  rewrite index_pass_quads.
  rewrite (flat_map_const_length _ (Z.to_nat (width - 1) * 6)).
  - now rewrite zseq_length.
  - intros z _. rewrite (flat_map_const_length _ 6).
    + now rewrite zseq_length.
    + reflexivity.
Qed.

Lemma index_pass_bound width depth i :
  0 < width -> 0 < depth ->
  In i (index_pass width depth) -> 0 <= i < width * depth.
Proof.
  intros Hw Hd. rewrite index_pass_quads.
  rewrite in_flat_map. intros (z & Hz & Hi).
  rewrite in_flat_map in Hi. destruct Hi as (x & Hx & Hi).
  apply zseq_In in Hz. apply zseq_In in Hx.
  assert (Hzw : 0 <= z * width) by nia.
  assert (Hlast : (z + 1) * width + x + 1 < width * depth) by nia.
  unfold quad_indices in Hi. simpl in Hi.
  repeat (destruct Hi as [<- | Hi]; [nia|]). contradiction.
Qed.

(** Writing a normal changes neither the length nor any position. *)
Lemma vec_set_length {A : Type} (l : list A) i x : length (vec_set l i x) = length l.
Proof.
  revert i; induction l as [|a l IH]; intros [|i]; simpl; auto.
Qed.

Lemma vec_set_nth_eq {A : Type} (l : list A) i x d :
  (i < length l)%nat -> nth i (vec_set l i x) d = x.
Proof.
  revert i; induction l as [|a l IH]; intros [|i]; simpl; intros Hi;
    try lia; auto. apply IH; lia.
Qed.

Lemma vec_set_nth_neq {A : Type} (l : list A) i j x d :
  i <> j -> nth j (vec_set l i x) d = nth j l d.
Proof.
  revert i j; induction l as [|a l IH]; intros [|i] [|j]; simpl; intros Hij;
    try congruence; auto.
Qed.

Lemma flat_map_nth {A B : Type} (f : A -> list B) (n : nat) (da : A) (db : B) :
  (forall a, length (f a) = n) ->
  forall (l : list A) (k j : nat),
    (j < n)%nat -> (k < length l)%nat ->
    nth (k * n + j) (flat_map f l) db = nth j (f (nth k l da)) db.
Proof.
  intros Hlen. induction l as [|a l IH]; intros k j Hj Hk; simpl in Hk; [lia|].
  destruct k as [|k]; simpl flat_map.
  - simpl. apply app_nth1. now rewrite Hlen.
  - rewrite app_nth2 by (rewrite Hlen; simpl; lia).
    rewrite Hlen. replace (S k * n + j - n)%nat with (k * n + j)%nat by (simpl; lia).
    simpl nth. apply IH; lia.
Qed.

Lemma grid_index_nat width x z :
  0 <= x -> 0 <= z -> 0 <= width ->
  Z.to_nat (z * width + x) = (Z.to_nat z * Z.to_nat width + Z.to_nat x)%nat.
Proof. intros. nia. Qed.

(** Row-major layout of the first pass: cell (x, z) is at index z*width+x. *)
Lemma vertex_pass_nth width depth x z :
  0 <= x < width -> 0 <= z < depth ->
  vec_get (vertex_pass width depth) (z * width + x) = grid_vertex width depth x z.
Proof.
  intros Hx Hz. unfold vec_get.
  rewrite vertex_pass_rows, grid_index_nat by lia.
  rewrite (flat_map_nth _ (Z.to_nat width) 0).
  - rewrite zseq_nth by lia. unfold grid_row.
    rewrite (nth_indep _ default_vertex (grid_vertex width depth 0 (0 + Z.of_nat (Z.to_nat z))))
      by (rewrite length_map, zseq_length; lia).
    rewrite (map_nth (fun x0 => grid_vertex width depth x0 (0 + Z.of_nat (Z.to_nat z)))).
    rewrite zseq_nth by lia. f_equal; lia.
  - intros; apply grid_row_length.
  - lia.
  - rewrite zseq_length; lia.
Qed.

Lemma slope_positions width depth vs vs0 x z :
  (forall i, position (vec_get vs i) = position (vec_get vs0 i)) ->
  slope width depth vs x z = slope width depth vs0 x z.
Proof. intros Hp. unfold slope, height_of. now rewrite !Hp. Qed.

Lemma normal_pass_cell width depth vs0 z x vs :
  0 <= x < width -> 0 <= z < depth ->
  length vs0 = (Z.to_nat depth * Z.to_nat width)%nat ->
  normals_done width depth vs0 z x vs ->
  normals_done width depth vs0 z (x + 1)
    (set_normal vs (z * width + x) (simd.normalize (slope width depth vs x z))).
Proof.
  intros Hx Hz Hlen (Hl & Hp & Hn).
  assert (Hidx : (Z.to_nat (z * width + x) < length vs)%nat) by (rewrite Hl, Hlen; nia).
  unfold set_normal. repeat split.
  - now rewrite vec_set_length.
  - intros i. unfold vec_get at 1.
    destruct (Nat.eq_dec (Z.to_nat (z * width + x)) (Z.to_nat i)) as [E|E].
    + rewrite <- E, vec_set_nth_eq by exact Hidx. simpl.
      rewrite Hp. unfold vec_get. now rewrite E.
    + rewrite vec_set_nth_neq by exact E. apply Hp.
  - intros x' z' Hx' Hz' Hdone. unfold vec_get at 1.
    destruct (Z.eq_dec z' z) as [Ez|Ez]; [destruct (Z.eq_dec x' x) as [Ex|Ex]|].
    + subst. rewrite vec_set_nth_eq by exact Hidx. simpl.
      now rewrite (slope_positions _ _ vs vs0).
    + rewrite vec_set_nth_neq by nia. apply Hn; try assumption. lia.
    + rewrite vec_set_nth_neq by nia. apply Hn; try assumption. lia.
Qed.

Lemma normal_pass_done width depth vs0 :
  0 < width -> 0 < depth ->
  length vs0 = (Z.to_nat depth * Z.to_nat width)%nat ->
  normals_done width depth vs0 depth 0 (normal_pass width depth vs0).
Proof.
  intros Hw Hd Hlen. unfold normal_pass, for_lt.
  assert (Hd' : 0 + Z.of_nat (Z.to_nat depth) = depth) by lia.
  assert (Hw' : 0 + Z.of_nat (Z.to_nat width) = width) by lia.
  pose proof (for_range_invariant
                (fun z vs => normals_done width depth vs0 z 0 vs)
                (fun z vs =>
                   for_range 0 (Z.to_nat width)
                     (fun x vs => set_normal vs (z * width + x)
                                    (simd.normalize (slope width depth vs x z))) vs)
                (Z.to_nat depth) 0 vs0) as Hloop.
  rewrite Hd' in Hloop. apply Hloop; clear Hloop.
  - repeat split; intros; lia || auto.
  - intros z vs Hz Hinv.
    pose proof (for_range_invariant
                  (fun x vs => normals_done width depth vs0 z x vs)
                  (fun x vs => set_normal vs (z * width + x)
                                 (simd.normalize (slope width depth vs x z)))
                  (Z.to_nat width) 0 vs) as Hrow.
    rewrite Hw' in Hrow.
    destruct Hrow as (Hl & Hp & Hn).
    + exact Hinv.
    + intros x vs' Hx Hinv'. apply normal_pass_cell; auto; lia.
    + repeat split; auto.
      intros x' z' Hx' Hz' Hdone. apply Hn; auto. lia.
Qed.
End LandscapeFacts.

(** ** Indices within the range of [int] *)

Lemma wrap_exact (v : Z) : Int.in_range v = true -> Int.wrap v = v.
Proof.
  unfold Int.in_range, Int.wrap, Int.min_signed, Int.max_signed. intros Hv.
  apply andb_prop in Hv. destruct Hv as [Hlo Hhi].
  apply Z.leb_le in Hlo. apply Z.leb_le in Hhi.
  rewrite Z.mod_small by lia. lia.
Qed.

(** On a grid of at most INT_MAX vertices no index expression of the
    builder overflows: the product [z * width] and the sum [z * width + x]
    are values of [int] for every cell, they are below the vertex count,
    which [uint32_t] holds as well, and the 32-bit evaluation is the exact
    one. *)
Lemma int_index_exact (width depth x z : Z) :
  0 <= x < width -> 0 <= z < depth -> width * depth <= Int.max_signed ->
  Int.in_range (z * width) = true /\
  Int.in_range (z * width + x) = true /\
  0 <= z * width + x < width * depth /\
  int_index width x z = z * width + x.
Proof.
  intros Hx Hz Hb.
  assert (Hp : 0 <= z * width) by nia.
  assert (Hi : z * width + x < width * depth) by nia.
  assert (R1 : Int.in_range (z * width) = true).
  { unfold Int.in_range, Int.min_signed. apply andb_true_intro.
    split; apply Z.leb_le; lia. }
  assert (R2 : Int.in_range (z * width + x) = true).
  { unfold Int.in_range, Int.min_signed. apply andb_true_intro.
    split; apply Z.leb_le; lia. }
  repeat split; try assumption; try lia.
  unfold int_index, Int.add, Int.mul.
  rewrite (wrap_exact _ R1). apply wrap_exact, R2.
Qed.

(** The corner [i3 = (z + 1) * width + x + 1] of a quad, the largest index
    the third loop nest computes, with its intermediate results. *)
Lemma quad_corner_exact (width depth x z : Z) :
  0 <= x < width - 1 -> 0 <= z < depth - 1 -> width * depth <= Int.max_signed ->
  Int.add (Int.add (Int.mul (Int.add z 1) width) x) 1 = (z + 1) * width + x + 1.
Proof.
  intros Hx Hz Hb.
  assert (Hr : forall v, 0 <= v < width * depth -> Int.wrap v = v).
  { intros v Hv. apply wrap_exact. unfold Int.in_range, Int.min_signed.
    apply andb_true_intro. split; apply Z.leb_le; lia. }
  unfold Int.add, Int.mul.
  rewrite (Hr (z + 1)) by nia.
  rewrite (Hr ((z + 1) * width)) by nia.
  rewrite (Hr ((z + 1) * width + x)) by nia.
  apply Hr. nia.
Qed.

(** The normal pass keeps the vertices the first pass pushed. *)
Lemma mesh_vertex_count `{Platform} (width depth : Z) :
  0 < width -> 0 < depth ->
  Z.of_nat (length (vertices (create_landscape width depth))) = width * depth.
Proof.
  intros Hw Hd. unfold create_landscape. cbn [vertices].
  destruct (normal_pass_done width depth (vertex_pass width depth) Hw Hd
              (vertex_pass_length width depth)) as (Hl & _).
  rewrite Hl, vertex_pass_length. nia.
Qed.

(** C1, as stated for every positive width and depth, fails: 46341 is a
    positive value of [int], and the mesh the claim describes for a grid of
    46341 x 46341 cells has 2147488281 vertices, more than
    INT_MAX = 2147483647, and holds the index 2147488280, the corner [i3]
    of the last quad.  That index is no value of [int]: the source's
    [int i3 = (z + 1) * width + x + 1] overflows at z = x = 46339, which is
    undefined behaviour, and 32-bit wrap-around leaves the negative number
    -2147479016 in [i3].  Before the index buffer is built, the normal pass
    has addressed the last vertex as [landscape.vertices[z * width + x]]
    with z = x = 46340, an [int] index that overflows in the same way and
    is no position of the vector. *)
Lemma create_landscape_counts_beyond_int :
  0 < 46341 <= Int.max_signed /\
  ~ (46341 * 46341 <= Int.max_signed) /\
  Z.of_nat (length (vertices (@create_landscape coarse_platform 46341 46341))) = 2147488281 /\
  In 2147488280 (indices (@create_landscape coarse_platform 46341 46341)) /\
  (46339 + 1) * 46341 + 46339 + 1 = 2147488280 /\
  Int.in_range 2147488280 = false /\
  Int.add (Int.add (Int.mul (Int.add 46339 1) 46341) 46339) 1 = -2147479016 /\
  ~ (0 <= Int.add (Int.mul 46340 46341) 46340 <
     Z.of_nat (length (vertices (@create_landscape coarse_platform 46341 46341)))).
Proof.
  split; [unfold Int.max_signed; lia|]. split; [unfold Int.max_signed; lia|].
  split; [|split; [|split; [|split; [|split]]]].
  - rewrite mesh_vertex_count; lia.
  - unfold create_landscape. cbn [indices]. rewrite index_pass_quads.
    apply in_flat_map. exists 46339. split; [apply zseq_In; lia|].
    apply in_flat_map. exists 46339. split; [apply zseq_In; lia|].
    unfold quad_indices. do 5 right. left. lia.
  - lia.
  - reflexivity.
  - reflexivity.
  - change (Int.add (Int.mul 46340 46341) 46340) with (-2147479016). lia.
Qed.

(** C1 (amended): for width > 0 and depth > 0 with width*depth <= INT_MAX
    the mesh has width*depth vertices and 2*(width-1)*(depth-1)*3 indices,
    the index count is a multiple of 3, and every index is below the vertex
    count; every index is a value of [int], as the source computes it. *)
Theorem create_landscape_counts `{Platform} (width depth : Z) :
  0 < width -> 0 < depth -> width * depth <= Int.max_signed ->
  let mesh := create_landscape width depth in
  Z.of_nat (length (vertices mesh)) = width * depth /\
  Z.of_nat (length (indices mesh)) = 2 * (width - 1) * (depth - 1) * 3 /\
  (3 | Z.of_nat (length (indices mesh))) /\
  Forall (fun i => 0 <= i < Z.of_nat (length (vertices mesh))) (indices mesh) /\
  Forall (fun i => Int.in_range i = true) (indices mesh).
Proof.
  intros Hw Hd Hb mesh.
  assert (Hv : Z.of_nat (length (vertices mesh)) = width * depth).
  { subst mesh. simpl vertices.
    destruct (normal_pass_done width depth (vertex_pass width depth) Hw Hd
                (vertex_pass_length width depth)) as (Hl & _).
    rewrite Hl, vertex_pass_length. nia. }
  assert (Hi : Z.of_nat (length (indices mesh)) = 2 * (width - 1) * (depth - 1) * 3).
  { subst mesh. simpl indices. rewrite index_pass_length. nia. }
  split; [exact Hv|]. split; [exact Hi|]. split; [|split].
  - rewrite Hi. exists (2 * (width - 1) * (depth - 1)). ring.
  - apply Forall_forall. intros i Hin. rewrite Hv.
    subst mesh. simpl indices in Hin. now apply index_pass_bound.
  - apply Forall_forall. intros i Hin.
    subst mesh. simpl indices in Hin.
    apply (index_pass_bound width depth i Hw Hd) in Hin.
    unfold Int.in_range, Int.min_signed. apply andb_true_intro.
    split; apply Z.leb_le; lia.
Qed.

Lemma create_landscape_counts_witness :
  0 < 3 /\ 0 < 2 /\ 3 * 2 <= Int.max_signed /\
  let mesh := @create_landscape coarse_platform 3 2 in
  Z.of_nat (length (vertices mesh)) = 3 * 2 /\
  Z.of_nat (length (indices mesh)) = 2 * (3 - 1) * (2 - 1) * 3 /\
  (3 | Z.of_nat (length (indices mesh))) /\
  Forall (fun i => 0 <= i < Z.of_nat (length (vertices mesh))) (indices mesh) /\
  Forall (fun i => Int.in_range i = true) (indices mesh).
Proof.
  split; [lia | split; [lia | split; [unfold Int.max_signed; lia |]]].
  apply (@create_landscape_counts coarse_platform 3 2); unfold Int.max_signed; lia.
Defined.

(** ** The height query against the baked heights *)

Lemma recentre_exact (x : Z) :
  0 <= x < 50 ->
  F32.add (F32.sub (F32.of_int x) (F32.div (F32.of_int 50) F32.two))
          (F32.div (F32.of_int 50) F32.two) = F32.of_int x.
Proof.
  intros Hx. replace x with (Z.of_nat (Z.to_nat x)) by lia.
  assert (Hn : (Z.to_nat x < 50)%nat) by lia.
  revert Hn. generalize (Z.to_nat x) as n. intros n Hn.
  do 50 (destruct n as [|n]; [vm_compute; reflexivity|]). lia.
Qed.

Lemma create_landscape_position `{Platform} (width depth x z : Z) :
  0 <= x < width -> 0 <= z < depth ->
  position (vec_get (vertices (create_landscape width depth)) (z * width + x)) =
  position (grid_vertex width depth x z).
Proof.
  intros Hx Hz. unfold create_landscape. cbn [vertices].
  destruct (normal_pass_done width depth (vertex_pass width depth))
    as (_ & Hp & _); try lia.
  - apply vertex_pass_length.
  - rewrite Hp. now rewrite vertex_pass_nth.
Qed.

(** C3: on the 50 x 50 mesh, querying [get_terrain_height] at the world x
    and z of the vertex at index z*50+x gives exactly the y stored there. *)
Theorem get_terrain_height_matches_mesh `{Platform} (x z : Z) :
  0 <= x < 50 -> 0 <= z < 50 ->
  let v := vec_get (vertices (create_landscape 50 50)) (z * 50 + x) in
  get_terrain_height (f3x (position v)) (f3z (position v)) = f3y (position v).
Proof.
  intros Hx Hz v. subst v.
  rewrite create_landscape_position by assumption.
  unfold get_terrain_height, grid_vertex, grid_height, LANDSCAPE_WIDTH, LANDSCAPE_DEPTH.
  cbn [position f3x f3y f3z].
  now rewrite !recentre_exact by assumption.
Qed.

Lemma get_terrain_height_matches_mesh_witness :
  0 <= 7 < 50 /\ 0 <= 49 < 50 /\
  let v := vec_get (vertices (@create_landscape coarse_platform 50 50)) (49 * 50 + 7) in
  @get_terrain_height coarse_platform (f3x (position v)) (f3z (position v)) =
  f3y (position v).
Proof.
  split; [lia | split; [lia | apply (@get_terrain_height_matches_mesh coarse_platform 7 49); lia]].
Defined.

(** ** Comparison of floats *)

Lemma SFcompare_swap (x y : spec_float) :
  SFcompare y x = option_map CompOpp (SFcompare x y).
Proof.
  destruct x as [sx|sx| |sx mx ex], y as [sy|sy| |sy my ey]; simpl;
    try reflexivity;
    try (destruct sx; reflexivity); try (destruct sy; reflexivity);
    try (destruct sx, sy; reflexivity).
  pose proof (Pos.compare_cont_antisym mx my Eq) as Hc. simpl in Hc.
  destruct sx, sy; simpl; try reflexivity;
    rewrite (Z.compare_antisym ex ey); destruct (ex ?= ey); simpl; try reflexivity;
    rewrite <- Hc; destruct (Pos.compare_cont Eq mx my); reflexivity.
Qed.

(** [!(a < b)] leaves [b <= a] unless one of them is NaN. *)
Lemma SFltb_false_leb (a b : spec_float) :
  SFltb a b = false -> SFcompare a b = None \/ SFleb b a = true.
Proof.
  unfold SFltb, SFleb. rewrite (SFcompare_swap a b).
  destruct (SFcompare a b) as [[ | | ]|]; simpl; intros; auto; discriminate.
Qed.

Lemma SFcompare_None (a b : spec_float) :
  SFcompare a b = None -> a = S754_nan \/ b = S754_nan.
Proof.
  destruct a as [sa|sa| |sa ma ea], b as [sb|sb| |sb mb eb]; simpl; auto;
    discriminate.
Qed.

(** ** Pitch *)

Lemma PITCH_LIMIT_value : PITCH_LIMIT = S754_finite false 13176825 (-23).
Proof. reflexivity. Qed.

Lemma clamp_pitch_range (p : float) :
  F32.is_nan (clamp_pitch p) = true \/
  (F32.leb (F32.opp PITCH_LIMIT) (clamp_pitch p) = true /\
   F32.leb (clamp_pitch p) PITCH_LIMIT = true).
Proof.
  unfold clamp_pitch.
  destruct (F32.ltb PITCH_LIMIT p) eqn:Hhi.
  - right. split; reflexivity.
  - destruct (F32.ltb p (F32.opp PITCH_LIMIT)) eqn:Hlo.
    + right. split; reflexivity.
    + apply SFltb_false_leb in Hhi. apply SFltb_false_leb in Hlo.
      destruct Hhi as [Hn|Hhi].
      { apply SFcompare_None in Hn. destruct Hn as [Hn|Hn]; [discriminate|].
        left. now rewrite Hn. }
      destruct Hlo as [Hn|Hlo].
      { apply SFcompare_None in Hn. destruct Hn as [Hn|Hn]; [|discriminate].
        left. now rewrite Hn. }
      right. split; assumption.
Qed.

Lemma update_camera_pitch `{Platform} st cam dt keys mouseX mouseY :
  pitch (snd (update_camera st cam dt keys mouseX mouseY)) =
  clamp_pitch (F32.sub (pitch cam)
                 (F32.mul (snd (fst (pointer_delta st mouseX mouseY))) (lookSpeed cam))).
Proof.
  unfold update_camera. destruct (pointer_delta st mouseX mouseY) as [[dx dy] st'].
  reflexivity.
Qed.

Lemma update_camera_yaw `{Platform} st cam dt keys mouseX mouseY :
  yaw (snd (update_camera st cam dt keys mouseX mouseY)) =
  F32.add (yaw cam)
          (F32.mul (fst (fst (pointer_delta st mouseX mouseY))) (lookSpeed cam)).
Proof.
  unfold update_camera. destruct (pointer_delta st mouseX mouseY) as [[dx dy] st'].
  reflexivity.
Qed.

(** An upper bound of pi from the series of 2 atan(1/3) + atan(1/7). *)
Lemma PI_upper : (PI < 31415965 / 10000000)%R.
Proof.
  destruct (PI_2_3_7_ineq 2) as [_ Hup].
  unfold sum_f_R0, tg_alt, PI_2_3_7_tg, Ratan_seq in Hup. simpl in Hup.
  lra.
Qed.

Lemma PITCH_LIMIT_above_half_pi : (PI / 2 < SF2R PITCH_LIMIT)%R.
Proof.
  rewrite PITCH_LIMIT_value. unfold SF2R.
  pose proof PI_upper.
  replace (powerRZ 2 (-23)) with (/ 8388608)%R by (simpl; lra).
  lra.
Qed.

(** C4, as stated, fails: dragging the pointer far up takes the pitch of a
    fresh camera to 1.5708f, which is above pi/2. *)
Lemma update_camera_pitch_not_below_half_pi :
  let cam' := snd (@update_camera coarse_platform statics_after_origin
                     (@make_camera coarse_platform 800 600) F32.one
                     (fun _ => false) F64.zero (F64.of_int (-10000))) in
  pitch cam' = PITCH_LIMIT /\ ~ (- PI / 2 < SF2R (pitch cam') < PI / 2)%R.
Proof.
  assert (E : pitch (snd (@update_camera coarse_platform statics_after_origin
                     (@make_camera coarse_platform 800 600) F32.one
                     (fun _ => false) F64.zero (F64.of_int (-10000)))) = PITCH_LIMIT).
  { rewrite update_camera_pitch. vm_compute. reflexivity. }
  cbv zeta. rewrite E. split; [reflexivity|].
  pose proof PITCH_LIMIT_above_half_pi. lra.
Qed.

(** ** The pointer delta *)

Lemma same_number_refl a : same_number a a.
Proof. now left. Qed.

Lemma SFsub_diag prec emax (x : spec_float) :
  F64.is_finite x = true -> SFsub prec emax x x = S754_zero false.
Proof.
  destruct x as [s|s| |s m e]; simpl; try discriminate; intros _.
  - now destruct s.
  - rewrite Z.sub_diag. reflexivity.
Qed.

Lemma pointer_delta_first (st : Statics) (mouseX mouseY : double) :
  firstMouse st = true ->
  F64.is_finite mouseX = true -> F64.is_finite mouseY = true ->
  pointer_delta st mouseX mouseY =
  (F32.zero, F32.zero,
   {| lastMouseX := mouseX; lastMouseY := mouseY; firstMouse := false |}).
Proof.
  intros Hf Hx Hy. unfold pointer_delta. rewrite Hf.
  unfold F64.sub. now rewrite !SFsub_diag.
Qed.

Lemma mul_zero_finite (k : float) :
  F32.is_finite k = true -> exists s, F32.mul F32.zero k = S754_zero s.
Proof.
  destruct k as [s|s| |s m e]; simpl; try discriminate; intros _; eexists; reflexivity.
Qed.

Lemma add_zero_same (a : float) s : same_number (F32.add a (S754_zero s)) a.
Proof.
  destruct a as [sa|sa| |sa ma ea]; simpl; try (now left).
  destruct sa, s; simpl; try (now left); right; eauto.
Qed.

Lemma sub_zero_same (a : float) s : same_number (F32.sub a (S754_zero s)) a.
Proof.
  destruct a as [sa|sa| |sa ma ea]; simpl; try (now left).
  destruct sa, s; simpl; try (now left); right; eauto.
Qed.

Lemma SFleb_not_ltb (a b : spec_float) : SFleb a b = true -> SFltb b a = false.
Proof.
  unfold SFleb, SFltb. rewrite (SFcompare_swap a b).
  destruct (SFcompare a b) as [[ | | ]|]; simpl; intros; auto; discriminate.
Qed.

Lemma clamp_pitch_in_range (p : float) :
  F32.leb (F32.opp PITCH_LIMIT) p = true -> F32.leb p PITCH_LIMIT = true ->
  clamp_pitch p = p.
Proof.
  intros Hlo Hhi. unfold clamp_pitch, F32.ltb.
  rewrite (SFleb_not_ltb _ _ Hhi). now rewrite (SFleb_not_ltb _ _ Hlo).
Qed.

Lemma clamp_pitch_same (p q : float) :
  F32.leb (F32.opp PITCH_LIMIT) p = true -> F32.leb p PITCH_LIMIT = true ->
  same_number q p -> same_number (clamp_pitch q) p.
Proof.
  intros Hlo Hhi [-> | (s & t & -> & ->)].
  - left. now apply clamp_pitch_in_range.
  - right. exists s, t. split; [|reflexivity]. now destruct s.
Qed.

(** C5, as stated, fails: the pointer statics belong to the function, not to
    the camera, so the first update of a camera created after another one
    has been updated sees a non-zero delta and turns. *)
Lemma update_camera_second_camera_turns :
  let cam := @make_camera coarse_platform 800 600 in
  let cam' := snd (@update_camera coarse_platform statics_after_other_camera cam
                     F32.one (fun _ => false) (F64.of_int 100) (F64.of_int 40)) in
  yaw cam = F32.zero /\ pitch cam = F32.zero /\
  yaw cam' = F32.mul (F32.of_int 100) (F32.lit 5 1000) /\
  pitch cam' = F32.opp (F32.mul (F32.of_int 40) (F32.lit 5 1000)) /\
  ~ same_number (yaw cam') (yaw cam) /\ ~ same_number (pitch cam') (pitch cam).
Proof.
  cbv zeta. rewrite update_camera_yaw, update_camera_pitch.
  repeat split; try (vm_compute; reflexivity);
    vm_compute; intros [E | (s & t & E & _)]; discriminate.
Qed.

(** C5 (amended): on the first call of the program (the static [firstMouse]
    still set) with finite pointer coordinates, the delta is zero, the last
    pointer position becomes the current one, and a camera with a finite
    look speed and a pitch inside the clamp range keeps its yaw and pitch,
    whatever the coordinates are.  The statics are shared by all cameras. *)
Theorem update_camera_first_call `{Platform} st cam dt keys mouseX mouseY :
  firstMouse st = true ->
  F64.is_finite mouseX = true -> F64.is_finite mouseY = true ->
  F32.is_finite (lookSpeed cam) = true ->
  F32.leb (F32.opp PITCH_LIMIT) (pitch cam) = true ->
  F32.leb (pitch cam) PITCH_LIMIT = true ->
  let r := update_camera st cam dt keys mouseX mouseY in
  fst (fst (pointer_delta st mouseX mouseY)) = F32.zero /\
  snd (fst (pointer_delta st mouseX mouseY)) = F32.zero /\
  fst r = {| lastMouseX := mouseX; lastMouseY := mouseY; firstMouse := false |} /\
  same_number (yaw (snd r)) (yaw cam) /\
  same_number (pitch (snd r)) (pitch cam).
Proof.
  intros Hf Hx Hy Hk Hlo Hhi r. subst r.
  rewrite update_camera_yaw, update_camera_pitch.
  unfold update_camera.
  rewrite (pointer_delta_first st mouseX mouseY Hf Hx Hy). cbn [fst snd].
  destruct (mul_zero_finite _ Hk) as (s & ->).
  repeat split.
  - apply add_zero_same.
  - apply clamp_pitch_same; auto. apply sub_zero_same.
Qed.

Lemma update_camera_first_call_witness :
  let st := initial_statics in
  let cam := @make_camera coarse_platform 800 600 in
  let mouseX := F64.of_int 640 in
  let mouseY := F64.of_int (-480) in
  let r := @update_camera coarse_platform st cam F32.one (fun _ => false) mouseX mouseY in
  fst (fst (pointer_delta st mouseX mouseY)) = F32.zero /\
  snd (fst (pointer_delta st mouseX mouseY)) = F32.zero /\
  fst r = {| lastMouseX := mouseX; lastMouseY := mouseY; firstMouse := false |} /\
  same_number (yaw (snd r)) (yaw cam) /\
  same_number (pitch (snd r)) (pitch cam).
Proof.
  apply (@update_camera_first_call coarse_platform); reflexivity.
Defined.

(** ** Position *)

Lemma update_camera_position `{Platform} st cam dt keys mouseX mouseY :
  cam_position (snd (update_camera st cam dt keys mouseX mouseY)) =
  let forward := forward_of (yaw (snd (update_camera st cam dt keys mouseX mouseY)))
                            (pitch (snd (update_camera st cam dt keys mouseX mouseY))) in
  simd.clamp (advance (cam_position cam) (move_dir keys forward (right_of forward))
                      (moveSpeed cam) dt)
             minBounds maxBounds.
Proof.
  unfold update_camera. destruct (pointer_delta st mouseX mouseY) as [[dx dy] st'].
  reflexivity.
Qed.

Lemma SFleb_refl (a : spec_float) : a <> S754_nan -> SFleb a a = true.
Proof.
  unfold SFleb. destruct a as [s|s| |s m e]; simpl; intros Hn; try congruence.
  - now destruct s.
  - destruct s; rewrite Z.compare_refl; rewrite Pos.compare_cont_refl; reflexivity.
Qed.

Lemma fmax_lower (a lo : float) :
  lo <> S754_nan ->
  simd.fmax a lo <> S754_nan /\ F32.leb lo (simd.fmax a lo) = true.
Proof.
  intros Hlo. unfold simd.fmax.
  destruct (F32.is_nan a) eqn:Ha; [split; [assumption | now apply SFleb_refl]|].
  assert (Hna : a <> S754_nan) by (intros ->; discriminate).
  destruct (F32.is_nan lo) eqn:Hl; [destruct lo; try discriminate; congruence|].
  destruct (F32.ltb a lo) eqn:Hlt; [split; [assumption | now apply SFleb_refl]|].
  split; [assumption|].
  apply SFltb_false_leb in Hlt. destruct Hlt as [Hn|Hle]; [|exact Hle].
  apply SFcompare_None in Hn. tauto.
Qed.

Lemma fmin_between (b lo hi : float) :
  b <> S754_nan -> hi <> S754_nan ->
  F32.leb lo b = true -> F32.leb lo hi = true ->
  F32.leb lo (simd.fmin b hi) = true /\ F32.leb (simd.fmin b hi) hi = true.
Proof.
  intros Hb Hhi Hlob Hlohi. unfold simd.fmin.
  destruct (F32.is_nan b) eqn:Hnb; [destruct b; try discriminate; congruence|].
  destruct (F32.is_nan hi) eqn:Hnh; [destruct hi; try discriminate; congruence|].
  destruct (F32.ltb hi b) eqn:Hlt; [split; [assumption | now apply SFleb_refl]|].
  split; [assumption|].
  apply SFltb_false_leb in Hlt. destruct Hlt as [Hn|Hle]; [|exact Hle].
  apply SFcompare_None in Hn. tauto.
Qed.

Lemma clamp_lane (a lo hi : float) :
  lo <> S754_nan -> hi <> S754_nan -> F32.leb lo hi = true ->
  F32.leb lo (simd.fmin (simd.fmax a lo) hi) = true /\
  F32.leb (simd.fmin (simd.fmax a lo) hi) hi = true.
Proof.
  intros Hlo Hhi Hle. destruct (fmax_lower a lo Hlo) as [Hn Hl].
  now apply fmin_between.
Qed.

(** A lane already between the bounds is returned as it is. *)
Lemma clamp_lane_inside (a lo hi : float) :
  F32.leb lo a = true -> F32.leb a hi = true ->
  simd.fmin (simd.fmax a lo) hi = a.
Proof.
  intros Hlo Hhi.
  assert (Hna : F32.is_nan a = false) by (destruct a; auto; discriminate).
  assert (Hnl : F32.is_nan lo = false) by (destruct lo; auto; discriminate).
  assert (Hnh : F32.is_nan hi = false)
    by (destruct hi; auto; destruct a; discriminate).
  unfold simd.fmax. rewrite Hna, Hnl. unfold F32.ltb.
  rewrite (SFleb_not_ltb _ _ Hlo).
  unfold simd.fmin. rewrite Hna, Hnh. unfold F32.ltb.
  now rewrite (SFleb_not_ltb _ _ Hhi).
Qed.

Lemma clamp_in_bounds (p : float3) : in_bounds (simd.clamp p minBounds maxBounds).
Proof.
  unfold in_bounds, simd.clamp, simd.map2; cbn [f3x f3y f3z].
  repeat split; apply clamp_lane; try discriminate; reflexivity.
Qed.

Lemma clamp_inside (p : float3) :
  in_bounds p -> simd.clamp p minBounds maxBounds = p.
Proof.
  intros ((Hx1 & Hx2) & (Hy1 & Hy2) & (Hz1 & Hz2)).
  unfold simd.clamp, simd.map2. destruct p as [px py pz]; cbn [f3x f3y f3z] in *.
  now rewrite !clamp_lane_inside.
Qed.

Lemma forward_of_level `{Platform} :
  forward_of F32.zero F32.zero = mk_float3 F32.zero F32.zero (F32.opp F32.one).
Proof.
  unfold forward_of, F32.zero. rewrite !sinf_zero, !cosf_zero.
  vm_compute. reflexivity.
Qed.

(** C6: after every call the position is inside the box
    [-20,20] x [0,20] x [-20,20]; a camera at (19.9, 0, 0) with yaw = pitch
    = 0 that strafes right for 10 seconds ends with x exactly 20. *)
Theorem update_camera_position_bounded `{Platform} :
  (forall st cam dt keys mouseX mouseY,
     in_bounds (cam_position (snd (update_camera st cam dt keys mouseX mouseY)))) /\
  (forall st cam mouseX mouseY,
     cam_position cam = mk_float3 (F32.lit 199 10) F32.zero F32.zero ->
     yaw cam = F32.zero -> pitch cam = F32.zero ->
     moveSpeed cam = F32.of_int 8 -> lookSpeed cam = F32.lit 5 1000 ->
     fst (pointer_delta st mouseX mouseY) = (F32.zero, F32.zero) ->
     let cam' := snd (update_camera st cam (F32.of_int 10) only_D mouseX mouseY) in
     yaw cam' = F32.zero /\ pitch cam' = F32.zero /\
     f3x (cam_position cam') = F32.of_int 20).
Proof.
  split.
  - intros. rewrite update_camera_position. apply clamp_in_bounds.
  - intros st cam mouseX mouseY Hpos Hyaw Hpitch Hspeed Hlook Hdelta cam'.
    assert (Ey : yaw cam' = F32.zero).
    { subst cam'. rewrite update_camera_yaw, Hdelta, Hyaw, Hlook. reflexivity. }
    assert (Ep : pitch cam' = F32.zero).
    { subst cam'. rewrite update_camera_pitch, Hdelta, Hpitch, Hlook. reflexivity. }
    repeat split; try assumption.
    subst cam'. rewrite update_camera_position. cbv zeta.
    rewrite Ey, Ep, forward_of_level, Hpos, Hspeed.
    vm_compute. reflexivity.
Qed.

Lemma update_camera_position_bounded_witness :
  let cam' := snd (@update_camera coarse_platform initial_statics camera_at_edge
                     (F32.of_int 10) only_D F64.zero F64.zero) in
  in_bounds (cam_position cam') /\
  yaw cam' = F32.zero /\ pitch cam' = F32.zero /\
  f3x (cam_position cam') = F32.of_int 20.
Proof.
  destruct (@update_camera_position_bounded coarse_platform) as [Hbox Hedge].
  split; [apply Hbox | apply Hedge; reflexivity].
Defined.

(** ** Cancelling keys *)

Lemma add_then_sub_cancels (a : float) :
  null_or_nan (F32.sub (F32.add F32.zero a) a).
Proof.
  destruct a as [s|s| |s m e]; simpl.
  - left. now destruct s.
  - right. now destruct s.
  - now right.
  - left. unfold F32.sub, F32.add, F32.zero, SFadd, SFsub.
    rewrite Z.sub_diag. reflexivity.
Qed.

Lemma SFadd_opp_diag prec emax s m e :
  SFadd prec emax (S754_finite (negb s) m e) (S754_finite s m e) = S754_zero false.
Proof.
  unfold SFadd.
  replace (cond_Zopp (negb s) (Zpos (fst (shl_align m e (Z.min e e)))) +
           cond_Zopp s (Zpos (fst (shl_align m e (Z.min e e))))) with 0
    by (destruct s; simpl cond_Zopp; lia).
  reflexivity.
Qed.

Lemma sub_then_add_cancels (t r : float) :
  null_or_nan t -> null_or_nan (F32.add (F32.sub t r) r).
Proof.
  intros [-> | ->]; [|now right].
  destruct r as [s|s| |s m e]; simpl.
  - left. now destruct s.
  - right. now destruct s.
  - now right.
  - left. apply SFadd_opp_diag.
Qed.

Lemma up_down_cancels (t : float) :
  null_or_nan t -> null_or_nan (F32.sub (F32.add t F32.one) F32.one).
Proof. intros [-> | ->]; [now left | now right]. Qed.

Lemma move_dir_balanced (keys : ascii -> bool) (forward right : float3) :
  balanced keys ->
  let d := move_dir keys forward right in
  null_or_nan (f3x d) /\ null_or_nan (f3y d) /\ null_or_nan (f3z d).
Proof.
  intros (Hws & Had & Hud). unfold move_dir.
  rewrite Hws, Had, Hud.
  destruct forward as [fx fy fz], right as [rx ry rz].
  destruct (keys "S"%char), (keys "D"%char), (keys "C"%char || keys "X"%char);
    cbv [simd.add simd.sub simd.map2 add_y sub_y f3x f3y f3z];
    repeat split;
    repeat first [ now left
                 | apply up_down_cancels
                 | apply sub_then_add_cancels
                 | apply add_then_sub_cancels ].
Qed.

Lemma null_direction_below_epsilon (d : float3) :
  null_or_nan (f3x d) -> null_or_nan (f3y d) -> null_or_nan (f3z d) ->
  F32.ltb MOVE_EPSILON (simd.length d) = false.
Proof.
  destruct d as [dx dy dz]; cbn [f3x f3y f3z].
  intros [-> | ->] [-> | ->] [-> | ->]; reflexivity.
Qed.

(** C10: the direction is normalized only when its length exceeds 0.01;
    with no movement key held, or with opposing keys held together, a
    camera inside the box keeps exactly its position. *)
Theorem update_camera_balanced_keys_keep_position `{Platform} :
  (forall pos moveDir speed dt,
     F32.ltb MOVE_EPSILON (simd.length moveDir) = false ->
     advance pos moveDir speed dt = pos) /\
  (forall pos moveDir speed dt,
     advance pos moveDir speed dt <> pos ->
     F32.ltb MOVE_EPSILON (simd.length moveDir) = true) /\
  (forall st cam dt keys mouseX mouseY,
     balanced keys -> in_bounds (cam_position cam) ->
     cam_position (snd (update_camera st cam dt keys mouseX mouseY)) = cam_position cam).
Proof.
  repeat split.
  - intros pos moveDir speed dt Hlen. unfold advance. now rewrite Hlen.
  - intros pos moveDir speed dt Hmoved. unfold advance in Hmoved.
    destruct (F32.ltb MOVE_EPSILON (simd.length moveDir)); congruence.
  - intros st cam dt keys mouseX mouseY Hkeys Hbox.
    rewrite update_camera_position. cbv zeta.
    match goal with |- context [move_dir keys ?f ?r] =>
      destruct (move_dir_balanced keys f r Hkeys) as (Hx & Hy & Hz) end.
    unfold advance. rewrite null_direction_below_epsilon by assumption.
    now apply clamp_inside.
Qed.

Lemma update_camera_balanced_keys_keep_position_witness :
  let cam := @make_camera coarse_platform 800 600 in
  balanced forward_and_back /\ in_bounds (cam_position cam) /\
  cam_position (snd (@update_camera coarse_platform initial_statics cam (F32.of_int 10)
                       forward_and_back F64.zero F64.zero)) = cam_position cam.
Proof.
  assert (Hk : balanced forward_and_back) by (repeat split).
  assert (Hb : in_bounds (cam_position (@make_camera coarse_platform 800 600)))
    by (repeat split).
  split; [exact Hk | split; [exact Hb|]].
  destruct (@update_camera_balanced_keys_keep_position coarse_platform) as (_ & _ & Hkeep).
  apply Hkeep; assumption.
Defined.

(** ** Heights at overflowing coordinates *)

Section Overflow.
Context `{Platform}.

Lemma cosine_interpolate_nan_blend (a b blend : float) :
  F32.is_finite blend = false -> cosine_interpolate a b blend = S754_nan.
Proof.
  intros Hb. unfold cosine_interpolate.
  assert (Hc : cosf (F32.mul blend (F32.lit 31415927 10000000)) = S754_nan).
  { destruct blend as [s|[|]| |s m e]; try discriminate.
    - change (F32.mul (S754_infinity true) (F32.lit 31415927 10000000))
        with (S754_infinity true). apply cosf_infinity.
    - change (F32.mul (S754_infinity false) (F32.lit 31415927 10000000))
        with (S754_infinity false). apply cosf_infinity.
    - apply cosf_nan. }
  rewrite Hc. change (F32.mul (F32.sub F32.one S754_nan) (F32.lit 5 10)) with S754_nan.
  destruct a, b; reflexivity.
Qed.

Lemma cosine_interpolate_nan_left (b blend : float) :
  cosine_interpolate S754_nan b blend = S754_nan.
Proof. reflexivity. Qed.

Lemma sub_infinity_not_finite s (y : float) :
  F32.is_finite (F32.sub (S754_infinity s) y) = false.
Proof. destruct y as [t|t| |t m e]; try reflexivity. now destruct s, t. Qed.

Lemma smoothed_noise_infinity s (z : float) :
  smoothed_noise (S754_infinity s) z = S754_nan.
Proof.
  unfold smoothed_noise. cbn [floorf].
  rewrite (cosine_interpolate_nan_blend _ _ (F32.sub (S754_infinity s) _))
    by apply sub_infinity_not_finite.
  apply cosine_interpolate_nan_left.
Qed.

Lemma add_nan_right (t : float) : F32.add t S754_nan = S754_nan.
Proof. now destruct t. Qed.

Lemma get_terrain_height_FLT_MAX : get_terrain_height FLT_MAX F32.zero = S754_nan.
Proof.
  unfold get_terrain_height, fractal_noise, for_lt.
  change (Z.to_nat octaves) with 5%nat.
  cbn [for_range octave_step total frequency amplitude].
  match goal with
  | |- F32.mul (F32.add ?t (F32.mul (smoothed_noise ?u ?v) ?a)) _ = _ =>
      replace u with (S754_infinity false) by (vm_compute; reflexivity)
  end.
  rewrite smoothed_noise_infinity.
  match goal with
  | |- F32.mul (F32.add ?t (F32.mul S754_nan ?a)) _ = _ =>
      change (F32.mul S754_nan a) with S754_nan
  end.
  now rewrite add_nan_right.
Qed.
End Overflow.

(** C2, as stated, fails: [FLT_MAX] is finite, yet the last octave scales
    the coordinate to infinity and the height comes out as NaN, which no
    comparison places inside [-25, 25]. *)
Lemma get_terrain_height_not_bounded :
  F32.is_finite FLT_MAX = true /\ F32.is_finite F32.zero = true /\
  (forall P : Platform, @get_terrain_height P FLT_MAX F32.zero = S754_nan) /\
  in_height_range (@get_terrain_height coarse_platform FLT_MAX F32.zero) = false.
Proof.
  split; [reflexivity | split; [reflexivity | split]].
  - intros P. apply get_terrain_height_FLT_MAX.
  - now rewrite get_terrain_height_FLT_MAX.
Qed.

(** ** Powers of two *)

Lemma bpow_gt_0 e : (0 < bpow e)%R.
Proof. apply powerRZ_lt. lra. Qed.

Lemma bpow_plus a b : bpow (a + b) = (bpow a * bpow b)%R.
Proof. apply powerRZ_add. lra. Qed.

Lemma bpow_0 : bpow 0 = 1%R.
Proof. reflexivity. Qed.

Lemma bpow_1 : bpow 1 = 2%R.
Proof. unfold bpow; simpl; lra. Qed.

Lemma bpow_succ e : bpow (e + 1) = (2 * bpow e)%R.
Proof. rewrite bpow_plus, bpow_1. lra. Qed.

Lemma bpow_IZR k : 0 <= k -> bpow k = IZR (2 ^ k).
Proof.
  intros Hk. destruct k as [|p|p]; [reflexivity | | lia].
  unfold bpow. simpl powerRZ.
  rewrite <- (positive_nat_Z p). now rewrite <- pow_IZR.
Qed.

Lemma bpow_le a b : a <= b -> (bpow a <= bpow b)%R.
Proof.
  intros Hab. replace b with (a + (b - a)) by lia.
  rewrite bpow_plus. rewrite (bpow_IZR (b - a)) by lia.
  assert (1 <= 2 ^ (b - a)) by (pose proof (Z.pow_pos_nonneg 2 (b - a)); lia).
  apply IZR_le in H. pose proof (bpow_gt_0 a). nra.
Qed.

Lemma bpow_lt a b : a < b -> (bpow a < bpow b)%R.
Proof.
  intros Hab. assert (H := bpow_le (a + 1) b ltac:(lia)).
  rewrite bpow_succ in H. pose proof (bpow_gt_0 a). lra.
Qed.

Lemma bpow_opp e : bpow (- e) = (/ bpow e)%R.
Proof.
  pose proof (bpow_gt_0 e). pose proof (bpow_plus e (- e)) as Hp.
  rewrite Z.add_opp_diag_r, bpow_0 in Hp.
  apply Rmult_eq_reg_l with (bpow e); [|lra]. rewrite Rinv_r by lra. lra.
Qed.

(** ** Binary digits *)

Lemma digits2_pos_bounds (m : positive) :
  2 ^ (Zpos (digits2_pos m) - 1) <= Zpos m < 2 ^ Zpos (digits2_pos m).
Proof.
  induction m as [m IH|m IH|]; cbn [digits2_pos].
  - rewrite Pos2Z.inj_succ.
    replace (Z.succ (Zpos (digits2_pos m)) - 1) with (Z.succ (Zpos (digits2_pos m) - 1)) by lia.
    rewrite !Z.pow_succ_r by lia. lia.
  - rewrite Pos2Z.inj_succ.
    replace (Z.succ (Zpos (digits2_pos m)) - 1) with (Z.succ (Zpos (digits2_pos m) - 1)) by lia.
    rewrite !Z.pow_succ_r by lia. lia.
  - simpl. lia.
Qed.

Lemma Zdigits2_bounds (m : Z) :
  0 < m -> 2 ^ (Zdigits2 m - 1) <= m < 2 ^ Zdigits2 m.
Proof.
  destruct m as [|p|p]; try lia. intros _. apply digits2_pos_bounds.
Qed.

Lemma Zdigits2_nonneg (m : Z) : 0 <= Zdigits2 m.
Proof. destruct m; simpl; lia. Qed.

Lemma Zdigits2_pos (m : Z) : 0 < m -> 0 < Zdigits2 m.
Proof. destruct m; simpl; lia. Qed.

Lemma Zpow_lt_mono_inv (a b : Z) : 0 <= b -> 2 ^ a < 2 ^ b -> a < b.
Proof.
  intros Hb H. destruct (Z_lt_le_dec a b) as [|Hle]; [assumption|].
  apply (Z.pow_le_mono_r 2) in Hle; lia.
Qed.

(** The number of digits is the only [d] with 2^(d-1) <= m < 2^d. *)
Lemma Zdigits2_unique (m d : Z) :
  0 < d -> 2 ^ (d - 1) <= m < 2 ^ d -> Zdigits2 m = d.
Proof.
  intros Hd [Hlo Hhi].
  assert (Hm : 0 < m) by (pose proof (Z.pow_pos_nonneg 2 (d - 1)); lia).
  destruct (Zdigits2_bounds m Hm) as [Hlo' Hhi'].
  pose proof (Zdigits2_pos m Hm).
  assert (Zdigits2 m - 1 < d) by (apply Zpow_lt_mono_inv; lia).
  assert (d - 1 < Zdigits2 m) by (apply Zpow_lt_mono_inv; lia).
  lia.
Qed.

Lemma Zdigits2_le (m d : Z) : 0 <= d -> 2 ^ d <= m -> d < Zdigits2 m.
Proof.
  intros Hd Hlo.
  assert (Hm : 0 < m) by (pose proof (Z.pow_pos_nonneg 2 d); lia).
  destruct (Zdigits2_bounds m Hm) as [_ Hhi].
  apply Zpow_lt_mono_inv; [apply Zdigits2_nonneg | lia].
Qed.

Lemma Zdigits2_lt (m d : Z) : 0 <= d -> 0 <= m < 2 ^ d -> Zdigits2 m <= d.
Proof.
  intros Hd [Hm Hhi]. destruct (Z.eq_dec m 0) as [->|Hne]; [simpl; lia|].
  destruct (Zdigits2_bounds m ltac:(lia)) as [Hlo _].
  pose proof (Zdigits2_pos m ltac:(lia)).
  assert (Zdigits2 m - 1 < d) by (apply Zpow_lt_mono_inv; lia). lia.
Qed.

(** ** Shifting a mantissa right with round and sticky bits *)

Lemma inbetween_bounds m e x l :
  inbetween m e x l -> (IZR m * bpow e <= x < (IZR m + 1) * bpow e)%R.
Proof.
  pose proof (bpow_gt_0 e).
  destruct l as [|[| |]]; simpl; intros Hin; try rewrite Hin; lra.
Qed.

Lemma shr_1_nonneg (m : Z) (r s : bool) :
  0 <= m ->
  shr_1 {| shr_m := m; shr_r := r; shr_s := s |} =
  {| shr_m := Z.div2 m; shr_r := Z.odd m; shr_s := r || s |}.
Proof.
  intros Hm. destruct m as [|[p|p|]|p]; try lia; reflexivity.
Qed.

Lemma loc_of_shr_record_of_loc m l :
  loc_of_shr_record (shr_record_of_loc m l) = l /\ shr_m (shr_record_of_loc m l) = m.
Proof. destruct l as [|[| |]]; split; reflexivity. Qed.

Lemma shr_1_inbetween (mrs : shr_record) (e : Z) (x : R) :
  0 <= shr_m mrs ->
  inbetween (shr_m mrs) e x (loc_of_shr_record mrs) ->
  0 <= shr_m (shr_1 mrs) /\
  shr_m (shr_1 mrs) = shr_m mrs / 2 /\
  inbetween (shr_m (shr_1 mrs)) (e + 1) x (loc_of_shr_record (shr_1 mrs)).
Proof.
  destruct mrs as [m r s]. cbn [shr_m]. intros Hm Hin.
  rewrite shr_1_nonneg by assumption. cbn [shr_m].
  rewrite Z.div2_div.
  split; [apply Z.div_pos; lia|]. split; [reflexivity|].
  pose proof (bpow_gt_0 e) as Hp.
  pose proof (Z.div2_odd m) as Hdm. rewrite Z.div2_div in Hdm.
  pose proof (bpow_succ e) as Hs.
  destruct (Z.odd m); cbn [Z.b2z] in Hdm.
  - (* odd mantissa: the upper half *)
    assert (Em : IZR m = (2 * IZR (m / 2) + 1)%R)
      by (rewrite <- mult_IZR, <- plus_IZR; now rewrite <- Hdm).
    destruct r, s; cbn [loc_of_shr_record orb inbetween] in *; rewrite Hs;
      rewrite Em in Hin; lra.
  - (* even mantissa: the lower half *)
    assert (Em : IZR m = (2 * IZR (m / 2))%R)
      by (rewrite <- mult_IZR; f_equal; lia).
    destruct r, s; cbn [loc_of_shr_record orb inbetween] in *; rewrite Hs;
      rewrite Em in Hin; lra.
Qed.

Lemma iter_pos_nat {A : Type} (f : A -> A) (p : positive) (a : A) :
  iter_pos f p a = Nat.iter (Pos.to_nat p) f a.
Proof.
  revert a; induction p as [p IH|p IH|]; intros a; cbn [iter_pos].
  - rewrite !IH, Pos2Nat.inj_xI.
    replace (S (2 * Pos.to_nat p)) with (Pos.to_nat p + (Pos.to_nat p + 1))%nat by lia.
    rewrite !Nat.iter_add. reflexivity.
  - rewrite !IH, Pos2Nat.inj_xO.
    replace (2 * Pos.to_nat p)%nat with (Pos.to_nat p + Pos.to_nat p)%nat by lia.
    now rewrite Nat.iter_add.
  - reflexivity.
Qed.

Lemma shr_iter_inbetween (n : nat) (mrs : shr_record) (e : Z) (x : R) :
  0 <= shr_m mrs ->
  inbetween (shr_m mrs) e x (loc_of_shr_record mrs) ->
  let mrs' := Nat.iter n shr_1 mrs in
  0 <= shr_m mrs' /\
  shr_m mrs' = shr_m mrs / 2 ^ Z.of_nat n /\
  inbetween (shr_m mrs') (e + Z.of_nat n) x (loc_of_shr_record mrs').
Proof.
  intros Hm Hin. cbv zeta. induction n as [|n IH].
  - change (Nat.iter 0 shr_1 mrs) with mrs.
    rewrite Z.add_0_r. simpl Z.of_nat. rewrite Z.pow_0_r, Z.div_1_r. auto.
  - change (Nat.iter (S n) shr_1 mrs) with (shr_1 (Nat.iter n shr_1 mrs)).
    destruct IH as (H0 & Hdiv & Hin').
    destruct (shr_1_inbetween _ _ _ H0 Hin') as (H0' & Hdiv' & Hin'').
    split; [assumption|]. split.
    + rewrite Hdiv', Hdiv. rewrite Nat2Z.inj_succ, Z.pow_succ_r by lia.
      rewrite Z.div_div by (try apply Z.pow_pos_nonneg; lia). f_equal. lia.
    + now replace (e + Z.of_nat (S n)) with (e + Z.of_nat n + 1) by lia.
Qed.

(** [shr] towards the exponent [e + n]. *)
Lemma shr_inbetween (m e n : Z) (x : R) (l : location) :
  0 <= m -> inbetween m e x l ->
  let '(mrs', e') := shr (shr_record_of_loc m l) e n in
  0 <= shr_m mrs' /\
  e' = e + Z.max 0 n /\
  shr_m mrs' = m / 2 ^ Z.max 0 n /\
  inbetween (shr_m mrs') e' x (loc_of_shr_record mrs').
Proof.
  intros Hm Hin.
  destruct (loc_of_shr_record_of_loc m l) as [El Em].
  destruct n as [|p|p]; cbn [shr].
  - rewrite El, Em, Z.add_0_r. simpl. rewrite Z.div_1_r. auto.
  - rewrite iter_pos_nat.
    destruct (shr_iter_inbetween (Pos.to_nat p) (shr_record_of_loc m l) e x)
      as (H0 & Hdiv & Hin'); rewrite ?El, ?Em; auto.
    rewrite positive_nat_Z, Em in *.
    replace (Z.max 0 (Zpos p)) with (Zpos p) by lia. auto.
  - rewrite El, Em. replace (Z.max 0 (Zneg p)) with 0 by lia.
    rewrite Z.add_0_r. simpl. rewrite Z.div_1_r. auto.
Qed.

(** ** Rounding to nearest, ties to even *)

Lemma round_nearest_even_spec (m e : Z) (x : R) (l : location) :
  inbetween m e x l ->
  let m' := round_nearest_even m l in
  (m' = m \/ m' = m + 1) /\
  (Rabs (x - IZR m' * bpow e) <= bpow e / 2)%R /\
  (x = (IZR m * bpow e)%R -> m' = m).
Proof.
  intros Hin. pose proof (bpow_gt_0 e) as Hp. cbv zeta.
  destruct l as [|[| |]]; cbn [round_nearest_even inbetween] in *.
  - split; [now left|]. split; [|reflexivity].
    rewrite Hin. replace (_ - _)%R with 0%R by ring. rewrite Rabs_R0. lra.
  - split; [|split].
    + destruct (Z.even m); auto.
    + destruct (Z.even m); rewrite ?plus_IZR;
        apply Rabs_le; rewrite Hin; lra.
    + intros E. rewrite E in Hin. lra.
  - split; [now left|]. split; [apply Rabs_le; lra|reflexivity].
  - split; [now right|]. split; [rewrite plus_IZR; apply Rabs_le; lra|].
    intros E. lra.
Qed.

(** ** The rounding step of every binary32 operation *)

Lemma fexp32 e : fexp F32.prec F32.emax e = Z.max (e - 24) (-149).
Proof. reflexivity. Qed.

Lemma valid_finite_inv s m e :
  F32.valid (S754_finite s m e) = true ->
  Z.max (Zpos (digits2_pos m) + e - 24) (-149) = e /\ e <= 104.
Proof.
  unfold F32.valid, valid_binary, bounded, canonical_mantissa.
  rewrite fexp32. intros H. apply andb_true_iff in H. destruct H as [H1 H2].
  apply Z.eqb_eq in H1. apply Z.leb_le in H2. split; [exact H1|]. exact H2.
Qed.

Lemma valid_finite_intro s m e :
  Z.max (Zpos (digits2_pos m) + e - 24) (-149) = e -> e <= 104 ->
  F32.valid (S754_finite s m e) = true.
Proof.
  intros H1 H2. unfold F32.valid, valid_binary, bounded, canonical_mantissa.
  rewrite fexp32. apply andb_true_iff. split; [now apply Z.eqb_eq | now apply Z.leb_le].
Qed.

Lemma IZR_bpow_shift (m k e : Z) :
  0 <= k -> (IZR (m * 2 ^ k) * bpow e = IZR m * bpow (e + k))%R.
Proof.
  intros Hk. rewrite mult_IZR, <- bpow_IZR by assumption.
  rewrite bpow_plus. ring.
Qed.

Lemma binary_round_aux_spec (sx : bool) (mx ex : Z) (lx : location) (x : R) :
  0 <= mx -> inbetween mx ex x lx ->
  ex <= fexp F32.prec F32.emax (Zdigits2 mx + ex) ->
  let e1 := fexp F32.prec F32.emax (Zdigits2 mx + ex) in
  let m1 := mx / 2 ^ (e1 - ex) in
  exists m2 : Z,
    (m2 = m1 \/ m2 = m1 + 1) /\
    0 <= m1 < 2 ^ 24 /\
    (-149 < e1 -> 2 ^ 23 <= m1) /\
    -149 <= e1 /\
    (IZR m1 * bpow e1 <= x < (IZR m1 + 1) * bpow e1)%R /\
    (Rabs (x - IZR m2 * bpow e1) <= bpow e1 / 2)%R /\
    (x = (IZR m1 * bpow e1)%R -> m2 = m1) /\
    rounded_to sx m2 e1 (binary_round_aux F32.prec F32.emax sx mx ex lx).
Proof.
  intros Hmx Hin Hpre e1 m1.
  assert (He1 : e1 = Z.max (Zdigits2 mx + ex - 24) (-149)) by apply fexp32.
  fold e1 in Hpre.
  (* size of the truncated mantissa *)
  assert (Hm1 : 0 <= m1 < 2 ^ 24).
  { subst m1. split; [apply Z.div_pos; [lia | apply Z.pow_pos_nonneg; lia]|].
    apply Z.div_lt_upper_bound; [apply Z.pow_pos_nonneg; lia|].
    rewrite <- Z.pow_add_r by lia.
    destruct (Z.eq_dec mx 0) as [->|Hne]; [apply Z.pow_pos_nonneg; lia|].
    destruct (Zdigits2_bounds mx ltac:(lia)) as [_ Hhi].
    eapply Z.lt_le_trans; [exact Hhi|]. apply Z.pow_le_mono_r; lia. }
  assert (Hnorm : -149 < e1 -> 2 ^ 23 <= m1).
  { intros Hn. subst m1.
    assert (Hpos : 0 < mx).
    { destruct (Z.eq_dec mx 0) as [E|E]; [|lia]. subst mx. simpl Zdigits2 in *. lia. }
    destruct (Zdigits2_bounds mx Hpos) as [Hlo _].
    apply Z.div_le_lower_bound; [apply Z.pow_pos_nonneg; lia|].
    rewrite <- Z.pow_add_r by lia.
    replace (e1 - ex + 23) with (Zdigits2 mx - 1) by lia. exact Hlo. }
  unfold binary_round_aux, shr_fexp. fold e1.
  pose proof (shr_inbetween mx ex (e1 - ex) x lx Hmx Hin) as H1.
  destruct (shr (shr_record_of_loc mx lx) ex (e1 - ex)) as [mrs' e'].
  destruct H1 as (Hn1 & He' & Hm1eq & Hin1).
  replace (Z.max 0 (e1 - ex)) with (e1 - ex) in * by lia.
  replace (ex + (e1 - ex)) with e1 in He' by lia. subst e'.
  fold m1 in Hm1eq. rewrite Hm1eq in *.
  destruct (round_nearest_even_spec m1 e1 x _ Hin1) as (Hm2 & Herr & Hex).
  set (m2 := round_nearest_even m1 (loc_of_shr_record mrs')) in *.
  exists m2.
  split; [exact Hm2|]. split; [exact Hm1|]. split; [exact Hnorm|].
  split; [lia|]. split; [now apply inbetween_bounds in Hin1|].
  split; [exact Herr|]. split; [exact Hex|].
  (* the second alignment only absorbs a carry out of the mantissa *)
  assert (Hm2r : 0 <= m2 <= 2 ^ 24) by lia.
  pose proof (shr_inbetween m2 e1 (fexp F32.prec F32.emax (Zdigits2 m2 + e1) - e1)
                (IZR m2 * bpow e1) loc_Exact ltac:(lia) eq_refl) as H2.
  rewrite fexp32 in *.
  destruct (shr (shr_record_of_loc m2 loc_Exact) e1
              (Z.max (Zdigits2 m2 + e1 - 24) (-149) - e1)) as [mrs'' e''].
  destruct H2 as (Hn2 & He'' & Hm3 & Hin2).
  destruct (Z.eq_dec m2 0) as [E0|E0].
  { rewrite E0 in Hm3. rewrite Z.div_0_l in Hm3
      by (apply Z.pow_nonzero; lia). rewrite Hm3. simpl. auto. }
  destruct (Z.eq_dec m2 (2 ^ 24)) as [Ec|Ec].
  - (* carry: 2^24 becomes 2^23 one exponent up *)
    assert (Hd : Zdigits2 m2 = 25) by (apply Zdigits2_unique; [lia | rewrite Ec; simpl; lia]).
    rewrite Hd in *.
    replace (Z.max 0 (Z.max (25 + e1 - 24) (-149) - e1)) with 1 in * by lia.
    rewrite Ec in Hm3. change (2 ^ 24 / 2 ^ 1) with 8388608 in Hm3.
    rewrite Hm3. subst e''.
    destruct (e1 + 1 <=? F32.emax - F32.prec) eqn:Hov; cbn [rounded_to].
    + apply Z.leb_le in Hov. change (F32.emax - F32.prec) with 104 in Hov.
      split; [reflexivity|]. split.
      * apply valid_finite_intro; simpl digits2_pos; lia.
      * rewrite Ec. rewrite bpow_succ. change (IZR (2 ^ 24)) with (2 * IZR 8388608)%R.
        ring_simplify. reflexivity.
    + apply Z.leb_gt in Hov. change (F32.emax - F32.prec) with 104 in Hov.
      split; [reflexivity|]. rewrite Ec, <- bpow_IZR, <- bpow_plus by lia.
      apply bpow_le. lia.
  - (* no carry: the mantissa is already canonical *)
    assert (Hd : Zdigits2 m2 <= 24) by (apply Zdigits2_lt; lia).
    assert (Hd' : -149 < e1 -> 24 <= Zdigits2 m2).
    { intros Hn. specialize (Hnorm Hn).
      assert (23 < Zdigits2 m2) by (apply Zdigits2_le; lia). lia. }
    replace (Z.max 0 (Z.max (Zdigits2 m2 + e1 - 24) (-149) - e1)) with 0 in * by lia.
    rewrite Z.pow_0_r, Z.div_1_r in Hm3. rewrite Z.add_0_r in He''. subst e''.
    rewrite Hm3. destruct m2 as [|p|p]; try lia.
    destruct (e1 <=? F32.emax - F32.prec) eqn:Hov; cbn [rounded_to].
    + apply Z.leb_le in Hov. change (F32.emax - F32.prec) with 104 in Hov.
      split; [reflexivity|]. split; [|reflexivity].
      apply valid_finite_intro; [|lia]. simpl Zdigits2 in *. lia.
    + apply Z.leb_gt in Hov. change (F32.emax - F32.prec) with 104 in Hov.
      split; [reflexivity|].
      assert (Hp : 2 ^ 23 <= Zpos p) by (specialize (Hnorm ltac:(lia)); lia).
      apply IZR_le in Hp. rewrite <- bpow_IZR in Hp by lia.
      pose proof (bpow_gt_0 e1). pose proof (bpow_gt_0 23).
      apply Rle_trans with (bpow 23 * bpow e1)%R; [|nra].
      rewrite <- bpow_plus. apply bpow_le. lia.
Qed.

(** ** Rounding as a relation between a real and a float *)

Lemma SF2R_finite s m e :
  SF2R (S754_finite s m e) = (sign_factor s * IZR (Zpos m) * bpow e)%R.
Proof. reflexivity. Qed.

Section Grid.
Variables (m1 m2 e1 : Z) (x : R).
Hypothesis Hm2 : m2 = m1 \/ m2 = m1 + 1.
Hypothesis Hm1 : 0 <= m1 < 2 ^ 24.
Hypothesis Hnorm : -149 < e1 -> 2 ^ 23 <= m1.
Hypothesis He1 : -149 <= e1.
Hypothesis Hx : (IZR m1 * bpow e1 <= x < (IZR m1 + 1) * bpow e1)%R.
Hypothesis Hexact : x = (IZR m1 * bpow e1)%R -> m2 = m1.

Lemma grid_below (B : spec_float) :
  F32.valid B = true -> F32.is_finite B = true -> (0 < SF2R B)%R ->
  (exists k : Z, SF2R B = (IZR k * bpow e1)%R) \/ (SF2R B < IZR m1 * bpow e1)%R.
Proof.
  intros Hv Hf Hpos.
  destruct B as [s|s| |s m e]; try discriminate; [simpl in Hpos; lra|].
  destruct (valid_finite_inv _ _ _ Hv) as [Hcan Hemax].
  rewrite SF2R_finite in *. pose proof (bpow_gt_0 e) as Hpe.
  assert (Hs : s = false).
  { destruct s; [|reflexivity]. unfold sign_factor in Hpos.
    assert (0 < IZR (Zpos m))%R by (apply IZR_lt; lia). nra. }
  subst s. unfold sign_factor. rewrite !Rmult_1_l.
  destruct (Z_le_gt_dec e1 e) as [Hle|Hgt].
  - left. exists (Zpos m * 2 ^ (e - e1)).
    rewrite IZR_bpow_shift by lia. f_equal. f_equal. lia.
  - right. specialize (Hnorm ltac:(lia)).
    destruct (digits2_pos_bounds m) as [_ Hhi].
    assert (Hm : Zpos m < 2 ^ 24).
    { eapply Z.lt_le_trans; [exact Hhi|]. apply Z.pow_le_mono_r; lia. }
    apply IZR_lt in Hm. apply IZR_le in Hnorm.
    rewrite <- bpow_IZR in Hm, Hnorm by lia.
    pose proof (bpow_le (24 + e) (23 + e1) ltac:(lia)) as Hb.
    rewrite !bpow_plus in Hb. pose proof (bpow_gt_0 e1).
    pose proof (bpow_gt_0 23). pose proof (bpow_gt_0 24). nra.
Qed.

Lemma grid_upper (B : spec_float) :
  F32.valid B = true -> F32.is_finite B = true ->
  (x <= SF2R B)%R -> (IZR m2 * bpow e1 <= SF2R B)%R.
Proof.
  intros Hv Hf Hle. pose proof (bpow_gt_0 e1) as Hp.
  assert (Hm1r : (0 <= IZR m1)%R) by (apply IZR_le; lia).
  destruct (Rle_lt_dec (SF2R B) 0) as [Hz|Hpos].
  - assert (Ex : x = (IZR m1 * bpow e1)%R) by nra.
    rewrite (Hexact Ex). lra.
  - destruct (grid_below B Hv Hf Hpos) as [[k Hk]|Hlt]; [|lra].
    rewrite Hk in *.
    assert (Hmk : m1 <= k).
    { apply le_IZR. apply Rmult_le_reg_r with (bpow e1); lra. }
    destruct (Z.eq_dec m1 k) as [E|E].
    + subst k. assert (Ex : x = (IZR m1 * bpow e1)%R) by lra.
      rewrite (Hexact Ex). lra.
    + assert (Hmk' : m2 <= k) by lia. apply IZR_le in Hmk'. nra.
Qed.

Lemma grid_lower (B : spec_float) :
  F32.valid B = true -> F32.is_finite B = true ->
  (SF2R B <= x)%R -> (SF2R B <= IZR m2 * bpow e1)%R.
Proof.
  intros Hv Hf Hle. pose proof (bpow_gt_0 e1) as Hp.
  assert (Hm1r : (0 <= IZR m1)%R) by (apply IZR_le; lia).
  assert (H12 : (IZR m1 <= IZR m2)%R) by (apply IZR_le; lia).
  destruct (Rle_lt_dec (SF2R B) 0) as [Hz|Hpos]; [nra|].
  destruct (grid_below B Hv Hf Hpos) as [[k Hk]|Hlt]; [|nra].
  rewrite Hk in *.
  assert (Hmk : k < m1 + 1).
  { apply lt_IZR. rewrite plus_IZR. apply Rmult_lt_reg_r with (bpow e1); lra. }
  assert (Hmk' : k <= m1) by lia. apply IZR_le in Hmk'. nra.
Qed.

Lemma grid_error :
  (Rabs (x - IZR m2 * bpow e1) <= bpow e1 / 2)%R ->
  (Rabs (IZR m2 * bpow e1 - x) <= Rabs x * bpow (-24) + bpow (-150))%R.
Proof.
  intros Herr. rewrite Rabs_minus_sym.
  pose proof (bpow_gt_0 e1) as Hp. pose proof (bpow_gt_0 (-150)).
  pose proof (bpow_gt_0 (-24)).
  assert (Hm1r : (0 <= IZR m1)%R) by (apply IZR_le; lia).
  assert (Hx0 : (0 <= x)%R) by nra.
  rewrite (Rabs_pos_eq x Hx0).
  destruct (Z.eq_dec e1 (-149)) as [E|E].
  - rewrite E in *. replace (-150) with (-149 + -1) by lia.
    rewrite bpow_plus. replace (bpow (-1)) with (/ 2)%R by (unfold bpow; simpl; lra).
    nra.
  - specialize (Hnorm ltac:(lia)). apply IZR_le in Hnorm.
    rewrite <- bpow_IZR in Hnorm by lia.
    assert (Hb : bpow e1 = (bpow 23 * bpow e1 * (2 * bpow (-24)))%R).
    { rewrite <- bpow_1, <- !bpow_plus. f_equal. lia. }
    pose proof (bpow_gt_0 23).
    assert (bpow 23 * bpow e1 <= x)%R by nra.
    assert (bpow e1 / 2 <= x * bpow (-24))%R by nra.
    lra.
Qed.
End Grid.

Lemma SF2R_opp (B : spec_float) : SF2R (SFopp B) = (- SF2R B)%R.
Proof.
  destruct B as [s|s| |s m e]; simpl; try lra. destruct s; simpl; lra.
Qed.

Lemma valid_opp (B : spec_float) : F32.valid (SFopp B) = F32.valid B.
Proof. destruct B; reflexivity. Qed.

Lemma is_finite_opp (B : spec_float) : F32.is_finite (SFopp B) = F32.is_finite B.
Proof. destruct B; reflexivity. Qed.

Lemma valid_mantissa_lt s m e :
  F32.valid (S754_finite s m e) = true -> Zpos m < 2 ^ 24.
Proof.
  intros Hv. destruct (valid_finite_inv _ _ _ Hv) as [Hcan _].
  destruct (digits2_pos_bounds m) as [_ Hhi].
  eapply Z.lt_le_trans; [exact Hhi|]. apply Z.pow_le_mono_r; lia.
Qed.

Lemma valid_lt_max (B : spec_float) :
  F32.valid B = true -> (Rabs (SF2R B) < bpow 128)%R.
Proof.
  intros Hv. pose proof (bpow_gt_0 128).
  destruct B as [s|s| |s m e]; simpl SF2R; rewrite ?Rabs_R0; try lra.
  fold (SF2R (S754_finite s m e)). rewrite SF2R_finite.
  pose proof (valid_mantissa_lt _ _ _ Hv) as Hm.
  destruct (valid_finite_inv _ _ _ Hv) as [_ He].
  apply IZR_lt in Hm. rewrite <- bpow_IZR in Hm by lia.
  assert (0 < IZR (Zpos m))%R by (apply IZR_lt; lia).
  pose proof (bpow_gt_0 e). pose proof (bpow_le e 104 He).
  replace 128 with (24 + 104) by lia. rewrite bpow_plus.
  pose proof (bpow_gt_0 24). pose proof (bpow_gt_0 104).
  unfold sign_factor. destruct s.
  - rewrite Rabs_left by nra. nra.
  - rewrite Rabs_pos_eq by nra. nra.
Qed.

Lemma binary_round_aux_Rnd (sx : bool) (mx ex : Z) (lx : location) (x : R) :
  0 <= mx -> inbetween mx ex x lx ->
  ex <= fexp F32.prec F32.emax (Zdigits2 mx + ex) ->
  Rnd (sign_factor sx * x) (binary_round_aux F32.prec F32.emax sx mx ex lx).
Proof.
  intros Hmx Hin Hpre.
  destruct (binary_round_aux_spec sx mx ex lx x Hmx Hin Hpre)
    as (m2 & Hm2 & Hm1 & Hnorm & He1 & Hx & Herr & Hex & Hr).
  set (e1 := fexp F32.prec F32.emax (Zdigits2 mx + ex)) in *.
  set (m1 := mx / 2 ^ (e1 - ex)) in *.
  set (r := binary_round_aux F32.prec F32.emax sx mx ex lx) in *.
  set (v := (IZR m2 * bpow e1)%R) in *.
  pose proof (bpow_gt_0 e1) as Hp.
  assert (Hv0 : (0 <= v)%R).
  { unfold v. assert (0 <= IZR m2)%R by (apply IZR_le; lia). nra. }
  assert (Hx0 : (0 <= x)%R).
  { assert (0 <= IZR m1)%R by (apply IZR_le; lia). nra. }
  assert (Hfin : F32.is_finite r = true -> SF2R r = (sign_factor sx * v)%R).
  { destruct r as [s|s| |s m e]; try discriminate; intros _; cbn [rounded_to] in Hr.
    - destruct Hr as [_ E]. unfold v. rewrite E. simpl. lra.
    - destruct Hr as (-> & _ & E). rewrite SF2R_finite. unfold v. rewrite <- E. ring. }
  assert (Hup : forall B, F32.valid B = true -> F32.is_finite B = true ->
                  (x <= SF2R B)%R -> (v <= SF2R B)%R)
    by (intros; eapply grid_upper; eauto).
  assert (Hlo : forall B, F32.valid B = true -> F32.is_finite B = true ->
                  (SF2R B <= x)%R -> (SF2R B <= v)%R)
    by (intros; eapply grid_lower; eauto).
  split.
  - destruct r as [s|s| |s m e]; cbn [rounded_to] in Hr; try reflexivity; tauto.
  - destruct r; cbn [rounded_to] in Hr; congruence || tauto.
  - intros B HvB HfB Hle. pose proof (valid_lt_max B HvB) as HB.
    destruct sx; unfold sign_factor in *.
    + split.
      * destruct r as [s|s| |s m e]; cbn [rounded_to] in Hr; try congruence.
        destruct Hr as [-> _]. discriminate.
      * intros Hf. rewrite (Hfin Hf).
        assert (Hb : (SF2R (SFopp B) <= v)%R).
        { apply Hlo; rewrite ?valid_opp, ?is_finite_opp; auto.
          rewrite SF2R_opp. lra. }
        rewrite SF2R_opp in Hb. lra.
    + assert (Hb : (v <= SF2R B)%R) by (apply Hup; auto; lra).
      split.
      * destruct r as [s|s| |s m e]; cbn [rounded_to] in Hr; try congruence.
        destruct Hr as [_ Hov]. fold v in Hov.
        apply Rabs_def2 in HB. lra.
      * intros Hf. rewrite (Hfin Hf). lra.
  - intros B HvB HfB Hle. pose proof (valid_lt_max B HvB) as HB.
    destruct sx; unfold sign_factor in *.
    + assert (Hb : (v <= SF2R (SFopp B))%R).
      { apply Hup; rewrite ?valid_opp, ?is_finite_opp; auto.
        rewrite SF2R_opp. lra. }
      rewrite SF2R_opp in Hb.
      split.
      * destruct r as [s|s| |s m e]; cbn [rounded_to] in Hr; try congruence.
        destruct Hr as [_ Hov]. fold v in Hov.
        apply Rabs_def2 in HB. lra.
      * intros Hf. rewrite (Hfin Hf). lra.
    + split.
      * destruct r as [s|s| |s m e]; cbn [rounded_to] in Hr; try congruence.
        destruct Hr as [-> _]. discriminate.
      * intros Hf. rewrite (Hfin Hf).
        assert (Hb : (SF2R B <= v)%R) by (apply Hlo; auto; lra). lra.
  - intros Hf. rewrite (Hfin Hf).
    assert (Hg : (Rabs (v - x) <= Rabs x * bpow (-24) + bpow (-150))%R)
      by (eapply grid_error; eauto).
    replace (sign_factor sx * v - sign_factor sx * x)%R
      with (sign_factor sx * (v - x))%R by ring.
    rewrite !Rabs_mult.
    assert (Hs : Rabs (sign_factor sx) = 1%R).
    { destruct sx; unfold sign_factor; [rewrite Rabs_left | rewrite Rabs_pos_eq]; lra. }
    rewrite Hs, !Rmult_1_l. exact Hg.
Qed.

(** ** The operations *)

Lemma Rnd_zero_result s : Rnd 0 (S754_zero s).
Proof.
  split; try reflexivity; try discriminate.
  - intros B _ _ HB. split; [discriminate|]. intros _. exact HB.
  - intros B _ _ HB. split; [discriminate|]. intros _. exact HB.
  - intros _. simpl. rewrite Rminus_0_r, Rabs_R0, Rmult_0_l.
    pose proof (bpow_gt_0 (-150)). lra.
Qed.

(** A float is a rounding of its own value. *)
Lemma Rnd_exact (a : spec_float) :
  F32.valid a = true -> F32.is_finite a = true -> Rnd (SF2R a) a.
Proof.
  intros Hv Hf. split; auto.
  - intros ->. discriminate.
  - intros B _ _ HB. split; [intros ->; discriminate | auto].
  - intros B _ _ HB. split; [intros ->; discriminate | auto].
  - intros _. replace (SF2R a - SF2R a)%R with 0%R by ring. rewrite Rabs_R0.
    pose proof (bpow_gt_0 (-150)). pose proof (bpow_gt_0 (-24)).
    pose proof (Rabs_pos (SF2R a)). nra.
Qed.

Lemma iter_xO_mul (m d : positive) : Zpos (Pos.iter xO m d) = Zpos m * 2 ^ Zpos d.
Proof.
  induction d as [|d IH] using Pos.peano_ind.
  - simpl. lia.
  - rewrite Pos.iter_succ, Pos2Z.inj_succ, Z.pow_succ_r by lia.
    rewrite Pos2Z.inj_xO, IH. ring.
Qed.

Lemma shl_align_spec (mx : positive) (ex ex' : Z) :
  let '(mz, ez) := shl_align mx ex ex' in
  ez = Z.min ex ex' /\ Zpos mz = Zpos mx * 2 ^ (ex - ez).
Proof.
  unfold shl_align. destruct (ex' - ex) as [|d|d] eqn:E.
  - replace (Z.min ex ex') with ex by lia. rewrite Z.sub_diag. simpl. lia.
  - replace (Z.min ex ex') with ex by lia. rewrite Z.sub_diag. simpl. lia.
  - replace (Z.min ex ex') with ex' by lia. split; [reflexivity|].
    rewrite iter_xO_mul. f_equal. f_equal. lia.
Qed.

Lemma Zdigits2_shift (m : positive) (k : Z) :
  0 <= k -> Zdigits2 (Zpos m * 2 ^ k) = Zpos (digits2_pos m) + k.
Proof.
  intros Hk. destruct (digits2_pos_bounds m) as [Hlo Hhi].
  assert (0 < 2 ^ k) by (apply Z.pow_pos_nonneg; lia).
  apply Zdigits2_unique; [lia|].
  replace (Zpos (digits2_pos m) + k - 1) with (Zpos (digits2_pos m) - 1 + k) by lia.
  rewrite !Z.pow_add_r by lia. nia.
Qed.

Lemma inbetween_exact (m e : Z) : inbetween m e (IZR m * bpow e) loc_Exact.
Proof. reflexivity. Qed.

Lemma binary_round_Rnd (sx : bool) (mx : positive) (ex : Z) :
  Rnd (sign_factor sx * (IZR (Zpos mx) * bpow ex))
      (binary_round F32.prec F32.emax sx mx ex).
Proof.
  unfold binary_round.
  pose proof (shl_align_spec mx ex (fexp F32.prec F32.emax (Zpos (digits2_pos mx) + ex)))
    as Hal.
  destruct (shl_align mx ex _) as [mz ez]. destruct Hal as [Hez Hmz].
  assert (Hval : (IZR (Zpos mx) * bpow ex = IZR (Zpos mz) * bpow ez)%R).
  { rewrite Hmz, IZR_bpow_shift by lia. f_equal. f_equal. lia. }
  rewrite Hval. apply binary_round_aux_Rnd; [lia | apply inbetween_exact|].
  rewrite Hmz, Zdigits2_shift by lia.
  replace (Zpos (digits2_pos mx) + (ex - ez) + ez) with (Zpos (digits2_pos mx) + ex) by lia.
  lia.
Qed.

Lemma binary_normalize_Rnd (m e : Z) (sz : bool) :
  Rnd (IZR m * bpow e) (binary_normalize F32.prec F32.emax m e sz).
Proof.
  destruct m as [|p|p]; cbn [binary_normalize].
  - rewrite Rmult_0_l. apply Rnd_zero_result.
  - replace (IZR (Zpos p) * bpow e)%R with (sign_factor false * (IZR (Zpos p) * bpow e))%R
      by (unfold sign_factor; ring).
    apply binary_round_Rnd.
  - replace (IZR (Zneg p) * bpow e)%R with (sign_factor true * (IZR (Zpos p) * bpow e))%R.
    + apply binary_round_Rnd.
    + unfold sign_factor. change (Zneg p) with (- Zpos p). rewrite opp_IZR. ring.
Qed.

Lemma of_int_Rnd (n : Z) : Rnd (IZR n) (F32.of_int n).
Proof.
  unfold F32.of_int. replace (IZR n) with (IZR n * bpow 0)%R by (rewrite bpow_0; ring).
  apply binary_normalize_Rnd.
Qed.

Lemma cond_Zopp_IZR (s : bool) (m : Z) : IZR (cond_Zopp s m) = (sign_factor s * IZR m)%R.
Proof. destruct s; unfold sign_factor; simpl; rewrite ?opp_IZR; ring. Qed.

Lemma shl_align_value (mx : positive) (ex ez : Z) :
  ez <= ex ->
  (IZR (Zpos (fst (shl_align mx ex ez))) * bpow ez = IZR (Zpos mx) * bpow ex)%R.
Proof.
  intros Hle. pose proof (shl_align_spec mx ex ez) as Hal.
  destruct (shl_align mx ex ez) as [mz ez']. destruct Hal as [Hez Hmz]. cbn [fst].
  replace (Z.min ex ez) with ez in Hez by lia. subst ez'.
  rewrite Hmz, IZR_bpow_shift by lia. f_equal. f_equal. lia.
Qed.

Lemma add_Rnd (a b : float) :
  F32.valid a = true -> F32.valid b = true ->
  F32.is_finite a = true -> F32.is_finite b = true ->
  Rnd (SF2R a + SF2R b) (F32.add a b).
Proof.
  intros Hva Hvb Hfa Hfb.
  destruct a as [sa|sa| |sa ma ea], b as [sb|sb| |sb mb eb]; try discriminate.
  - replace (SF2R (S754_zero sa) + SF2R (S754_zero sb))%R with 0%R by (simpl; lra).
    destruct sa, sb; apply Rnd_zero_result.
  - replace (SF2R (S754_zero sa) + SF2R (S754_finite sb mb eb))%R
      with (SF2R (S754_finite sb mb eb)) by (simpl; lra).
    now apply Rnd_exact.
  - replace (SF2R (S754_finite sa ma ea) + SF2R (S754_zero sb))%R
      with (SF2R (S754_finite sa ma ea)) by (simpl; lra).
    now apply Rnd_exact.
  - unfold F32.add, SFadd.
    set (ez := Z.min ea eb).
    replace (SF2R (S754_finite sa ma ea) + SF2R (S754_finite sb mb eb))%R
      with (IZR (cond_Zopp sa (Zpos (fst (shl_align ma ea ez))) +
                 cond_Zopp sb (Zpos (fst (shl_align mb eb ez)))) * bpow ez)%R.
    + apply binary_normalize_Rnd.
    + rewrite plus_IZR, !cond_Zopp_IZR, !SF2R_finite.
      pose proof (shl_align_value ma ea ez ltac:(lia)) as Ea.
      pose proof (shl_align_value mb eb ez ltac:(lia)) as Eb.
      destruct sa, sb; unfold sign_factor; lra.
Qed.

Lemma sub_Rnd (a b : float) :
  F32.valid a = true -> F32.valid b = true ->
  F32.is_finite a = true -> F32.is_finite b = true ->
  Rnd (SF2R a - SF2R b) (F32.sub a b).
Proof.
  intros Hva Hvb Hfa Hfb.
  destruct a as [sa|sa| |sa ma ea], b as [sb|sb| |sb mb eb]; try discriminate.
  - replace (SF2R (S754_zero sa) - SF2R (S754_zero sb))%R with 0%R by (simpl; lra).
    destruct sa, sb; apply Rnd_zero_result.
  - replace (SF2R (S754_zero sa) - SF2R (S754_finite sb mb eb))%R
      with (SF2R (SFopp (S754_finite sb mb eb))) by (rewrite SF2R_opp; simpl; lra).
    apply Rnd_exact; [exact Hvb | reflexivity].
  - replace (SF2R (S754_finite sa ma ea) - SF2R (S754_zero sb))%R
      with (SF2R (S754_finite sa ma ea)) by (simpl; lra).
    now apply Rnd_exact.
  - unfold F32.sub, SFsub.
    set (ez := Z.min ea eb).
    replace (SF2R (S754_finite sa ma ea) - SF2R (S754_finite sb mb eb))%R
      with (IZR (cond_Zopp sa (Zpos (fst (shl_align ma ea ez))) -
                 cond_Zopp sb (Zpos (fst (shl_align mb eb ez)))) * bpow ez)%R.
    + apply binary_normalize_Rnd.
    + rewrite minus_IZR, !cond_Zopp_IZR, !SF2R_finite.
      pose proof (shl_align_value ma ea ez ltac:(lia)) as Ea.
      pose proof (shl_align_value mb eb ez ltac:(lia)) as Eb.
      destruct sa, sb; unfold sign_factor; lra.
Qed.

Lemma sign_factor_xorb (s t : bool) :
  sign_factor (xorb s t) = (sign_factor s * sign_factor t)%R.
Proof. destruct s, t; unfold sign_factor; simpl; lra. Qed.

Lemma mul_Rnd (a b : float) :
  F32.valid a = true -> F32.valid b = true ->
  F32.is_finite a = true -> F32.is_finite b = true ->
  Rnd (SF2R a * SF2R b) (F32.mul a b).
Proof.
  intros Hva Hvb Hfa Hfb.
  destruct a as [sa|sa| |sa ma ea], b as [sb|sb| |sb mb eb]; try discriminate;
    try (replace (SF2R _ * SF2R _)%R with 0%R by (simpl; lra); apply Rnd_zero_result).
  unfold F32.mul, SFmul.
  replace (SF2R (S754_finite sa ma ea) * SF2R (S754_finite sb mb eb))%R
    with (sign_factor (xorb sa sb) * (IZR (Zpos (ma * mb)) * bpow (ea + eb)))%R.
  - apply binary_round_aux_Rnd; [lia | apply inbetween_exact|].
    destruct (valid_finite_inv _ _ _ Hva) as [Hca _].
    destruct (valid_finite_inv _ _ _ Hvb) as [Hcb _].
    rewrite fexp32.
    destruct (digits2_pos_bounds ma) as [Hla _].
    destruct (digits2_pos_bounds mb) as [Hlb _].
    assert (Hprod : 2 ^ (Zpos (digits2_pos ma) + Zpos (digits2_pos mb) - 2) <= Zpos (ma * mb)).
    { replace (Zpos (digits2_pos ma) + Zpos (digits2_pos mb) - 2)
        with ((Zpos (digits2_pos ma) - 1) + (Zpos (digits2_pos mb) - 1)) by lia.
      rewrite Z.pow_add_r, Pos2Z.inj_mul by lia.
      apply Z.mul_le_mono_nonneg; try lia; apply Z.pow_nonneg; lia. }
    apply Zdigits2_le in Hprod; lia.
  - rewrite sign_factor_xorb, !SF2R_finite, Pos2Z.inj_mul, mult_IZR, bpow_plus. ring.
Qed.

(** ** Comparison against the real order *)

Lemma canonical_exponent_lt (m1 m2 : positive) (e1 e2 : Z) :
  F32.valid (S754_finite false m1 e1) = true ->
  F32.valid (S754_finite false m2 e2) = true ->
  e1 < e2 ->
  (IZR (Zpos m1) * bpow e1 < IZR (Zpos m2) * bpow e2)%R.
Proof.
  intros H1 H2 Hlt.
  pose proof (valid_mantissa_lt _ _ _ H1) as Hm1.
  destruct (valid_finite_inv _ _ _ H1) as [Hc1 _].
  destruct (valid_finite_inv _ _ _ H2) as [Hc2 _].
  destruct (digits2_pos_bounds m2) as [Hlo _].
  assert (Hm2 : 2 ^ 23 <= Zpos m2).
  { eapply Z.le_trans; [|exact Hlo]. apply Z.pow_le_mono_r; lia. }
  apply IZR_lt in Hm1. apply IZR_le in Hm2.
  rewrite <- bpow_IZR in Hm1, Hm2 by lia.
  pose proof (bpow_le (24 + e1) (23 + e2) ltac:(lia)) as Hb.
  rewrite !bpow_plus in Hb.
  pose proof (bpow_gt_0 e1). pose proof (bpow_gt_0 e2).
  pose proof (bpow_gt_0 23). pose proof (bpow_gt_0 24).
  assert (0 < IZR (Zpos m1))%R by (apply IZR_lt; lia). nra.
Qed.

Lemma Pos_compare_cont_Eq (p q : positive) : Pos.compare_cont Eq p q = (Zpos p ?= Zpos q).
Proof. reflexivity. Qed.

Lemma magnitude_compare (m1 m2 : positive) (e1 e2 : Z) :
  F32.valid (S754_finite false m1 e1) = true ->
  F32.valid (S754_finite false m2 e2) = true ->
  real_order (match e1 ?= e2 with
              | Lt => Lt
              | Gt => Gt
              | Eq => Pos.compare_cont Eq m1 m2
              end)
             (IZR (Zpos m1) * bpow e1) (IZR (Zpos m2) * bpow e2).
Proof.
  intros H1 H2. destruct (Z.compare_spec e1 e2) as [E|Hlt|Hgt].
  - subst e2. rewrite Pos_compare_cont_Eq. pose proof (bpow_gt_0 e1).
    destruct (Z.compare_spec (Zpos m1) (Zpos m2)) as [E|Hlt|Hgt]; simpl.
    + now rewrite E.
    + apply IZR_lt in Hlt. nra.
    + apply IZR_lt in Hgt. nra.
  - simpl. now apply canonical_exponent_lt.
  - simpl. now apply canonical_exponent_lt.
Qed.

Lemma SFcompare_real (a b : spec_float) :
  F32.valid a = true -> F32.valid b = true ->
  F32.is_finite a = true -> F32.is_finite b = true ->
  exists c, SFcompare a b = Some c /\ real_order c (SF2R a) (SF2R b).
Proof.
  intros Hva Hvb Hfa Hfb.
  destruct a as [sa|sa| |sa ma ea], b as [sb|sb| |sb mb eb]; try discriminate.
  - exists Eq. split; reflexivity.
  - assert (Hp : (0 < IZR (Zpos mb) * bpow eb)%R).
    { pose proof (bpow_gt_0 eb). assert (0 < IZR (Zpos mb))%R by (apply IZR_lt; lia). nra. }
    unfold bpow in Hp.
    destruct sb; eexists; (split; [reflexivity|]); cbn [real_order SF2R]; lra.
  - assert (Hp : (0 < IZR (Zpos ma) * bpow ea)%R).
    { pose proof (bpow_gt_0 ea). assert (0 < IZR (Zpos ma))%R by (apply IZR_lt; lia). nra. }
    unfold bpow in Hp.
    destruct sa; eexists; (split; [reflexivity|]); cbn [real_order SF2R]; lra.
  - assert (Hpa : (0 < IZR (Zpos ma) * bpow ea)%R).
    { pose proof (bpow_gt_0 ea). assert (0 < IZR (Zpos ma))%R by (apply IZR_lt; lia). nra. }
    assert (Hpb : (0 < IZR (Zpos mb) * bpow eb)%R).
    { pose proof (bpow_gt_0 eb). assert (0 < IZR (Zpos mb))%R by (apply IZR_lt; lia). nra. }
    pose proof (magnitude_compare ma mb ea eb Hva Hvb) as Hc.
    rewrite !SF2R_finite. unfold bpow in *.
    destruct sa, sb; cbn [SFcompare]; unfold sign_factor;
      eexists; (split; [reflexivity|]).
    + destruct (ea ?= eb); [destruct (Pos.compare_cont Eq ma mb)| |];
        cbn [real_order CompOpp] in *; lra.
    + cbn [real_order]. lra.
    + cbn [real_order]. lra.
    + destruct (ea ?= eb); [destruct (Pos.compare_cont Eq ma mb)| |];
        cbn [real_order] in *; lra.
Qed.

Lemma leb_real (a b : spec_float) :
  F32.valid a = true -> F32.valid b = true ->
  F32.is_finite a = true -> F32.is_finite b = true ->
  (F32.leb a b = true <-> (SF2R a <= SF2R b)%R).
Proof.
  intros Hva Hvb Hfa Hfb.
  destruct (SFcompare_real a b Hva Hvb Hfa Hfb) as (c & Hc & Ho).
  unfold F32.leb, SFleb. rewrite Hc.
  destruct c; simpl in Ho; split; intros; try reflexivity; try discriminate; lra.
Qed.

Lemma ltb_real (a b : spec_float) :
  F32.valid a = true -> F32.valid b = true ->
  F32.is_finite a = true -> F32.is_finite b = true ->
  (F32.ltb a b = true <-> (SF2R a < SF2R b)%R).
Proof.
  intros Hva Hvb Hfa Hfb.
  destruct (SFcompare_real a b Hva Hvb Hfa Hfb) as (c & Hc & Ho).
  unfold F32.ltb, SFltb. rewrite Hc.
  destruct c; simpl in Ho; split; intros; try reflexivity; try discriminate; lra.
Qed.

(** A comparison that succeeds against a finite float excludes NaN and the
    infinity on the far side. *)
Lemma leb_finite_between (lo hi a : spec_float) :
  F32.is_finite lo = true -> F32.is_finite hi = true ->
  F32.leb lo a = true -> F32.leb a hi = true -> F32.is_finite a = true.
Proof.
  destruct a as [s|s| |s m e]; try reflexivity.
  - destruct lo as [sl|sl| |sl ml el], hi as [sh|sh| |sh mh eh], s;
      try discriminate; destruct sl; try discriminate; destruct sh; discriminate.
  - destruct lo as [sl|sl| |sl ml el]; discriminate.
Qed.

(** ** Consequences of [Rnd] *)

Lemma Rnd_between (x : R) (r lo hi : spec_float) :
  Rnd x r ->
  F32.valid lo = true -> F32.is_finite lo = true ->
  F32.valid hi = true -> F32.is_finite hi = true ->
  (SF2R lo <= x <= SF2R hi)%R ->
  F32.is_finite r = true /\ (SF2R lo <= SF2R r <= SF2R hi)%R.
Proof.
  intros [Hv Hn Hup Hlo _] Hvl Hfl Hvh Hfh [H1 H2].
  destruct (Hup hi Hvh Hfh H2) as [Hni Hle].
  destruct (Hlo lo Hvl Hfl H1) as [Hni' Hge].
  assert (Hf : F32.is_finite r = true).
  { destruct r as [s|[|]| |s m e]; try reflexivity; congruence. }
  split; [exact Hf|]. split; auto.
Qed.

Lemma Rnd_error_finite (x : R) (r : spec_float) :
  Rnd x r -> F32.is_finite r = true ->
  (Rabs (SF2R r - x) <= Rabs x * bpow (-24) + bpow (-150))%R.
Proof. intros [_ _ _ _ He]. exact He. Qed.

Lemma bpow_neg_IZR k : 0 <= k -> bpow (- k) = (/ IZR (2 ^ k))%R.
Proof. intros Hk. now rewrite bpow_opp, bpow_IZR. Qed.

(** ** Division *)

Lemma new_location_inbetween (nb k q e : Z) :
  0 < nb -> 0 <= k < nb ->
  inbetween q e ((IZR q + IZR k / IZR nb) * bpow e) (new_location nb k).
Proof.
  intros Hnb Hk. pose proof (bpow_gt_0 e) as Hp.
  assert (Hn : (0 < IZR nb)%R) by (apply IZR_lt; lia).
  set (t := (IZR k / IZR nb)%R).
  assert (Et : (t * IZR nb = IZR k)%R) by (unfold t; field; lra).
  assert (Ht0 : k <> 0 -> (0 < t)%R).
  { intros Hne. assert (0 < IZR k)%R by (apply IZR_lt; lia).
    unfold t. apply Rdiv_lt_0_compat; assumption. }
  assert (Hlt : 2 * k < nb -> (t < / 2)%R).
  { intros H. apply IZR_lt in H. rewrite mult_IZR in H.
    apply Rmult_lt_reg_r with (IZR nb); [assumption|]. lra. }
  assert (Hgt : nb < 2 * k -> (/ 2 < t)%R).
  { intros H. apply IZR_lt in H. rewrite mult_IZR in H.
    apply Rmult_lt_reg_r with (IZR nb); [assumption|]. lra. }
  assert (Ht1 : (t < 1)%R).
  { assert (H : (IZR k < IZR nb)%R) by (apply IZR_lt; lia).
    apply Rmult_lt_reg_r with (IZR nb); [assumption|]. lra. }
  unfold new_location.
  destruct (Z.even nb) eqn:Hev.
  - unfold new_location_even. destruct (Z.eqb_spec k 0) as [E|E].
    + unfold t. rewrite E. cbn [inbetween]. unfold Rdiv. ring.
    + specialize (Ht0 E).
      destruct (Z.compare_spec (2 * k) nb) as [E2|H2|H2]; cbn [inbetween].
      * assert (t = / 2)%R.
        { apply Rmult_eq_reg_r with (IZR nb); [|lra].
          rewrite Et, <- E2, mult_IZR. field. }
        nra.
      * specialize (Hlt H2). split; nra.
      * specialize (Hgt H2). split; nra.
  - unfold new_location_odd. destruct (Z.eqb_spec k 0) as [E|E].
    + unfold t. rewrite E. cbn [inbetween]. unfold Rdiv. ring.
    + specialize (Ht0 E).
      assert (Hodd : 2 * k <> nb).
      { intros E2. rewrite <- E2, Z.even_mul in Hev. discriminate. }
      destruct (Z.compare_spec (2 * k + 1) nb) as [E2|H2|H2]; cbn [inbetween].
      * specialize (Hlt ltac:(lia)). split; nra.
      * specialize (Hlt ltac:(lia)). split; nra.
      * specialize (Hgt ltac:(lia)). split; nra.
Qed.

Lemma SFdiv_core_binary_spec (m1 m2 : positive) (e1 e2 : Z) :
  let '(q, e', l) := SFdiv_core_binary F32.prec F32.emax (Zpos m1) e1 (Zpos m2) e2 in
  0 <= q /\
  inbetween q e' (IZR (Zpos m1) * bpow e1 / (IZR (Zpos m2) * bpow e2)) l /\
  e' <= fexp F32.prec F32.emax (Zdigits2 q + e').
Proof.
  unfold SFdiv_core_binary. rewrite !fexp32.
  set (d1 := Zdigits2 (Zpos m1)). set (d2 := Zdigits2 (Zpos m2)).
  set (e' := Z.min (Z.max (d1 + e1 - (d2 + e2) - 24) (-149)) (e1 - e2)).
  set (s := e1 - e2 - e').
  assert (Hs : 0 <= s) by (unfold s, e'; lia).
  set (m' := match s with Zpos _ => Z.shiftl (Zpos m1) s | 0 => Zpos m1 | Zneg _ => 0 end).
  assert (Hm' : m' = Zpos m1 * 2 ^ s).
  { unfold m'. clearbody s. destruct s as [|p|p].
    - simpl. lia.
    - apply Z.shiftl_mul_pow2. lia.
    - lia. }
  clearbody m'.
  pose proof (Z.div_eucl_eq m' (Zpos m2) ltac:(lia)) as Hdiv.
  pose proof (Z.mod_pos_bound m' (Zpos m2) ltac:(lia)) as Hmod.
  unfold Z.modulo in Hmod.
  assert (H2s : 0 < 2 ^ s) by (apply Z.pow_pos_nonneg; lia).
  destruct (Z.div_eucl m' (Zpos m2)) as [q r].
  assert (Hq : 0 <= q) by nia.
  split; [exact Hq|]. split.
  - replace (IZR (Zpos m1) * bpow e1 / (IZR (Zpos m2) * bpow e2))%R
      with ((IZR q + IZR r / IZR (Zpos m2)) * bpow e')%R.
    + apply new_location_inbetween; lia.
    + assert (Hm2 : (0 < IZR (Zpos m2))%R) by (apply IZR_lt; lia).
      pose proof (bpow_gt_0 e2). pose proof (bpow_gt_0 e').
      assert (Er : (IZR q + IZR r / IZR (Zpos m2) = IZR m' / IZR (Zpos m2))%R).
      { rewrite Hdiv, plus_IZR, mult_IZR. field. lra. }
      rewrite Er, Hm', mult_IZR, <- bpow_IZR by lia.
      replace e1 with (s + e' + e2) by (unfold s; lia).
      rewrite !bpow_plus. field. lra.
  - rewrite fexp32.
    destruct (Z_le_gt_dec e' (-149)) as [Hsub|Hn]; [lia|].
    assert (He' : e' <= d1 + e1 - (d2 + e2) - 24) by (unfold e' in *; lia).
    destruct (digits2_pos_bounds m1) as [Hl1 _].
    destruct (digits2_pos_bounds m2) as [_ Hh2].
    fold (Zdigits2 (Zpos m1)) in Hl1. fold d1 in Hl1.
    fold (Zdigits2 (Zpos m2)) in Hh2. fold d2 in Hh2.
    assert (Hd1 : 0 < d1) by (unfold d1; simpl; lia).
    assert (Hd2 : 0 < d2) by (unfold d2; simpl; lia).
    assert (Hq23 : 2 ^ 23 <= q).
    { assert (Hbig : 2 ^ 23 * Zpos m2 <= m').
      { rewrite Hm'.
        assert (2 ^ 23 * 2 ^ d2 <= 2 ^ (d1 - 1) * 2 ^ s).
        { rewrite <- !Z.pow_add_r by lia. apply Z.pow_le_mono_r; unfold s; lia. }
        assert (0 < 2 ^ (d1 - 1)) by (apply Z.pow_pos_nonneg; lia).
        nia. }
      nia. }
    apply Zdigits2_le in Hq23; lia.
Qed.

Lemma div_Rnd (a b : float) :
  F32.valid a = true -> F32.valid b = true ->
  F32.is_finite a = true -> F32.is_finite b = true ->
  SF2R b <> 0%R ->
  Rnd (SF2R a / SF2R b) (F32.div a b).
Proof.
  intros Hva Hvb Hfa Hfb Hnz.
  destruct a as [sa|sa| |sa ma ea], b as [sb|sb| |sb mb eb]; try discriminate;
    try (simpl in Hnz; lra).
  - replace (SF2R (S754_zero sa) / SF2R (S754_finite sb mb eb))%R with 0%R
      by (simpl; unfold Rdiv; ring).
    apply Rnd_zero_result.
  - unfold F32.div, SFdiv.
    pose proof (SFdiv_core_binary_spec ma mb ea eb) as Hcore.
    destruct (SFdiv_core_binary F32.prec F32.emax (Zpos ma) ea (Zpos mb) eb) as [[q e'] l].
    destruct Hcore as (Hq & Hin & Hpre).
    replace (SF2R (S754_finite sa ma ea) / SF2R (S754_finite sb mb eb))%R
      with (sign_factor (xorb sa sb) *
            (IZR (Zpos ma) * bpow ea / (IZR (Zpos mb) * bpow eb)))%R.
    + now apply binary_round_aux_Rnd.
    + rewrite sign_factor_xorb, !SF2R_finite.
      assert (0 < IZR (Zpos mb))%R by (apply IZR_lt; lia).
      pose proof (bpow_gt_0 eb).
      destruct sa, sb; unfold sign_factor; field; lra.
Qed.

(** A literal [n/d] with suffix [f] denotes the rounding of the quotient. *)
Lemma lit_Rnd (n d : positive) : Rnd (IZR (Zpos n) / IZR (Zpos d)) (F32.lit n d).
Proof.
  unfold F32.lit, SFdiv.
  pose proof (SFdiv_core_binary_spec n d 0 0) as Hcore.
  destruct (SFdiv_core_binary F32.prec F32.emax (Zpos n) 0 (Zpos d) 0) as [[q e'] l].
  destruct Hcore as (Hq & Hin & Hpre).
  rewrite bpow_0, !Rmult_1_r in Hin.
  replace (IZR (Zpos n) / IZR (Zpos d))%R
    with (sign_factor (xorb false false) * (IZR (Zpos n) / IZR (Zpos d)))%R
    by (unfold sign_factor; simpl; ring).
  now apply binary_round_aux_Rnd.
Qed.

(** ** Values of float constants *)

Lemma SF2R_neg_exp s m e :
  e < 0 -> SF2R (S754_finite s m e) = (sign_factor s * IZR (Zpos m) / IZR (2 ^ (- e)))%R.
Proof.
  intros He. rewrite SF2R_finite. replace e with (- (- e)) at 1 by lia.
  rewrite bpow_neg_IZR by lia. reflexivity.
Qed.

Lemma SF2R_pos_exp s m e :
  0 <= e -> SF2R (S754_finite s m e) = (sign_factor s * IZR (Zpos m * 2 ^ e))%R.
Proof.
  intros He. rewrite SF2R_finite, mult_IZR, <- bpow_IZR by lia. ring.
Qed.

(** Replaces [SF2R c], for a closed float [c], by a quotient of integers. *)
Ltac SF2R_const c :=
  let v := eval vm_compute in c in
  change c with v in *;
  lazymatch v with
  | S754_finite ?s ?m ?e =>
      first [ rewrite (SF2R_neg_exp s m e) in * by (vm_compute; reflexivity);
              let t := eval vm_compute in (2 ^ (- e))%Z in
              change (2 ^ (- e))%Z with t in *
            | rewrite (SF2R_pos_exp s m e) in * by (vm_compute; discriminate);
              let t := eval vm_compute in (Zpos m * 2 ^ e)%Z in
              change (Zpos m * 2 ^ e)%Z with t in * ];
      unfold sign_factor in *
  | S754_zero _ => change (SF2R v) with 0%R in *
  end.

(** ** The lattice hash *)

Lemma simple_noise_hash_range (x z : Z) : 0 <= simple_noise_hash x z <= 2 ^ 31 - 1.
Proof.
  unfold simple_noise_hash. change 2147483647 with (Z.ones 31).
  rewrite Z.land_ones by lia.
  match goal with |- _ <= ?a mod _ <= _ => pose proof (Z.mod_pos_bound a (2 ^ 31) ltac:(lia)) end.
  lia.
Qed.

Lemma simple_noise_Rnd_range (x z : Z) :
  F32.valid (simple_noise x z) = true /\
  F32.is_finite (simple_noise x z) = true /\
  (-1 <= SF2R (simple_noise x z) <= 1)%R.
Proof.
  pose proof (simple_noise_hash_range x z) as Hh.
  unfold simple_noise. set (h := simple_noise_hash x z) in *.
  (* the conversion of the hash *)
  pose proof (of_int_Rnd h) as Ra.
  destruct (Rnd_between _ _ F32.zero (F32.of_int (2 ^ 31)) Ra) as [Fa Ba];
    try reflexivity.
  { SF2R_const (F32.of_int (2 ^ 31)). SF2R_const F32.zero.
    assert (H1 : (0 <= IZR h)%R) by (apply IZR_le; lia).
    assert (H2 : (IZR h <= IZR (2 ^ 31 - 1))%R) by (apply IZR_le; lia).
    rewrite minus_IZR in H2. change (2 ^ 31) with 2147483648 in H2. lra. }
  (* the quotient by 2^30 *)
  pose proof (div_Rnd (F32.of_int h) (F32.of_int 1073741824)
                (rnd_valid _ _ Ra) eq_refl Fa eq_refl) as Rq.
  assert (Hnz : SF2R (F32.of_int 1073741824) <> 0%R)
    by (SF2R_const (F32.of_int 1073741824); lra).
  specialize (Rq Hnz).
  destruct (Rnd_between _ _ F32.zero F32.two Rq) as [Fq Bq]; try reflexivity.
  { SF2R_const (F32.of_int (2 ^ 31)). SF2R_const (F32.of_int 1073741824).
    SF2R_const F32.zero. SF2R_const F32.two.
    split; [apply Rmult_le_pos; lra|]. lra. }
  (* the difference from one *)
  pose proof (sub_Rnd F32.one _ eq_refl (rnd_valid _ _ Rq) eq_refl Fq) as Rr.
  destruct (Rnd_between _ _ (F32.opp F32.one) F32.one Rr) as [Fr Br]; try reflexivity.
  { SF2R_const F32.zero. SF2R_const F32.two. SF2R_const (F32.opp F32.one).
    SF2R_const F32.one. lra. }
  split; [exact (rnd_valid _ _ Rr)|]. split; [exact Fr|].
  SF2R_const (F32.opp F32.one). SF2R_const F32.one. lra.
Qed.

(** ** Magnitude bounds *)

Lemma Rabs_le_inv (a b : R) : (Rabs a <= b)%R -> (- b <= a <= b)%R.
Proof. unfold Rabs. destruct (Rcase_abs a); lra. Qed.

Lemma Rnd_abs (x : R) (r B : spec_float) :
  Rnd x r -> good B -> (Rabs x <= SF2R B)%R ->
  good r /\ (Rabs (SF2R r) <= SF2R B)%R /\
  (Rabs (SF2R r - x) <= Rabs x * bpow (-24) + bpow (-150))%R.
Proof.
  intros HR [HvB HfB] Hx. apply Rabs_le_inv in Hx.
  destruct (Rnd_between x r (SFopp B) B HR) as [Hf Hb];
    rewrite ?valid_opp, ?is_finite_opp, ?SF2R_opp; auto.
  split; [split; [exact (rnd_valid _ _ HR) | exact Hf]|].
  rewrite SF2R_opp in Hb.
  split; [apply Rabs_le; lra | now apply Rnd_error_finite].
Qed.

Lemma good_const (c : spec_float) :
  F32.valid c = true -> F32.is_finite c = true -> good c.
Proof. now split. Qed.

Lemma u24_value : u24 = (/ 16777216)%R.
Proof. unfold u24. change (-24) with (- (24)). rewrite bpow_neg_IZR by lia. reflexivity. Qed.

Lemma eta_small : (0 < eta <= / 1000000000000)%R.
Proof.
  unfold eta. split; [apply bpow_gt_0|].
  apply Rle_trans with (bpow (-40)); [apply bpow_le; lia|].
  change (-40) with (- (40)). rewrite bpow_neg_IZR by lia.
  change (2 ^ 40) with 1099511627776.
  apply Rinv_le_contravar; lra.
Qed.

Lemma mul_abs_le (a g A G : R) :
  (Rabs a <= A)%R -> (Rabs g <= G)%R -> (Rabs (a * g) <= A * G)%R.
Proof.
  intros Ha Hg. rewrite Rabs_mult.
  pose proof (Rabs_pos a). pose proof (Rabs_pos g). nra.
Qed.

Section Interpolation.
Context `{Platform}.

Lemma cosf_good (x : float) :
  F32.is_finite x = true -> good (cosf x) /\ (-1 <= SF2R (cosf x) <= 1)%R.
Proof.
  intros Hf. destruct (cosf_range x Hf) as [Hlo Hhi].
  pose proof (cosf_valid x) as Hv.
  assert (Hfc : F32.is_finite (cosf x) = true)
    by (eapply leb_finite_between; [| |exact Hlo|exact Hhi]; reflexivity).
  split; [now split|].
  apply leb_real in Hlo; try reflexivity; auto.
  apply leb_real in Hhi; try reflexivity; auto.
  SF2R_const (F32.opp F32.one). SF2R_const F32.one. lra.
Qed.

(** The blend weight is a float in [0, 1]. *)
Lemma blend_weight_range (t : float) :
  good t -> (Rabs (SF2R t) <= bpow 110)%R ->
  let f := F32.mul (F32.sub F32.one (cosf (F32.mul t (F32.lit 31415927 10000000))))
                   (F32.lit 5 10) in
  good f /\ (0 <= SF2R f <= 1)%R.
Proof.
  intros [Hvt Hft] Ht. cbv zeta.
  pose proof (mul_Rnd t (F32.lit 31415927 10000000) Hvt eq_refl Hft eq_refl) as Rft.
  destruct (Rnd_abs _ _ (S754_finite false 8388608 90) Rft) as ([Vft Fft] & _ & _);
    [split; reflexivity | |].
  { SF2R_const (F32.lit 31415927 10000000).
    SF2R_const (S754_finite false 8388608 90).
    rewrite Rabs_mult. rewrite (bpow_IZR 110) in Ht by lia.
    rewrite (Rabs_pos_eq (1 * _ / _)) by lra.
    change (2 ^ 110) with 1298074214633706907132624082305024 in Ht.
    pose proof (Rabs_pos (SF2R t)). lra. }
  destruct (cosf_good _ Fft) as ([Vc Fc] & Bc).
  pose proof (sub_Rnd F32.one _ eq_refl Vc eq_refl Fc) as Rd.
  destruct (Rnd_between _ _ F32.zero F32.two Rd) as [Fd Bd]; try reflexivity.
  { SF2R_const F32.one. SF2R_const F32.zero. SF2R_const F32.two. lra. }
  pose proof (mul_Rnd _ (F32.lit 5 10) (rnd_valid _ _ Rd) eq_refl Fd eq_refl) as Rf.
  destruct (Rnd_between _ _ F32.zero F32.one Rf) as [Ff Bf]; try reflexivity.
  { SF2R_const (F32.lit 5 10). SF2R_const F32.one. SF2R_const F32.zero.
    SF2R_const F32.two. lra. }
  split; [split; [exact (rnd_valid _ _ Rf) | exact Ff]|].
  SF2R_const F32.one. SF2R_const F32.zero. lra.
Qed.

(** One interpolation inflates a bound A >= 1 on its operands by a factor
    of at most 1 + 2^-21. *)
Lemma cosine_interpolate_bound (a b t : float) (A : R) :
  good a -> good b -> good t ->
  (Rabs (SF2R t) <= bpow 110)%R ->
  (1 <= A <= 2)%R -> (Rabs (SF2R a) <= A)%R -> (Rabs (SF2R b) <= A)%R ->
  good (cosine_interpolate a b t) /\
  (Rabs (SF2R (cosine_interpolate a b t)) <= A * (1 + / 2097152))%R.
Proof.
  intros [Va Fa] [Vb Fb] Gt Ht HA Ha Hb. unfold cosine_interpolate.
  destruct (blend_weight_range t Gt Ht) as ([Vf Ff] & Bf). cbv zeta in Vf, Ff, Bf.
  set (f := F32.mul (F32.sub F32.one (cosf (F32.mul t (F32.lit 31415927 10000000))))
                    (F32.lit 5 10)) in *.
  pose proof u24_value as Hu. pose proof eta_small as He. unfold u24 in Hu.
  (* g = 1 - f *)
  pose proof (sub_Rnd F32.one f eq_refl Vf eq_refl Ff) as Rg.
  destruct (Rnd_between _ _ F32.zero F32.one Rg) as [Fg Bg]; try reflexivity.
  { SF2R_const F32.one. SF2R_const F32.zero. lra. }
  pose proof (Rnd_error_finite _ _ Rg Fg) as Eg.
  pose proof (rnd_valid _ _ Rg) as Vg.
  set (g := F32.sub F32.one f) in *.
  SF2R_const F32.one. SF2R_const F32.zero.
  fold eta in Eg. rewrite Hu in Eg.
  assert (Hgf : (SF2R g + SF2R f <= 1 + / 16777216 + eta)%R).
  { apply Rabs_le_inv in Eg. rewrite Rabs_pos_eq in Eg by lra. lra. }
  (* p = a * g and q = b * f *)
  pose proof (mul_Rnd a g Va Vg Fa Fg) as Rp.
  assert (Hag : (Rabs (SF2R a * SF2R g) <= A * SF2R g)%R).
  { rewrite Rabs_mult, (Rabs_pos_eq (SF2R g)) by lra.
    apply Rmult_le_compat_r; lra. }
  assert (HAg : (A * SF2R g <= 2)%R) by nra.
  destruct (Rnd_abs _ _ F32.two Rp) as ([Vp Fp] & _ & Ep); [split; reflexivity | |].
  { SF2R_const F32.two. lra. }
  pose proof (mul_Rnd b f Vb Vf Fb Ff) as Rq.
  assert (Hbf : (Rabs (SF2R b * SF2R f) <= A * SF2R f)%R).
  { rewrite Rabs_mult, (Rabs_pos_eq (SF2R f)) by lra.
    apply Rmult_le_compat_r; lra. }
  assert (HAf : (A * SF2R f <= 2)%R) by nra.
  destruct (Rnd_abs _ _ F32.two Rq) as ([Vq Fq] & _ & Eq); [split; reflexivity | |].
  { SF2R_const F32.two. lra. }
  fold eta in Ep, Eq. rewrite Hu in Ep, Eq.
  set (p := F32.mul a g) in *. set (q := F32.mul b f) in *.
  pose proof (Rabs_pos (SF2R a * SF2R g)) as Wp.
  pose proof (Rabs_pos (SF2R b * SF2R f)) as Wq.
  apply Rabs_le_inv in Ep. apply Rabs_le_inv in Eq.
  pose proof (Rabs_le_inv _ _ Hag) as Hag'. pose proof (Rabs_le_inv _ _ Hbf) as Hbf'.
  assert (HAgf : (A * SF2R g + A * SF2R f <= A * (1 + / 16777216) + 2 * eta)%R).
  { assert (A * (SF2R g + SF2R f) <= A * (1 + / 16777216 + eta))%R
      by (apply Rmult_le_compat_l; lra).
    assert (A * eta <= 2 * eta)%R by (apply Rmult_le_compat_r; lra).
    lra. }
  assert (Hpq : (Rabs (SF2R p + SF2R q) <=
                 A * (1 + / 16777216) * (1 + / 16777216) + 5 * eta)%R).
  { apply Rabs_le. lra. }
  (* r = p + q *)
  pose proof (add_Rnd p q Vp Vq Fp Fq) as Rr.
  destruct (Rnd_abs _ _ (F32.of_int 4) Rr) as (Gr & _ & Er); [split; reflexivity | |].
  { SF2R_const (F32.of_int 4). lra. }
  fold eta in Er. rewrite Hu in Er.
  split; [exact Gr|].
  apply Rabs_le_inv in Er. apply Rabs_le.
  pose proof (Rabs_pos (SF2R p + SF2R q)).
  pose proof (Rabs_le_inv _ _ Hpq). lra.
Qed.
End Interpolation.

(** ** Smoothed and fractal noise *)

Section NoiseBounds.
Context `{Platform}.

Lemma float_to_int_range (x : float) : Int.in_range (float_to_int x) = true.
Proof.
  unfold float_to_int. destruct x as [s|s| |s m e]; try apply fcvt_invalid_range.
  - reflexivity.
  - match goal with |- context [if Int.in_range ?t then _ else _] =>
      destruct (Int.in_range t) eqn:E end; [exact E | apply fcvt_invalid_range].
Qed.

Lemma of_int_in_range (i : Z) :
  Int.in_range i = true ->
  good (F32.of_int i) /\ (Rabs (SF2R (F32.of_int i)) <= bpow 31)%R.
Proof.
  intros Hi. unfold Int.in_range, Int.min_signed, Int.max_signed in Hi.
  apply andb_true_iff in Hi. destruct Hi as [H1 H2].
  apply Z.leb_le in H1. apply Z.leb_le in H2.
  destruct (Rnd_abs _ _ (F32.of_int (2 ^ 31)) (of_int_Rnd i)) as (G & B & _);
    [split; reflexivity | |].
  - SF2R_const (F32.of_int (2 ^ 31)). apply Rabs_le.
    apply IZR_le in H1. apply IZR_le in H2.
    rewrite minus_IZR in H2. rewrite opp_IZR in H1.
    change (2 ^ 31) with 2147483648 in *. lra.
  - split; [exact G|]. rewrite (bpow_IZR 31) by lia.
    SF2R_const (F32.of_int (2 ^ 31)). change (2 ^ 31) with 2147483648. lra.
Qed.

(** The fractional offset handed to the interpolation only has to be
    finite. *)
Lemma fraction_bound (x : float) :
  good x -> (Rabs (SF2R x) <= bpow 108)%R ->
  let frac := F32.sub x (F32.of_int (float_to_int (floorf x))) in
  good frac /\ (Rabs (SF2R frac) <= bpow 110)%R.
Proof.
  intros [Vx Fx] Bx. cbv zeta.
  destruct (of_int_in_range _ (float_to_int_range (floorf x))) as ([Vi Fi] & Bi).
  pose proof (sub_Rnd x _ Vx Vi Fx Fi) as Rf.
  destruct (Rnd_abs _ _ (S754_finite false 8388608 86) Rf) as (G & B & _);
    [split; reflexivity | |].
  - SF2R_const (S754_finite false 8388608 86).
    rewrite (bpow_IZR 108) in Bx by lia. rewrite (bpow_IZR 31) in Bi by lia.
    change (2 ^ 108) with 324518553658426726783156020576256 in Bx.
    change (2 ^ 31) with 2147483648 in Bi.
    apply Rabs_le_inv in Bx. apply Rabs_le_inv in Bi. apply Rabs_le. lra.
  - split; [exact G|].
    SF2R_const (S754_finite false 8388608 86).
    rewrite (bpow_IZR 110) by lia.
    change (2 ^ 110) with 1298074214633706907132624082305024. lra.
Qed.

Lemma simple_noise_good (i j : Z) :
  good (simple_noise i j) /\ (Rabs (SF2R (simple_noise i j)) <= 1)%R.
Proof.
  destruct (simple_noise_Rnd_range i j) as (V & F & B).
  split; [now split | apply Rabs_le; lra].
Qed.

Lemma smoothed_noise_bound (x z : float) :
  good x -> good z ->
  (Rabs (SF2R x) <= bpow 108)%R -> (Rabs (SF2R z) <= bpow 108)%R ->
  good (smoothed_noise x z) /\
  (Rabs (SF2R (smoothed_noise x z)) <= SMOOTH_BOUND)%R.
Proof.
  intros Gx Gz Bx Bz. unfold smoothed_noise.
  destruct (fraction_bound x Gx Bx) as (Gfx & Bfx).
  destruct (fraction_bound z Gz Bz) as (Gfz & Bfz).
  cbv zeta in Gfx, Bfx, Gfz, Bfz.
  set (ix := float_to_int (floorf x)) in *.
  set (iz := float_to_int (floorf z)) in *.
  destruct (simple_noise_good ix iz) as (G1 & B1).
  destruct (simple_noise_good (Int.add ix 1) iz) as (G2 & B2).
  destruct (simple_noise_good ix (Int.add iz 1)) as (G3 & B3).
  destruct (simple_noise_good (Int.add ix 1) (Int.add iz 1)) as (G4 & B4).
  destruct (cosine_interpolate_bound _ _ _ 1 G1 G2 Gfx Bfx ltac:(lra) B1 B2)
    as (Gi1 & Bi1).
  destruct (cosine_interpolate_bound _ _ _ 1 G3 G4 Gfx Bfx ltac:(lra) B3 B4)
    as (Gi2 & Bi2).
  rewrite Rmult_1_l in Bi1, Bi2.
  destruct (cosine_interpolate_bound _ _ _ (1 + / 2097152) Gi1 Gi2 Gfz Bfz
              ltac:(lra) Bi1 Bi2) as (Gr & Br).
  split; [exact Gr | exact Br].
Qed.

(** One octave of the fractal sum. *)
Lemma octave_step_bound (x z : float) (st : octave_state) (T : R) :
  good x -> good z ->
  (Rabs (SF2R x) <= bpow 104)%R -> (Rabs (SF2R z) <= bpow 104)%R ->
  good (total st) -> (Rabs (SF2R (total st)) <= T)%R -> (T <= 3)%R ->
  good (frequency st) -> (Rabs (SF2R (frequency st)) <= 16)%R ->
  good (amplitude st) -> (0 <= SF2R (amplitude st) <= 1)%R ->
  good (total (octave_step x z st)) /\
  (Rabs (SF2R (total (octave_step x z st))) <=
   T + 1001 / 1000 * SF2R (amplitude st) + / 1000000)%R.
Proof.
  intros [Vx Fx] [Vz Fz] Bx Bz [Vt Ft] Bt HT [Vf Ff] Bf [Va Fa] Ba.
  unfold octave_step. cbn [total].
  pose proof u24_value as Hu. pose proof eta_small as He. unfold u24 in Hu.
  assert (Hscale : forall c : float, good c -> (Rabs (SF2R c) <= bpow 104)%R ->
            good (F32.mul c (frequency st)) /\
            (Rabs (SF2R (F32.mul c (frequency st))) <= bpow 108)%R).
  { intros c [Vc Fc] Bc.
    pose proof (mul_Rnd c _ Vc Vf Fc Ff) as Rc.
    destruct (Rnd_abs _ _ (S754_finite false 8388608 85) Rc) as (G & B & _);
      [split; reflexivity | |].
    - SF2R_const (S754_finite false 8388608 85).
      rewrite (bpow_IZR 104) in Bc by lia.
      change (2 ^ 104) with 20282409603651670423947251286016 in Bc.
      rewrite Rabs_mult. pose proof (Rabs_pos (SF2R c)).
      pose proof (Rabs_pos (SF2R (frequency st))). nra.
    - split; [exact G|]. SF2R_const (S754_finite false 8388608 85).
      rewrite (bpow_IZR 108) by lia.
      change (2 ^ 108) with 324518553658426726783156020576256. lra. }
  destruct (Hscale x (conj Vx Fx) Bx) as (Gcx & Bcx).
  destruct (Hscale z (conj Vz Fz) Bz) as (Gcz & Bcz).
  destruct (smoothed_noise_bound _ _ Gcx Gcz Bcx Bcz) as ([Vs Fs] & Bs).
  set (s := smoothed_noise _ _) in *.
  assert (HS : (SMOOTH_BOUND <= 10001 / 10000)%R) by (unfold SMOOTH_BOUND; lra).
  (* the term s * amplitude *)
  pose proof (mul_Rnd s _ Vs Va Fs Fa) as Rm.
  assert (Hsa : (Rabs (SF2R s * SF2R (amplitude st)) <=
                 10001 / 10000 * SF2R (amplitude st))%R).
  { rewrite Rabs_mult, (Rabs_pos_eq (SF2R (amplitude st))) by lra.
    apply Rmult_le_compat_r; lra. }
  destruct (Rnd_abs _ _ F32.two Rm) as ([Vm Fm] & _ & Em); [split; reflexivity | |].
  { SF2R_const F32.two. lra. }
  fold eta in Em. rewrite Hu in Em.
  set (m := F32.mul s (amplitude st)) in *.
  pose proof (Rabs_pos (SF2R s * SF2R (amplitude st))) as Wm.
  pose proof (Rabs_le_inv _ _ Hsa) as Hsa'.
  apply Rabs_le_inv in Em. pose proof (Rabs_le_inv _ _ Bt) as Bt'.
  (* the running total *)
  pose proof (add_Rnd _ m Vt Vm Ft Fm) as Rs.
  assert (Hsum : (Rabs (SF2R (total st) + SF2R m) <=
                  T + 10002 / 10000 * SF2R (amplitude st) + / 10000000)%R).
  { apply Rabs_le. lra. }
  destruct (Rnd_abs _ _ (F32.of_int 8) Rs) as (G & _ & Es); [split; reflexivity | |].
  { SF2R_const (F32.of_int 8). lra. }
  fold eta in Es. rewrite Hu in Es.
  split; [exact G|].
  pose proof (Rabs_pos (SF2R (total st) + SF2R m)).
  pose proof (Rabs_le_inv _ _ Hsum). apply Rabs_le_inv in Es. apply Rabs_le. lra.
Qed.
End NoiseBounds.

Section FractalBounds.
Context `{Platform}.

Lemma fractal_noise_bound (x z : float) :
  good x -> good z ->
  (Rabs (SF2R x) <= bpow 104)%R -> (Rabs (SF2R z) <= bpow 104)%R ->
  good (fractal_noise x z) /\
  (Rabs (SF2R (fractal_noise x z)) <= 1788 / 1000)%R.
Proof.
  intros Gx Gz Bx Bz. unfold fractal_noise, for_lt.
  change (Z.to_nat octaves) with 5%nat. cbn [for_range].
  set (st0 := {| total := F32.zero; frequency := F32.one; amplitude := F32.one |}).
  assert (G0 : good (total st0)) by (split; reflexivity).
  assert (B0 : (Rabs (SF2R (total st0)) <= 0)%R) by (simpl; rewrite Rabs_R0; lra).
  (* octave 1 *)
  destruct (octave_step_bound x z st0 _ Gx Gz Bx Bz G0 B0) as (G1 & B1);
    try (split; reflexivity); try lra.
  { change (frequency st0) with F32.one. SF2R_const F32.one.
    rewrite Rabs_pos_eq; lra. }
  { change (amplitude st0) with F32.one. SF2R_const F32.one. lra. }
  change (amplitude st0) with F32.one in B1. SF2R_const F32.one.
  set (st1 := octave_step x z st0) in *.
  (* octave 2 *)
  destruct (octave_step_bound x z st1 _ Gx Gz Bx Bz G1 B1) as (G2 & B2);
    try (split; reflexivity); try lra.
  { change (frequency st1) with (F32.mul F32.one F32.two).
    SF2R_const (F32.mul F32.one F32.two). rewrite Rabs_pos_eq; lra. }
  { change (amplitude st1) with (F32.mul F32.one persistence).
    SF2R_const (F32.mul F32.one persistence). lra. }
  change (amplitude st1) with (F32.mul F32.one persistence) in B2.
  SF2R_const (F32.mul F32.one persistence).
  set (st2 := octave_step x z st1) in *.
  (* octave 3 *)
  destruct (octave_step_bound x z st2 _ Gx Gz Bx Bz G2 B2) as (G3 & B3);
    try (split; reflexivity); try lra.
  { change (frequency st2) with (F32.mul (F32.mul F32.one F32.two) F32.two).
    SF2R_const (F32.mul (F32.mul F32.one F32.two) F32.two). rewrite Rabs_pos_eq; lra. }
  { change (amplitude st2) with (F32.mul (F32.mul F32.one persistence) persistence).
    SF2R_const (F32.mul (F32.mul F32.one persistence) persistence). lra. }
  change (amplitude st2) with (F32.mul (F32.mul F32.one persistence) persistence) in B3.
  SF2R_const (F32.mul (F32.mul F32.one persistence) persistence).
  set (st3 := octave_step x z st2) in *.
  (* octave 4 *)
  destruct (octave_step_bound x z st3 _ Gx Gz Bx Bz G3 B3) as (G4 & B4);
    try (split; reflexivity); try lra.
  { change (frequency st3)
      with (F32.mul (F32.mul (F32.mul F32.one F32.two) F32.two) F32.two).
    SF2R_const (F32.mul (F32.mul (F32.mul F32.one F32.two) F32.two) F32.two).
    rewrite Rabs_pos_eq; lra. }
  { change (amplitude st3)
      with (F32.mul (F32.mul (F32.mul F32.one persistence) persistence) persistence).
    SF2R_const (F32.mul (F32.mul (F32.mul F32.one persistence) persistence) persistence).
    lra. }
  change (amplitude st3)
    with (F32.mul (F32.mul (F32.mul F32.one persistence) persistence) persistence) in B4.
  SF2R_const (F32.mul (F32.mul (F32.mul F32.one persistence) persistence) persistence).
  set (st4 := octave_step x z st3) in *.
  (* octave 5 *)
  destruct (octave_step_bound x z st4 _ Gx Gz Bx Bz G4 B4) as (G5 & B5);
    try (split; reflexivity); try lra.
  { change (frequency st4)
      with (F32.mul (F32.mul (F32.mul (F32.mul F32.one F32.two) F32.two) F32.two) F32.two).
    SF2R_const (F32.mul (F32.mul (F32.mul (F32.mul F32.one F32.two) F32.two) F32.two)
                        F32.two).
    rewrite Rabs_pos_eq; lra. }
  { change (amplitude st4)
      with (F32.mul (F32.mul (F32.mul (F32.mul F32.one persistence) persistence)
                             persistence) persistence).
    SF2R_const (F32.mul (F32.mul (F32.mul (F32.mul F32.one persistence) persistence)
                                 persistence) persistence).
    lra. }
  change (amplitude st4)
    with (F32.mul (F32.mul (F32.mul (F32.mul F32.one persistence) persistence)
                           persistence) persistence) in B5.
  SF2R_const (F32.mul (F32.mul (F32.mul (F32.mul F32.one persistence) persistence)
                               persistence) persistence).
  split; [exact G5 | lra].
Qed.
End FractalBounds.

(** ** Heights *)

Lemma within_limit_real (x : float) :
  F32.valid x = true ->
  F32.leb (F32.opp COORD_LIMIT) x = true -> F32.leb x COORD_LIMIT = true ->
  good x /\ (Rabs (SF2R x) <= bpow 100)%R.
Proof.
  intros Vx Hlo Hhi.
  assert (Fx : F32.is_finite x = true)
    by (eapply leb_finite_between; [| |exact Hlo|exact Hhi]; reflexivity).
  split; [now split|].
  apply leb_real in Hlo; try reflexivity; auto.
  apply leb_real in Hhi; try reflexivity; auto.
  SF2R_const (F32.opp COORD_LIMIT). SF2R_const COORD_LIMIT.
  rewrite (bpow_IZR 100) by lia. change (2 ^ 100) with 1267650600228229401496703205376.
  apply Rabs_le. lra.
Qed.

Section Heights.
Context `{Platform}.

(** The noise coordinate of a world coordinate. *)
Lemma noise_coordinate_bound (x : float) (n : Z) :
  n = LANDSCAPE_WIDTH ->
  good x -> (Rabs (SF2R x) <= bpow 100)%R ->
  let c := F32.mul (F32.div (F32.add x (F32.div (F32.of_int n) F32.two))
                            (F32.of_int n)) TERRAIN_SCALE in
  good c /\ (Rabs (SF2R c) <= bpow 104)%R.
Proof.
  intros -> [Vx Fx] Bx. cbv zeta.
  pose proof u24_value as Hu. pose proof eta_small as He. unfold u24 in Hu.
  rewrite (bpow_IZR 100) in Bx by lia.
  change (2 ^ 100) with 1267650600228229401496703205376 in Bx.
  pose proof (Rabs_le_inv _ _ Bx) as Bx'.
  pose proof (add_Rnd x (F32.div (F32.of_int LANDSCAPE_WIDTH) F32.two)
                Vx eq_refl Fx eq_refl) as Ra.
  destruct (Rnd_abs _ _ (S754_finite false 8388608 78) Ra) as ([Va Fa] & Ba & _);
    [split; reflexivity | |].
  { SF2R_const (F32.div (F32.of_int LANDSCAPE_WIDTH) F32.two).
    SF2R_const (S754_finite false 8388608 78). apply Rabs_le. lra. }
  set (a := F32.add x _) in *.
  assert (Hnz : SF2R (F32.of_int LANDSCAPE_WIDTH) <> 0%R)
    by (SF2R_const (F32.of_int LANDSCAPE_WIDTH); lra).
  pose proof (div_Rnd a (F32.of_int LANDSCAPE_WIDTH) Va eq_refl Fa eq_refl Hnz) as Rd.
  SF2R_const (S754_finite false 8388608 78).
  pose proof (Rabs_le_inv _ _ Ba) as Ba'.
  destruct (Rnd_abs _ _ (S754_finite false 8388608 78) Rd) as ([Vd Fd] & Bd & _);
    [split; reflexivity | |].
  { SF2R_const (F32.of_int LANDSCAPE_WIDTH).
    SF2R_const (S754_finite false 8388608 78). apply Rabs_le. lra. }
  set (d := F32.div a _) in *.
  SF2R_const (S754_finite false 8388608 78).
  pose proof (Rabs_le_inv _ _ Bd) as Bd'.
  pose proof (mul_Rnd d TERRAIN_SCALE Vd eq_refl Fd eq_refl) as Rm.
  destruct (Rnd_abs _ _ (S754_finite false 8388608 81) Rm) as (G & B & _);
    [split; reflexivity | |].
  { SF2R_const TERRAIN_SCALE.
    SF2R_const (S754_finite false 8388608 81). apply Rabs_le. lra. }
  split; [exact G|].
  SF2R_const (S754_finite false 8388608 81).
  rewrite (bpow_IZR 104) by lia.
  change (2 ^ 104) with 20282409603651670423947251286016. lra.
Qed.

Lemma height_scale_bound (n : float) :
  good n -> (Rabs (SF2R n) <= 1788 / 1000)%R ->
  good (F32.mul n TERRAIN_HEIGHT) /\
  in_height_range (F32.mul n TERRAIN_HEIGHT) = true /\
  (Rabs (SF2R (F32.mul n TERRAIN_HEIGHT)) <= 25)%R.
Proof.
  intros [Vn Fn] Bn. pose proof (Rabs_le_inv _ _ Bn) as Bn'.
  pose proof (mul_Rnd n TERRAIN_HEIGHT Vn eq_refl Fn eq_refl) as Rh.
  destruct (Rnd_between _ _ (F32.opp (F32.of_int 25)) (F32.of_int 25) Rh) as [Fh Bh];
    try reflexivity.
  { SF2R_const TERRAIN_HEIGHT. SF2R_const (F32.opp (F32.of_int 25)).
    SF2R_const (F32.of_int 25). lra. }
  pose proof (rnd_valid _ _ Rh) as Vh.
  split; [now split|]. split.
  - unfold in_height_range. apply andb_true_iff.
    split; apply leb_real; auto; try reflexivity; lra.
  - SF2R_const (F32.opp (F32.of_int 25)). SF2R_const (F32.of_int 25).
    apply Rabs_le. lra.
Qed.
End Heights.

(** C2 (amended): for valid coordinates of magnitude at most 2^100 the
    height is a finite number inside [-25, 25]. *)
Theorem get_terrain_height_bounded `{Platform} (x z : float) :
  F32.valid x = true -> F32.valid z = true ->
  F32.leb (F32.opp COORD_LIMIT) x = true -> F32.leb x COORD_LIMIT = true ->
  F32.leb (F32.opp COORD_LIMIT) z = true -> F32.leb z COORD_LIMIT = true ->
  F32.is_finite (get_terrain_height x z) = true /\
  in_height_range (get_terrain_height x z) = true.
Proof.
  intros Vx Vz Hxl Hxh Hzl Hzh.
  destruct (within_limit_real x Vx Hxl Hxh) as (Gx & Bx).
  destruct (within_limit_real z Vz Hzl Hzh) as (Gz & Bz).
  unfold get_terrain_height.
  destruct (noise_coordinate_bound x LANDSCAPE_WIDTH eq_refl Gx Bx) as (Gcx & Bcx).
  destruct (noise_coordinate_bound z LANDSCAPE_DEPTH eq_refl Gz Bz) as (Gcz & Bcz).
  cbv zeta in Gcx, Bcx, Gcz, Bcz.
  destruct (fractal_noise_bound _ _ Gcx Gcz Bcx Bcz) as (Gn & Bn).
  destruct (height_scale_bound _ Gn Bn) as ([_ Fh] & Hr & _).
  split; assumption.
Qed.

Lemma get_terrain_height_bounded_witness :
  F32.is_finite (@get_terrain_height coarse_platform (F32.of_int 10) (F32.of_int (-20))) = true /\
  in_height_range (@get_terrain_height coarse_platform (F32.of_int 10) (F32.of_int (-20))) = true.
Proof.
  apply (@get_terrain_height_bounded coarse_platform); reflexivity.
Defined.

(** ** Square root *)

Lemma sqrt_gt_of_sq (a b : R) : (0 <= a)%R -> (a * a < b)%R -> (a < sqrt b)%R.
Proof.
  intros Ha Hab. rewrite <- (sqrt_square a Ha). apply sqrt_lt_1_alt. nra.
Qed.

Lemma sqrt_lt_of_sq (a b : R) : (0 <= a)%R -> (0 <= b)%R -> (b < a * a)%R -> (sqrt b < a)%R.
Proof.
  intros Ha Hb Hab. rewrite <- (sqrt_square a Ha). apply sqrt_lt_1_alt. lra.
Qed.

Lemma SFsqrt_core_binary_spec (m : positive) (e : Z) :
  let '(q, e', l) := SFsqrt_core_binary F32.prec F32.emax (Zpos m) e in
  0 <= q /\
  inbetween q e' (sqrt (IZR (Zpos m) * bpow e)) l /\
  e' <= fexp F32.prec F32.emax (Zdigits2 q + e').
Proof.
  unfold SFsqrt_core_binary. rewrite fexp32, !Z.div2_div.
  set (d := Zdigits2 (Zpos m)).
  set (e' := Z.min (Z.max ((d + e + 1) / 2 - 24) (-149)) (e / 2)).
  set (s := e - 2 * e').
  pose proof (Z.div_mod e 2 ltac:(lia)) as Hdm.
  pose proof (Z.mod_pos_bound e 2 ltac:(lia)) as Hmod.
  assert (Hs : 0 <= s) by (unfold s, e'; lia).
  set (m' := match s with Zpos _ => Z.shiftl (Zpos m) s | 0 => Zpos m | Zneg _ => 0 end).
  assert (Hm' : m' = Zpos m * 2 ^ s).
  { unfold m'. clearbody s. destruct s as [|p|p].
    - simpl. lia.
    - apply Z.shiftl_mul_pow2. lia.
    - lia. }
  clearbody m'.
  assert (H2s : 0 < 2 ^ s) by (apply Z.pow_pos_nonneg; lia).
  assert (Hm'pos : 0 < m') by nia.
  pose proof (Z.sqrtrem_spec m' ltac:(lia)) as Hsq.
  destruct (Z.sqrtrem m') as [q r]. destruct Hsq as [Hq Hr].
  assert (Hq0 : 0 <= q) by nia.
  split; [exact Hq0|].
  pose proof (bpow_gt_0 e') as Hp.
  assert (Hval : sqrt (IZR (Zpos m) * bpow e) = (sqrt (IZR m') * bpow e')%R).
  { transitivity (sqrt (IZR m' * (bpow e' * bpow e'))).
    - f_equal. rewrite Hm', mult_IZR, <- bpow_IZR by lia.
      replace e with (s + e' + e') at 1 by (unfold s; lia).
      rewrite !bpow_plus. ring.
    - rewrite sqrt_mult_alt by (apply IZR_le; lia).
      rewrite sqrt_square by lra. reflexivity. }
  rewrite Hval.
  assert (Eq : IZR m' = (IZR q * IZR q + IZR r)%R)
    by (rewrite Hq, plus_IZR, mult_IZR; reflexivity).
  assert (Rq0 : (0 <= IZR q)%R) by (apply IZR_le; lia).
  assert (Rr : (0 <= IZR r <= 2 * IZR q)%R).
  { split; [apply IZR_le; lia|]. rewrite <- mult_IZR. apply IZR_le; lia. }
  assert (Rm0 : (0 <= IZR m')%R) by (apply IZR_le; lia).
  split.
  - destruct (Z.eqb_spec r 0) as [E|E].
    + cbn [inbetween]. f_equal. rewrite Eq, E, Rplus_0_r. now apply sqrt_square.
    + assert (Hr1 : (1 <= IZR r)%R) by (apply IZR_le; lia).
      assert (Hlow : (IZR q < sqrt (IZR m'))%R) by (apply sqrt_gt_of_sq; lra).
      destruct (Z.leb_spec r q) as [Hle|Hgt]; cbn [inbetween].
      * apply IZR_le in Hle.
        assert (sqrt (IZR m') < IZR q + / 2)%R by (apply sqrt_lt_of_sq; nra).
        split; nra.
      * assert (Hgt' : (IZR q + 1 <= IZR r)%R)
          by (rewrite <- plus_IZR; apply IZR_le; lia).
        assert (IZR q + / 2 < sqrt (IZR m'))%R by (apply sqrt_gt_of_sq; nra).
        assert (sqrt (IZR m') < IZR q + 1)%R by (apply sqrt_lt_of_sq; nra).
        split; nra.
  - rewrite fexp32.
    destruct (Z_le_gt_dec e' (-149)) as [Hsub|Hn]; [lia|].
    assert (He' : e' <= (d + e + 1) / 2 - 24) by (unfold e' in *; lia).
    pose proof (Z.div_mod (d + e + 1) 2 ltac:(lia)) as Hdm2.
    pose proof (Z.mod_pos_bound (d + e + 1) 2 ltac:(lia)) as Hmod2.
    destruct (digits2_pos_bounds m) as [Hl1 _].
    fold (Zdigits2 (Zpos m)) in Hl1. fold d in Hl1.
    assert (Hd : 0 < d) by (unfold d; simpl; lia).
    assert (Hbig : 2 ^ 46 <= m').
    { rewrite Hm'.
      assert (2 ^ 46 <= 2 ^ (d - 1) * 2 ^ s).
      { rewrite <- Z.pow_add_r by lia. apply Z.pow_le_mono_r; unfold s; lia. }
      nia. }
    assert (Hq23 : 2 ^ 23 <= q).
    { destruct (Z_lt_le_dec q (2 ^ 23)) as [Hlt|]; [|assumption].
      assert (q + 1 <= 2 ^ 23) by lia.
      assert ((q + 1) * (q + 1) <= 2 ^ 23 * 2 ^ 23) by (apply Z.mul_le_mono_nonneg; lia).
      change (2 ^ 23 * 2 ^ 23) with (2 ^ 46) in *. nia. }
    apply Zdigits2_le in Hq23; lia.
Qed.

Lemma sqrt_Rnd (a : float) :
  F32.valid a = true -> F32.is_finite a = true -> (0 <= SF2R a)%R ->
  Rnd (sqrt (SF2R a)) (F32.sqrt a).
Proof.
  intros Va Fa Ha. destruct a as [s|s| |s m e]; try discriminate.
  - change (SF2R (S754_zero s)) with 0%R. rewrite sqrt_0. apply Rnd_zero_result.
  - assert (Hs : s = false).
    { destruct s; [|reflexivity]. rewrite SF2R_finite in Ha. unfold sign_factor in Ha.
      pose proof (bpow_gt_0 e). assert (0 < IZR (Zpos m))%R by (apply IZR_lt; lia). nra. }
    subst s. unfold F32.sqrt, SFsqrt.
    pose proof (SFsqrt_core_binary_spec m e) as Hcore.
    destruct (SFsqrt_core_binary F32.prec F32.emax (Zpos m) e) as [[q e'] l].
    destruct Hcore as (Hq & Hin & Hpre).
    replace (sqrt (SF2R (S754_finite false m e)))
      with (sign_factor false * sqrt (IZR (Zpos m) * bpow e))%R.
    + now apply binary_round_aux_Rnd.
    + rewrite SF2R_finite. unfold sign_factor. rewrite !Rmult_1_l. reflexivity.
Qed.

(** ** Accuracy of [dot], [length] and [normalize] *)

Lemma sq_le_inv (a b : R) : (0 <= b)%R -> (a * a <= b * b)%R -> (a <= b)%R.
Proof. intros Hb H. destruct (Rle_lt_dec a b); [assumption | nra]. Qed.

Lemma Rnd_abs_err (x : R) (r B : spec_float) :
  Rnd x r -> good B -> (Rabs x <= SF2R B)%R ->
  good r /\ (Rabs (SF2R r - x) <= Rabs x * / 16777216 + eta)%R.
Proof.
  intros HR GB Hx. destruct (Rnd_abs x r B HR GB Hx) as (G & _ & E).
  split; [exact G|]. pose proof u24_value as Hu. unfold u24 in Hu.
  now rewrite Hu in E.
Qed.

Lemma square_Rnd (a : float) :
  good a -> (Rabs (SF2R a) <= 64)%R ->
  good (F32.mul a a) /\
  (Rabs (SF2R (F32.mul a a) - SF2R a * SF2R a) <=
   SF2R a * SF2R a * / 16777216 + eta)%R /\
  (0 <= SF2R a * SF2R a <= 4096)%R.
Proof.
  intros [Va Fa] Ba. pose proof (Rabs_le_inv _ _ Ba) as Ba'.
  assert (Hsq : (0 <= SF2R a * SF2R a <= 4096)%R) by nra.
  pose proof (mul_Rnd a a Va Va Fa Fa) as Rm.
  destruct (Rnd_abs_err _ _ (F32.of_int 4096) Rm) as (G & E); [split; reflexivity | |].
  { SF2R_const (F32.of_int 4096). rewrite Rabs_pos_eq; lra. }
  rewrite (Rabs_pos_eq (SF2R a * SF2R a)) in E by lra.
  auto.
Qed.

Lemma dot_self_accuracy (v : float3) :
  tame v -> (/ 4 <= norm2 v)%R ->
  good (simd.dot v v) /\
  (Rabs (SF2R (simd.dot v v) - norm2 v) <= norm2 v * / 4000000)%R /\
  (norm2 v <= 12288)%R.
Proof.
  intros ((Gx & Bx) & (Gy & By) & (Gz & Bz)) HM.
  unfold simd.dot, norm2 in *.
  destruct (square_Rnd _ Gx Bx) as ([V1 F1] & E1 & S1).
  destruct (square_Rnd _ Gy By) as ([V2 F2] & E2 & S2).
  destruct (square_Rnd _ Gz Bz) as ([V3 F3] & E3 & S3).
  set (p1 := F32.mul (f3x v) (f3x v)) in *.
  set (p2 := F32.mul (f3y v) (f3y v)) in *.
  set (p3 := F32.mul (f3z v) (f3z v)) in *.
  set (XX := (SF2R (f3x v) * SF2R (f3x v))%R) in *.
  set (YY := (SF2R (f3y v) * SF2R (f3y v))%R) in *.
  set (ZZ := (SF2R (f3z v) * SF2R (f3z v))%R) in *.
  pose proof eta_small as He.
  apply Rabs_le_inv in E1. apply Rabs_le_inv in E2. apply Rabs_le_inv in E3.
  pose proof (add_Rnd p1 p2 V1 V2 F1 F2) as Rs.
  destruct (Rnd_abs_err _ _ (F32.of_int 16384) Rs) as ([Vs Fs] & Es);
    [split; reflexivity | |].
  { SF2R_const (F32.of_int 16384). apply Rabs_le. lra. }
  set (s1 := F32.add p1 p2) in *.
  assert (Ws : (Rabs (SF2R p1 + SF2R p2) <= (XX + YY) * (1 + / 16777216) + 2 * eta)%R)
    by (apply Rabs_le; lra).
  pose proof (Rabs_pos (SF2R p1 + SF2R p2)) as Ws0.
  apply Rabs_le_inv in Es.
  pose proof (add_Rnd s1 p3 Vs V3 Fs F3) as Rd.
  destruct (Rnd_abs_err _ _ (F32.of_int 16384) Rd) as (Gd & Ed);
    [split; reflexivity | |].
  { SF2R_const (F32.of_int 16384). apply Rabs_le. lra. }
  assert (Wd : (Rabs (SF2R s1 + SF2R p3) <=
                (XX + YY + ZZ) * (1 + / 8000000) + 5 * eta)%R)
    by (apply Rabs_le; lra).
  pose proof (Rabs_pos (SF2R s1 + SF2R p3)) as Wd0.
  apply Rabs_le_inv in Ed.
  split; [exact Gd|]. split; [apply Rabs_le; lra | lra].
Qed.

Lemma length_accuracy (v : float3) :
  tame v -> (/ 4 <= norm2 v)%R ->
  good (simd.length v) /\
  ((1 - / 4000000) * sqrt (norm2 v) <= SF2R (simd.length v)
     <= (1 + / 4000000) * sqrt (norm2 v))%R /\
  (/ 2 <= sqrt (norm2 v) <= 111)%R.
Proof.
  intros Hv HM. destruct (dot_self_accuracy v Hv HM) as ([Vd Fd] & Ed & HM').
  unfold simd.length. set (D := simd.dot v v) in *. set (M := norm2 v) in *.
  apply Rabs_le_inv in Ed. pose proof eta_small as He.
  assert (HD0 : (0 <= SF2R D)%R) by lra.
  set (w := sqrt (SF2R D)). set (N := sqrt M).
  assert (Ew : (w * w = SF2R D)%R) by (apply sqrt_sqrt; lra).
  assert (EN : (N * N = M)%R) by (apply sqrt_sqrt; lra).
  assert (Hw0 : (0 <= w)%R) by apply sqrt_pos.
  assert (HN0 : (0 <= N)%R) by apply sqrt_pos.
  assert (HN : (/ 2 <= N <= 111)%R).
  { split.
    - apply sq_le_inv; [exact HN0 | lra].
    - apply sq_le_inv; lra. }
  assert (Hwu : (w <= N * (1 + / 7000000))%R).
  { apply sq_le_inv; [nra|]. rewrite Ew.
    replace (N * (1 + / 7000000) * (N * (1 + / 7000000)))%R
      with (M * ((1 + / 7000000) * (1 + / 7000000)))%R by (rewrite <- EN; ring).
    nra. }
  assert (Hwl : (N * (1 - / 7000000) <= w)%R).
  { apply sq_le_inv; [exact Hw0|]. rewrite Ew.
    replace (N * (1 - / 7000000) * (N * (1 - / 7000000)))%R
      with (M * ((1 - / 7000000) * (1 - / 7000000)))%R by (rewrite <- EN; ring).
    nra. }
  pose proof (sqrt_Rnd D Vd Fd HD0) as Rs. fold w in Rs.
  destruct (Rnd_abs_err _ _ (F32.of_int 128) Rs) as (Gs & Es); [split; reflexivity | |].
  { SF2R_const (F32.of_int 128). rewrite Rabs_pos_eq by exact Hw0. lra. }
  rewrite (Rabs_pos_eq w Hw0) in Es. apply Rabs_le_inv in Es.
  split; [exact Gs|]. split; [|exact HN]. lra.
Qed.

Lemma square_perturb (a n : R) :
  (Rabs a <= 1001 / 1000)%R ->
  (Rabs (n - a) <= Rabs a * / 16777216 + eta)%R ->
  (a * a * (1 - / 4000000) - 4 * eta <= n * n <= a * a * (1 + / 4000000) + 4 * eta)%R.
Proof.
  intros Ha He. pose proof eta_small as Hs.
  set (A := Rabs a) in *. set (e := (n - a)%R) in *.
  assert (HA0 : (0 <= A)%R) by apply Rabs_pos.
  assert (HAA : (A * A = a * a)%R).
  { unfold A. rewrite <- Rabs_mult. apply Rabs_pos_eq. nra. }
  set (d := (A * / 16777216 + eta)%R) in *.
  assert (Hd0 : (0 <= d)%R) by (unfold d; lra).
  apply Rabs_le_inv in He.
  assert (Hee : (e * e <= d * d)%R) by nra.
  assert (Hae : (- (A * d) <= a * e <= A * d)%R).
  { pose proof (Rabs_le_inv a A ltac:(unfold A; lra)) as Ha'.
    assert (Rabs (a * e) <= A * d)%R.
    { rewrite Rabs_mult. fold A. apply Rmult_le_compat; try apply Rabs_pos; try lra.
      apply Rabs_le. lra. }
    now apply Rabs_le_inv. }
  assert (Hn : (n * n = a * a + 2 * (a * e) + e * e)%R) by (unfold e; ring).
  assert (HAd : (A * d = a * a * / 16777216 + A * eta)%R) by (unfold d; nra).
  assert (HAe : (A * eta <= 1001 / 1000 * eta)%R) by (apply Rmult_le_compat_r; lra).
  assert (Hdd : (d * d <= a * a * / 100000000 + eta)%R).
  { unfold d.
    replace ((A * / 16777216 + eta) * (A * / 16777216 + eta))%R
      with (A * A * (/ 16777216 * / 16777216) + 2 * / 16777216 * (A * eta) + eta * eta)%R
      by ring.
    rewrite HAA. assert (eta * eta <= eta * / 1000000000000)%R by nra.
    assert (0 <= a * a)%R by nra. nra. }
  assert (0 <= e * e)%R by nra.
  assert (0 <= a * a)%R by nra.
  split; lra.
Qed.

Lemma normalize_accuracy (v : float3) :
  tame v -> (/ 4 <= norm2 v)%R ->
  tame (simd.normalize v) /\
  (1 - / 500000 <= norm2 (simd.normalize v) <= 1 + / 500000)%R /\
  ((1 <= SF2R (f3y v))%R -> (/ 128 <= SF2R (f3y (simd.normalize v)))%R).
Proof.
  intros Hv HM. destruct (length_accuracy v Hv HM) as ([Vs Fs] & Bs & HN).
  destruct Hv as ((Gx & Bx) & (Gy & By) & (Gz & Bz)).
  unfold simd.normalize, simd.scale. cbn [f3x f3y f3z].
  change (F32.sqrt (simd.dot v v)) with (simd.length v).
  set (S := simd.length v) in *. set (N := sqrt (norm2 v)) in *.
  pose proof eta_small as He.
  assert (EN : (N * N = norm2 v)%R) by (apply sqrt_sqrt; lra).
  assert (HS : (49 / 100 <= SF2R S <= 112)%R) by lra.
  (* the reciprocal of the length *)
  assert (Hnz : SF2R S <> 0%R) by lra.
  pose proof (div_Rnd F32.one S eq_refl Vs eq_refl Fs Hnz) as Rr.
  SF2R_const F32.one. replace (1 * 8388608 / 8388608 / SF2R S)%R with (/ SF2R S)%R in Rr
    by (field; exact Hnz).
  set (iS := (/ SF2R S)%R) in *.
  assert (HiS : (iS * SF2R S = 1)%R) by (unfold iS; field; exact Hnz).
  assert (BiS : (/ 112 <= iS <= 100 / 49)%R).
  { unfold iS. split.
    - apply Rinv_le_contravar; lra.
    - replace (100 / 49)%R with (/ (49 / 100))%R by field.
      apply Rinv_le_contravar; lra. }
  destruct (Rnd_abs_err _ _ (F32.of_int 4) Rr) as ([Vr Fr] & Er);
    [split; reflexivity | |].
  { SF2R_const (F32.of_int 4). rewrite Rabs_pos_eq; lra. }
  rewrite (Rabs_pos_eq iS) in Er by lra. apply Rabs_le_inv in Er.
  set (r := F32.div (S754_finite false 8388608 (-23)) S) in *.
  assert (Hr : (/ 128 <= SF2R r <= 4)%R) by lra.
  assert (Ht : (1 - / 10000000 <= SF2R r * SF2R S <= 1 + / 10000000)%R).
  { assert (H1 : ((SF2R r - iS) * SF2R S <= (iS * / 16777216 + eta) * SF2R S)%R)
      by (apply Rmult_le_compat_r; lra).
    assert (H2 : (- (iS * / 16777216 + eta) * SF2R S <= (SF2R r - iS) * SF2R S)%R)
      by (apply Rmult_le_compat_r; lra).
    assert (H3 : (eta * SF2R S <= eta * 112)%R) by (apply Rmult_le_compat_l; lra).
    assert (Q1 : ((SF2R r - iS) * SF2R S = SF2R r * SF2R S - 1)%R).
    { replace ((SF2R r - iS) * SF2R S)%R with (SF2R r * SF2R S - iS * SF2R S)%R by ring.
      now rewrite HiS. }
    assert (Q2 : ((iS * / 16777216 + eta) * SF2R S = / 16777216 + eta * SF2R S)%R).
    { replace ((iS * / 16777216 + eta) * SF2R S)%R
        with (iS * SF2R S * / 16777216 + eta * SF2R S)%R by ring.
      rewrite HiS. ring. }
    replace (- (iS * / 16777216 + eta) * SF2R S)%R
      with (- ((iS * / 16777216 + eta) * SF2R S))%R in H2 by ring.
    rewrite Q1, Q2 in *. lra. }
  set (rho := (SF2R r * N)%R).
  assert (Hrho : (1 - / 2000000 <= rho <= 1 + / 2000000)%R).
  { assert (H1 : (SF2R r * ((1 - / 4000000) * N) <= SF2R r * SF2R S)%R)
      by (apply Rmult_le_compat_l; lra).
    assert (H2 : (SF2R r * SF2R S <= SF2R r * ((1 + / 4000000) * N))%R)
      by (apply Rmult_le_compat_l; lra).
    unfold rho. lra. }
  (* the lanes *)
  assert (Hlane : forall c : float, good c -> (Rabs (SF2R c) <= 64)%R ->
            (SF2R c * SF2R c <= norm2 v)%R ->
            let a := (SF2R c * SF2R r)%R in
            (good (F32.mul c r) /\ (Rabs (SF2R (F32.mul c r)) <= 64)%R) /\
            (a * a * (1 - / 4000000) - 4 * eta <= SF2R (F32.mul c r) * SF2R (F32.mul c r)
               <= a * a * (1 + / 4000000) + 4 * eta)%R /\
            (Rabs (SF2R (F32.mul c r) - a) <= Rabs a * / 16777216 + eta)%R).
  { intros c [Vc Fc] Bc Hc a.
    pose proof (mul_Rnd c r Vc Vr Fc Fr) as Rn. fold a in Rn.
    assert (Hcn : (Rabs (SF2R c) <= N)%R).
    { apply sq_le_inv; [lra|]. rewrite <- Rabs_mult, EN.
      rewrite Rabs_pos_eq; [exact Hc | nra]. }
    assert (Ha : (Rabs a <= rho)%R).
    { unfold a, rho. rewrite Rabs_mult, (Rabs_pos_eq (SF2R r)) by lra.
      rewrite (Rmult_comm (SF2R r) N). apply Rmult_le_compat_r; lra. }
    destruct (Rnd_abs_err _ _ F32.two Rn) as (Gn & En); [split; reflexivity | |].
    { SF2R_const F32.two. lra. }
    pose proof (square_perturb a _ ltac:(lra) En) as Hsq.
    split; [split; [exact Gn|]|split; [exact Hsq | exact En]].
    pose proof (Rabs_pos a). pose proof (Rabs_le_inv _ _ En).
    pose proof (Rabs_le_inv a rho Ha). apply Rabs_le. lra. }
  assert (Hx2 : (SF2R (f3x v) * SF2R (f3x v) <= norm2 v)%R) by (unfold norm2; nra).
  assert (Hy2 : (SF2R (f3y v) * SF2R (f3y v) <= norm2 v)%R) by (unfold norm2; nra).
  assert (Hz2 : (SF2R (f3z v) * SF2R (f3z v) <= norm2 v)%R) by (unfold norm2; nra).
  destruct (Hlane _ Gx Bx Hx2) as (Tx & Qx & _).
  destruct (Hlane _ Gy By Hy2) as (Ty & Qy & Ey).
  destruct (Hlane _ Gz Bz Hz2) as (Tz & Qz & _).
  cbv zeta in Qx, Qy, Qz, Ey.
  split; [unfold tame; cbn [f3x f3y f3z]; tauto|]. split.
  - unfold norm2 at 1 2. cbn [f3x f3y f3z].
    assert (Esum : (SF2R (f3x v) * SF2R r * (SF2R (f3x v) * SF2R r) +
                    SF2R (f3y v) * SF2R r * (SF2R (f3y v) * SF2R r) +
                    SF2R (f3z v) * SF2R r * (SF2R (f3z v) * SF2R r) = rho * rho)%R).
    { unfold rho. replace (SF2R r * N * (SF2R r * N))%R
        with (SF2R r * SF2R r * (N * N))%R by ring.
      rewrite EN. unfold norm2. ring. }
    assert (Hrr : (1 - / 900000 <= rho * rho <= 1 + / 900000)%R) by nra.
    lra.
  - intros Hy. cbn [f3y].
    assert (Hya : (/ 128 * (1 + / 1000) <= SF2R (f3y v) * SF2R r)%R).
    { assert (1 * SF2R r <= SF2R (f3y v) * SF2R r)%R
        by (apply Rmult_le_compat_r; lra).
      lra. }
    pose proof (Rabs_le_inv _ _ Ey) as Ey'.
    rewrite (Rabs_pos_eq (SF2R (f3y v) * SF2R r)) in Ey' by lra. lra.
Qed.

(** ** Heights and normals of the mesh *)

Section MeshNormals.
Context `{Platform}.

Lemma grid_coordinate_bound (i n : Z) :
  0 <= i < n -> n <= Int.max_signed ->
  let c := F32.mul (F32.div (F32.of_int i) (F32.of_int n)) TERRAIN_SCALE in
  good c /\ (Rabs (SF2R c) <= bpow 104)%R.
Proof.
  intros Hi Hn. cbv zeta. unfold Int.max_signed in Hn.
  assert (Ri : (0 <= IZR i <= 2147483648)%R).
  { split; [apply IZR_le; lia|]. apply IZR_le. lia. }
  assert (Rn : (1 <= IZR n <= 2147483648)%R).
  { split; apply IZR_le; lia. }
  destruct (Rnd_between _ _ F32.zero (F32.of_int (2 ^ 31)) (of_int_Rnd i)) as [Fi Bi];
    try reflexivity.
  { SF2R_const F32.zero. SF2R_const (F32.of_int (2 ^ 31)). lra. }
  destruct (Rnd_between _ _ F32.one (F32.of_int (2 ^ 31)) (of_int_Rnd n)) as [Fn Bn];
    try reflexivity.
  { SF2R_const F32.one. SF2R_const (F32.of_int (2 ^ 31)). lra. }
  SF2R_const F32.zero. SF2R_const F32.one. SF2R_const (F32.of_int (2 ^ 31)).
  pose proof (rnd_valid _ _ (of_int_Rnd i)) as Vi.
  pose proof (rnd_valid _ _ (of_int_Rnd n)) as Vn.
  set (fi := F32.of_int i) in *. set (fn := F32.of_int n) in *.
  assert (Hnz : SF2R fn <> 0%R) by lra.
  pose proof (div_Rnd fi fn Vi Vn Fi Fn Hnz) as Rq.
  assert (Hq : (0 <= SF2R fi / SF2R fn <= 2147483648)%R).
  { assert (0 < / SF2R fn <= 1)%R.
    { split; [apply Rinv_0_lt_compat; lra|].
      rewrite <- Rinv_1. apply Rinv_le_contravar; lra. }
    unfold Rdiv. split; nra. }
  destruct (Rnd_between _ _ F32.zero (F32.of_int (2 ^ 31)) Rq) as [Fq Bq];
    try reflexivity.
  { SF2R_const F32.zero. SF2R_const (F32.of_int (2 ^ 31)). lra. }
  SF2R_const F32.zero. SF2R_const (F32.of_int (2 ^ 31)).
  pose proof (mul_Rnd _ TERRAIN_SCALE (rnd_valid _ _ Rq) eq_refl Fq eq_refl) as Rm.
  destruct (Rnd_abs _ _ (F32.of_int (2 ^ 34)) Rm) as (G & B & _);
    [split; reflexivity | |].
  { SF2R_const TERRAIN_SCALE. SF2R_const (F32.of_int (2 ^ 34)).
    apply Rabs_le. lra. }
  split; [exact G|]. SF2R_const (F32.of_int (2 ^ 34)).
  rewrite (bpow_IZR 104) by lia.
  change (2 ^ 104) with 20282409603651670423947251286016. lra.
Qed.

Lemma grid_height_bound (width depth x z : Z) :
  0 <= x < width -> 0 <= z < depth ->
  width <= Int.max_signed -> depth <= Int.max_signed ->
  good (grid_height width depth x z) /\
  in_height_range (grid_height width depth x z) = true /\
  (Rabs (SF2R (grid_height width depth x z)) <= 25)%R.
Proof.
  intros Hx Hz Hw Hd. unfold grid_height.
  destruct (grid_coordinate_bound x width Hx Hw) as (Gx & Bx).
  destruct (grid_coordinate_bound z depth Hz Hd) as (Gz & Bz).
  cbv zeta in Gx, Bx, Gz, Bz.
  destruct (fractal_noise_bound _ _ Gx Gz Bx Bz) as (Gn & Bn).
  now apply height_scale_bound.
Qed.

Lemma height_difference (a b : float) :
  good a -> good b -> (Rabs (SF2R a) <= 25)%R -> (Rabs (SF2R b) <= 25)%R ->
  good (F32.sub a b) /\ (Rabs (SF2R (F32.sub a b)) <= 64)%R.
Proof.
  intros [Va Fa] [Vb Fb] Ba Bb.
  apply Rabs_le_inv in Ba. apply Rabs_le_inv in Bb.
  destruct (Rnd_abs _ _ (F32.of_int 50) (sub_Rnd a b Va Vb Fa Fb)) as (G & B & _);
    [split; reflexivity | |].
  - SF2R_const (F32.of_int 50). apply Rabs_le. lra.
  - split; [exact G|]. SF2R_const (F32.of_int 50). lra.
Qed.

Lemma grid_slope_tame (width depth x z : Z) :
  0 <= x < width -> 0 <= z < depth ->
  width <= Int.max_signed -> depth <= Int.max_signed ->
  tame (grid_slope width depth x z) /\
  SF2R (f3y (grid_slope width depth x z)) = 2%R /\
  (4 <= norm2 (grid_slope width depth x z))%R.
Proof.
  intros Hx Hz Hw Hd. unfold grid_slope. cbv zeta.
  assert (Hxl : 0 <= (if 0 <? x then x - 1 else x) < width)
    by (destruct (Z.ltb_spec 0 x); lia).
  assert (Hxr : 0 <= (if x <? width - 1 then x + 1 else x) < width)
    by (destruct (Z.ltb_spec x (width - 1)); lia).
  assert (Hzd : 0 <= (if 0 <? z then z - 1 else z) < depth)
    by (destruct (Z.ltb_spec 0 z); lia).
  assert (Hzu : 0 <= (if z <? depth - 1 then z + 1 else z) < depth)
    by (destruct (Z.ltb_spec z (depth - 1)); lia).
  destruct (grid_height_bound width depth _ z Hxl Hz Hw Hd) as (GL & _ & BL).
  destruct (grid_height_bound width depth _ z Hxr Hz Hw Hd) as (GR & _ & BR).
  destruct (grid_height_bound width depth x _ Hx Hzd Hw Hd) as (GD & _ & BD).
  destruct (grid_height_bound width depth x _ Hx Hzu Hw Hd) as (GU & _ & BU).
  destruct (height_difference _ _ GL GR BL BR) as (Gdx & Bdx).
  destruct (height_difference _ _ GD GU BD BU) as (Gdz & Bdz).
  assert (E2 : SF2R F32.two = 2%R) by (SF2R_const F32.two; lra).
  split; [|split].
  - unfold tame. cbn [f3x f3y f3z].
    split; [split; assumption|]. split; [|split; assumption].
    split; [split; reflexivity|]. rewrite E2, Rabs_pos_eq; lra.
  - exact E2.
  - unfold norm2. cbn [f3x f3y f3z]. rewrite E2.
    match goal with |- (4 <= ?a * ?a + _ + ?b * ?b)%R =>
      assert (0 <= a * a)%R by nra; assert (0 <= b * b)%R by nra end.
    lra.
Qed.

Lemma mesh_slope (width depth x z : Z) :
  0 <= x < width -> 0 <= z < depth ->
  slope width depth (vertex_pass width depth) x z = grid_slope width depth x z.
Proof.
  intros Hx Hz. unfold slope, grid_slope, height_of.
  assert (Hxl : 0 <= (if 0 <? x then x - 1 else x) < width)
    by (destruct (Z.ltb_spec 0 x); lia).
  assert (Hxr : 0 <= (if x <? width - 1 then x + 1 else x) < width)
    by (destruct (Z.ltb_spec x (width - 1)); lia).
  assert (Hzd : 0 <= (if 0 <? z then z - 1 else z) < depth)
    by (destruct (Z.ltb_spec 0 z); lia).
  assert (Hzu : 0 <= (if z <? depth - 1 then z + 1 else z) < depth)
    by (destruct (Z.ltb_spec z (depth - 1)); lia).
  rewrite !vertex_pass_nth by assumption. reflexivity.
Qed.

Lemma mesh_normal (width depth x z : Z) :
  0 < width -> 0 < depth -> 0 <= x < width -> 0 <= z < depth ->
  normal (vec_get (vertices (create_landscape width depth)) (z * width + x)) =
  simd.normalize (grid_slope width depth x z).
Proof.
  intros Hw Hd Hx Hz. unfold create_landscape. cbn [vertices].
  destruct (normal_pass_done width depth (vertex_pass width depth) Hw Hd
              (vertex_pass_length width depth)) as (_ & _ & Hn).
  rewrite Hn by (auto; lia). now rewrite mesh_slope.
Qed.
End MeshNormals.

(** C8: with 32-bit wrap-around the masked hash lies in [0, 2^31 - 1], so
    1 - hash/2^30 lies in (-1, 1], and the float [simple_noise] returns is
    a finite number in [-1, 1]. *)
Theorem simple_noise_range (x z : Z) :
  0 <= simple_noise_hash x z <= 2 ^ 31 - 1 /\
  (-1 < 1 - IZR (simple_noise_hash x z) / 1073741824 <= 1)%R /\
  F32.is_finite (simple_noise x z) = true /\
  F32.leb (F32.opp F32.one) (simple_noise x z) = true /\
  F32.leb (simple_noise x z) F32.one = true.
Proof.
  pose proof (simple_noise_hash_range x z) as Hh.
  destruct (simple_noise_Rnd_range x z) as (V & F & B).
  split; [exact Hh|]. split.
  - assert (H1 : (0 <= IZR (simple_noise_hash x z))%R) by (apply IZR_le; lia).
    assert (H2 : (IZR (simple_noise_hash x z) <= IZR (2 ^ 31 - 1))%R) by (apply IZR_le; lia).
    rewrite minus_IZR in H2. change (2 ^ 31) with 2147483648 in H2. lra.
  - split; [exact F|].
    split; apply leb_real; auto; try reflexivity.
    + SF2R_const (F32.opp F32.one). lra.
    + SF2R_const F32.one. lra.
Qed.

(** The closed lower end is reached: this hash is within 64 of 2^31, its
    conversion to float rounds up to 2^31, and the noise is exactly -1. *)
Example simple_noise_reaches_lower_end :
  simple_noise_hash 2676098 0 = 2147483631 /\
  simple_noise 2676098 0 = F32.opp F32.one.
Proof. split; vm_compute; reflexivity. Qed.

Lemma sqrt_near_one (q : R) :
  (1 - / 500000 <= q <= 1 + / 500000)%R ->
  (Rabs (sqrt q - 1) <= / 500000)%R.
Proof.
  intros Hq. assert (Hs : (0 <= sqrt q)%R) by apply sqrt_pos.
  assert (Eq : (sqrt q * sqrt q = q)%R) by (apply sqrt_sqrt; lra).
  apply Rabs_le. split.
  - assert (1 - / 500000 <= sqrt q)%R by (apply sq_le_inv; nra). lra.
  - assert (sqrt q <= 1 + / 500000)%R by (apply sq_le_inv; nra). lra.
Qed.

(** C7, as stated for every positive width and depth, fails: in a grid of
    46341 x 46341 cells the vertex of the last cell, x = z = 46340, is at
    position 2147488280 of the vertices, above INT_MAX = 2147483647.  The
    source stores the normal of that cell through
    [landscape.vertices[z * width + x]] with an [int] index: the addition
    overflows, which is undefined behaviour, and 32-bit wrap-around yields
    -2147479016, no position of the vector, so the code does not give that
    vertex the normal the claim describes. *)
Lemma create_landscape_normals_beyond_int :
  0 < 46341 <= Int.max_signed /\ 0 <= 46340 < 46341 /\
  ~ (46341 * 46341 <= Int.max_signed) /\
  46340 * 46341 + 46340 = 2147488280 /\
  Int.in_range (46340 * 46341 + 46340) = false /\
  int_index 46341 46340 46340 = -2147479016 /\
  ~ (0 <= int_index 46341 46340 46340 <
     Z.of_nat (length (vertices (@create_landscape coarse_platform 46341 46341)))).
Proof.
  assert (E : int_index 46341 46340 46340 = -2147479016) by reflexivity.
  split; [unfold Int.max_signed; lia|]. split; [lia|].
  split; [unfold Int.max_signed; lia|]. split; [lia|].
  split; [reflexivity|]. split; [exact E|].
  rewrite E. lia.
Qed.

(** C7 (amended): on a grid with width*depth <= INT_MAX the [int] index of
    every cell is its position z*width+x in the vertices, and every vertex
    normal is [normalize (heightL - heightR, 2, heightD - heightU)] over the
    edge-clamped neighbours of the stored heights; its Euclidean length, and
    the length [simd::length] computes for it, are within 1e-5 of 1. *)
Theorem create_landscape_normals `{Platform} (width depth x z : Z) :
  0 < width <= Int.max_signed -> 0 < depth <= Int.max_signed ->
  width * depth <= Int.max_signed ->
  0 <= x < width -> 0 <= z < depth ->
  let mesh := create_landscape width depth in
  let height := fun x z => f3y (position (vec_get (vertices mesh) (z * width + x))) in
  let heightL := height (if 0 <? x then x - 1 else x) z in
  let heightR := height (if x <? width - 1 then x + 1 else x) z in
  let heightD := height x (if 0 <? z then z - 1 else z) in
  let heightU := height x (if z <? depth - 1 then z + 1 else z) in
  let n := normal (vec_get (vertices mesh) (z * width + x)) in
  int_index width x z = z * width + x /\
  n = simd.normalize
        (mk_float3 (F32.sub heightL heightR) F32.two (F32.sub heightD heightU)) /\
  (Rabs (sqrt (norm2 n) - 1) <= / 100000)%R /\
  F32.is_finite (simd.length n) = true /\
  (Rabs (SF2R (simd.length n) - 1) <= / 100000)%R.
Proof.
  intros Hw Hd Hb Hx Hz mesh height heightL heightR heightD heightU n.
  split; [apply (int_index_exact width depth x z Hx Hz Hb)|].
  assert (Hxl : 0 <= (if 0 <? x then x - 1 else x) < width)
    by (destruct (Z.ltb_spec 0 x); lia).
  assert (Hxr : 0 <= (if x <? width - 1 then x + 1 else x) < width)
    by (destruct (Z.ltb_spec x (width - 1)); lia).
  assert (Hzd : 0 <= (if 0 <? z then z - 1 else z) < depth)
    by (destruct (Z.ltb_spec 0 z); lia).
  assert (Hzu : 0 <= (if z <? depth - 1 then z + 1 else z) < depth)
    by (destruct (Z.ltb_spec z (depth - 1)); lia).
  assert (En : n = simd.normalize (grid_slope width depth x z))
    by (apply mesh_normal; lia).
  assert (Es : mk_float3 (F32.sub heightL heightR) F32.two (F32.sub heightD heightU) =
               grid_slope width depth x z).
  { unfold heightL, heightR, heightD, heightU, height, mesh, grid_slope.
    rewrite !create_landscape_position by assumption. reflexivity. }
  rewrite Es. split; [exact En|].
  destruct (grid_slope_tame width depth x z) as (Ht & _ & Hn4); try lia.
  destruct (normalize_accuracy _ Ht ltac:(lra)) as (Tn & Qn & _).
  rewrite <- En in Tn, Qn.
  pose proof (sqrt_near_one _ Qn) as Hs.
  destruct (length_accuracy n Tn ltac:(lra)) as ([_ Fl] & Bl & _).
  split; [lra|]. split; [exact Fl|].
  apply Rabs_le_inv in Hs. apply Rabs_le. lra.
Qed.

(** C9, as stated for every mesh, fails: in a grid of 46341 x 46341 cells
    the cell x = 41708, z = 46339 has its upper neighbour in row 46340, at
    position 46340 * 46341 + 41708 = 2147483648 = INT_MAX + 1.  The product
    is still a value of [int], the addition in
    [landscape.vertices[(z < depth - 1 ? z + 1 : z) * width + x]] is the
    first of the normal pass to overflow, which is undefined behaviour, and
    32-bit wrap-around yields INT_MIN: the height that enters the vector
    handed to [normalize] for that cell is read outside the vertices, so
    neither the vector nor the normal stored for the cell is the one the
    claim reasons about. *)
Lemma create_landscape_normals_point_up_beyond_int :
  0 < 46341 <= Int.max_signed /\ 0 <= 41708 < 46341 /\ 0 <= 46339 < 46341 /\
  ~ (46341 * 46341 <= Int.max_signed) /\
  (if 46339 <? 46341 - 1 then 46339 + 1 else 46339) = 46340 /\
  Int.in_range (46340 * 46341) = true /\
  46340 * 46341 + 41708 = Int.max_signed + 1 /\
  Int.in_range (46340 * 46341 + 41708) = false /\
  int_index 46341 41708 46340 = Int.min_signed /\
  ~ (0 <= int_index 46341 41708 46340 <
     Z.of_nat (length (vertices (@create_landscape coarse_platform 46341 46341)))).
Proof.
  assert (E : int_index 46341 41708 46340 = Int.min_signed) by reflexivity.
  split; [unfold Int.max_signed; lia|]. split; [lia|]. split; [lia|].
  split; [unfold Int.max_signed; lia|].
  split; [reflexivity|]. split; [reflexivity|]. split; [reflexivity|].
  split; [reflexivity|]. split; [exact E|].
  rewrite E. unfold Int.min_signed. lia.
Qed.

(** C9 (amended): on a grid with width*depth <= INT_MAX the [int] index of
    every cell is its position z*width+x in the vertices, the vector handed
    to [normalize] has y = 2.0 and a non-zero length, and every vertex
    normal has a strictly positive y. *)
Theorem create_landscape_normals_point_up `{Platform} (width depth x z : Z) :
  0 < width <= Int.max_signed -> 0 < depth <= Int.max_signed ->
  width * depth <= Int.max_signed ->
  0 <= x < width -> 0 <= z < depth ->
  let n := normal (vec_get (vertices (create_landscape width depth)) (z * width + x)) in
  let v := grid_slope width depth x z in
  int_index width x z = z * width + x /\
  n = simd.normalize v /\ f3y v = F32.two /\
  F32.ltb F32.zero (simd.length v) = true /\
  F32.is_finite (f3y n) = true /\
  F32.ltb F32.zero (f3y n) = true.
Proof.
  intros Hw Hd Hb Hx Hz n v.
  split; [apply (int_index_exact width depth x z Hx Hz Hb)|].
  assert (En : n = simd.normalize v) by (apply mesh_normal; lia).
  destruct (grid_slope_tame width depth x z) as (Ht & Ey & Hn4); try lia.
  fold v in Ht, Ey, Hn4.
  destruct (length_accuracy v Ht ltac:(lra)) as ([Vl Fl] & Bl & HN).
  destruct (normalize_accuracy v Ht ltac:(lra)) as (Tn & _ & Hy).
  rewrite <- En in Tn, Hy. specialize (Hy ltac:(lra)).
  destruct Tn as (_ & ([Vy Fy] & _) & _).
  split; [exact En|]. split; [reflexivity|]. split; [|split; [exact Fy|]].
  - apply ltb_real; auto; try reflexivity. SF2R_const F32.zero.
    assert (2 <= sqrt (norm2 v))%R by (apply sq_le_inv; [lra|]; rewrite sqrt_sqrt; lra).
    lra.
  - apply ltb_real; auto; try reflexivity. SF2R_const F32.zero. lra.
Qed.


Lemma create_landscape_normals_witness :
  let mesh := @create_landscape coarse_platform 3 2 in
  let height := fun x z => f3y (position (vec_get (vertices mesh) (z * 3 + x))) in
  let n := normal (vec_get (vertices mesh) (1 * 3 + 1)) in
  int_index 3 1 1 = 1 * 3 + 1 /\
  n = simd.normalize
        (mk_float3 (F32.sub (height 0 1) (height 2 1)) F32.two
                   (F32.sub (height 1 0) (height 1 1))) /\
  (Rabs (sqrt (norm2 n) - 1) <= / 100000)%R /\
  F32.is_finite (simd.length n) = true /\
  (Rabs (SF2R (simd.length n) - 1) <= / 100000)%R.
Proof.
  apply (@create_landscape_normals coarse_platform 3 2 1 1);
    unfold Int.max_signed; lia.
Defined.

Lemma create_landscape_normals_point_up_witness :
  let n := normal (vec_get (vertices (@create_landscape coarse_platform 3 2)) (1 * 3 + 1)) in
  let v := @grid_slope coarse_platform 3 2 1 1 in
  int_index 3 1 1 = 1 * 3 + 1 /\
  n = simd.normalize v /\ f3y v = F32.two /\
  F32.ltb F32.zero (simd.length v) = true /\
  F32.is_finite (f3y n) = true /\
  F32.ltb F32.zero (f3y n) = true.
Proof.
  apply (@create_landscape_normals_point_up coarse_platform 3 2 1 1);
    unfold Int.max_signed; lia.
Defined.

(** ** The clamped pitch is a number when its inputs are *)

Lemma to_float_valid (d : double) : F32.valid (F64.to_float d) = true.
Proof.
  destruct d as [s|s| |s m e]; try reflexivity.
  exact (rnd_valid _ _ (binary_round_Rnd s m e)).
Qed.

Lemma sub_not_nan (a b : float) :
  good a -> F32.valid b = true -> b <> S754_nan -> F32.sub a b <> S754_nan.
Proof.
  intros [Va Fa] Vb Hb.
  destruct b as [sb|sb| |sb mb eb]; try congruence.
  - apply (rnd_not_nan _ _ (sub_Rnd a _ Va Vb Fa eq_refl)).
  - destruct a as [sa|sa| |sa ma ea]; try discriminate; simpl; discriminate.
  - apply (rnd_not_nan _ _ (sub_Rnd a _ Va Vb Fa eq_refl)).
Qed.

Lemma clamp_pitch_not_nan (p : float) : p <> S754_nan -> clamp_pitch p <> S754_nan.
Proof.
  intros Hp. unfold clamp_pitch.
  destruct (F32.ltb PITCH_LIMIT p).
  - discriminate.
  - destruct (F32.ltb p (F32.opp PITCH_LIMIT)); [discriminate | exact Hp].
Qed.

(** C4 (amended): after every call the pitch is NaN or lies in the closed
    interval [-1.5708f, 1.5708f], whose bound 13176825 * 2^-23 is slightly
    above pi/2; it is not NaN when the camera's pitch and look speed and
    the pointer delta are finite. *)
Theorem update_camera_pitch_clamped `{Platform} st cam dt keys mouseX mouseY :
  let p := pitch (snd (update_camera st cam dt keys mouseX mouseY)) in
  let deltaY := snd (fst (pointer_delta st mouseX mouseY)) in
  (F32.is_nan p = true \/
   (F32.leb (F32.opp PITCH_LIMIT) p = true /\ F32.leb p PITCH_LIMIT = true)) /\
  (good (pitch cam) -> good (lookSpeed cam) -> F32.is_finite deltaY = true ->
   F32.leb (F32.opp PITCH_LIMIT) p = true /\ F32.leb p PITCH_LIMIT = true).
Proof.
  cbv zeta. rewrite update_camera_pitch.
  split; [apply clamp_pitch_range|].
  intros Gp [Vk Fk] Fd.
  set (deltaY := snd (fst (pointer_delta st mouseX mouseY))) in *.
  assert (Vd : F32.valid deltaY = true).
  { unfold deltaY, pointer_delta. cbn [fst snd]. apply to_float_valid. }
  pose proof (mul_Rnd deltaY (lookSpeed cam) Vd Vk Fd Fk) as Rm.
  pose proof (sub_not_nan (pitch cam) _ Gp (rnd_valid _ _ Rm) (rnd_not_nan _ _ Rm)) as Hs.
  apply clamp_pitch_not_nan in Hs.
  destruct (clamp_pitch_range
              (F32.sub (pitch cam) (F32.mul deltaY (lookSpeed cam)))) as [Hn|Hr];
    [|exact Hr].
  destruct (clamp_pitch _); try discriminate. congruence.
Qed.

Lemma update_camera_pitch_clamped_witness :
  let cam := @make_camera coarse_platform 800 600 in
  let p := pitch (snd (@update_camera coarse_platform statics_after_origin cam F32.one
                         (fun _ => false) F64.zero (F64.of_int (-10000)))) in
  good (pitch cam) /\ good (lookSpeed cam) /\
  F32.is_finite (snd (fst (pointer_delta statics_after_origin F64.zero
                             (F64.of_int (-10000))))) = true /\
  F32.leb (F32.opp PITCH_LIMIT) p = true /\ F32.leb p PITCH_LIMIT = true.
Proof.
  cbv zeta.
  assert (G1 : good (pitch (@make_camera coarse_platform 800 600))) by (split; reflexivity).
  assert (G2 : good (lookSpeed (@make_camera coarse_platform 800 600)))
    by (split; reflexivity).
  assert (F : F32.is_finite (snd (fst (pointer_delta statics_after_origin F64.zero
                                        (F64.of_int (-10000))))) = true) by reflexivity.
  split; [exact G1|]. split; [exact G2|]. split; [exact F|].
  exact (proj2 (@update_camera_pitch_clamped coarse_platform statics_after_origin
                  (@make_camera coarse_platform 800 600) F32.one (fun _ => false)
                  F64.zero (F64.of_int (-10000))) G1 G2 F).
Defined.

(** * Further properties *)

(** ** Exact results *)

Lemma same_number_good a b : same_number a b -> good b -> good a.
Proof.
  intros [E | (s & t & Ea & Eb)] Hb; [ now subst | subst; split; reflexivity ].
Qed.

(** Valid floats are canonical: two of them that stand for the same real
    are the same float, up to the sign of zero. *)
Lemma good_same_real (a b : spec_float) :
  good a -> good b -> SF2R a = SF2R b -> same_number a b.
Proof.
  intros (Va & Fa) (Vb & Fb) E.
  destruct (SFcompare_real a b Va Vb Fa Fb) as (c & Hc & Ho).
  destruct c; cbn [real_order] in Ho; try lra.
  destruct a as [sa | sa | | sa ma ea], b as [sb | sb | | sb mb eb];
    try discriminate Fa; try discriminate Fb; simpl in Hc.
  - right. now exists sa, sb.
  - destruct sb; discriminate Hc.
  - destruct sa; discriminate Hc.
  - left.
    destruct sa, sb; try discriminate Hc;
      destruct (Z.compare_spec ea eb) as [Ee | Ee | Ee]; try discriminate Hc;
      injection Hc as Hc.
    + destruct (Pos.compare_cont Eq ma mb) eqn:Hm; try discriminate Hc.
      apply Pcompare_Eq_eq in Hm. now subst.
    + apply Pcompare_Eq_eq in Hc. now subst.
Qed.

(** An exact result that is a float is returned as it is. *)
Lemma Rnd_representable (x : R) (r B : spec_float) :
  Rnd x r -> good B -> SF2R B = x -> good r /\ SF2R r = x /\ same_number r B.
Proof.
  intros HR (VB & FB) E.
  destruct (Rnd_between x r B B HR VB FB VB FB ltac:(lra)) as (Fr & Hb).
  assert (Gr : good r) by (split; [ apply HR | exact Fr ]).
  assert (Er : SF2R r = x) by lra.
  repeat split; try apply Gr; try exact Er.
  apply good_same_real; try assumption; [ now split | lra ].
Qed.

Lemma digits2_to_pos (p : Z) : 0 < p -> Zpos (digits2_pos (Z.to_pos p)) = Zdigits2 p.
Proof. destruct p; try lia. reflexivity. Qed.

(** The integers below 2^24, scaled by a power of two within the exponent
    range, are floats. *)
Lemma representable (m e : Z) :
  Z.abs m < 2 ^ 24 -> -149 <= e <= 104 ->
  exists B, good B /\ SF2R B = (IZR m * bpow e)%R.
Proof.
  intros Hm He.
  destruct (Z.eq_dec m 0) as [-> | Hnz].
  { exists (S754_zero false). split; [ split; reflexivity | simpl; lra ]. }
  set (a := Z.abs m).
  assert (Ha : 0 < a < 2 ^ 24) by lia.
  set (d := Zdigits2 a).
  pose proof (Zdigits2_bounds a ltac:(lia)) as Hd.
  pose proof (Zdigits2_pos a ltac:(lia)) as Hd0.
  assert (Hd24 : d <= 24).
  { apply Zdigits2_lt; lia. }
  set (k := Z.min (24 - d) (e + 149)).
  assert (Hk : 0 <= k) by lia.
  set (mk := a * 2 ^ k).
  assert (Hmk : 0 < mk) by (unfold mk; apply Z.mul_pos_pos; [ lia | apply Z.pow_pos_nonneg; lia ]).
  exists (S754_finite (m <? 0) (Z.to_pos mk) (e - k)).
  split; [ split; [ | reflexivity ] | ].
  - apply valid_finite_intro; [ | lia ].
    assert (Hdig : Zpos (digits2_pos (Z.to_pos mk)) = d + k).
    { pose proof (Zdigits2_shift (Z.to_pos a) k Hk) as Hs.
      rewrite Z2Pos.id, digits2_to_pos in Hs by lia. fold mk d in Hs.
      rewrite <- Hs. now apply digits2_to_pos. }
    rewrite Hdig. lia.
  - rewrite SF2R_finite. rewrite Z2Pos.id by lia. unfold mk.
    rewrite Rmult_assoc, IZR_bpow_shift by lia.
    replace (e - k + k) with e by lia.
    rewrite <- Rmult_assoc. f_equal.
    unfold sign_factor, a. destruct (Z.ltb_spec m 0).
    + rewrite Z.abs_neq by lia. rewrite opp_IZR. ring.
    + rewrite Z.abs_eq by lia. ring.
Qed.

Lemma bpow_m1 : bpow (-1) = (/ 2)%R.
Proof. unfold bpow. simpl. lra. Qed.

(** [(float)n] is exact for |n| < 2^24. *)
Lemma of_int_exact (n : Z) :
  Z.abs n < 2 ^ 24 -> good (F32.of_int n) /\ SF2R (F32.of_int n) = IZR n.
Proof.
  intros Hn.
  destruct (representable n 0 Hn ltac:(lia)) as (B & GB & EB).
  rewrite bpow_0, Rmult_1_r in EB.
  destruct (Rnd_representable _ _ B (of_int_Rnd n) GB EB) as (G & E & _).
  now split.
Qed.

Lemma one_exact : good F32.one /\ SF2R F32.one = 1%R.
Proof. apply (of_int_exact 1). simpl. lia. Qed.

Lemma two_exact : good F32.two /\ SF2R F32.two = 2%R.
Proof. apply (of_int_exact 2). simpl. lia. Qed.

(** Halving an integer below 2^24 and subtracting the half from another is
    exact: the difference is a half-integer below 2^24. *)
Lemma recentre_real (i n : Z) :
  0 <= i < n -> n < 2 ^ 24 ->
  let c := F32.sub (F32.of_int i) (F32.div (F32.of_int n) F32.two) in
  good c /\ SF2R c = (IZR i - IZR n / 2)%R.
Proof.
  intros Hi Hn c.
  destruct (of_int_exact i ltac:(lia)) as ((Vi & Fi) & Ei).
  destruct (of_int_exact n ltac:(lia)) as ((Vn & Fn) & En).
  destruct two_exact as ((V2 & F2) & E2).
  assert (Hh : good (F32.div (F32.of_int n) F32.two) /\
               SF2R (F32.div (F32.of_int n) F32.two) = (IZR n / 2)%R).
  { destruct (representable n (-1) ltac:(lia) ltac:(lia)) as (B & GB & EB).
    rewrite bpow_m1 in EB.
    pose proof (div_Rnd _ _ Vn V2 Fn F2 ltac:(lra)) as HR.
    rewrite En, E2 in HR.
    destruct (Rnd_representable _ _ B HR GB ltac:(lra)) as (G & E & _).
    now split. }
  destruct Hh as ((Vh & Fh) & Eh).
  destruct (representable (2 * i - n) (-1) ltac:(lia) ltac:(lia)) as (B & GB & EB).
  rewrite bpow_m1, minus_IZR, mult_IZR in EB.
  pose proof (sub_Rnd _ _ Vi Vh Fi Fh) as HR.
  rewrite Ei, Eh in HR.
  destruct (Rnd_representable _ _ B HR GB ltac:(lra)) as (G & E & _).
  now split.
Qed.

(** ** The layout of the mesh *)

Section MeshLayout.
Context `{Platform}.

Lemma set_normal_length vs i n : length (set_normal vs i n) = length vs.
Proof. apply vec_set_length. Qed.

Lemma normal_pass_length width depth vs :
  length (normal_pass width depth vs) = length vs.
Proof.
  unfold normal_pass, for_lt.
  apply (for_range_invariant (fun _ s => length s = length vs)); auto.
  intros z s _ Hs.
  pose proof (for_range_invariant (fun _ s' => length s' = length vs)
                (fun x vs0 => set_normal vs0 (z * width + x)
                                (simd.normalize (slope width depth vs0 x z)))
                (Z.to_nat width) 0 s Hs) as Hrow.
  apply Hrow. intros x s' _ Hs'. now rewrite set_normal_length.
Qed.

Lemma index_pass_nth width depth x z j :
  0 <= x < width - 1 -> 0 <= z < depth - 1 -> (j < 6)%nat ->
  nth (Z.to_nat (6 * (z * (width - 1) + x)) + j) (index_pass width depth) 0 =
  nth j (quad_indices width z x) 0.
Proof.
  intros Hx Hz Hj. rewrite index_pass_quads.
  set (row := fun z => flat_map (quad_indices width z) (zseq 0 (Z.to_nat (width - 1)))).
  assert (Hrow : forall a, length (row a) = (Z.to_nat (width - 1) * 6)%nat).
  { intros a. unfold row.
    rewrite (flat_map_const_length _ 6) by reflexivity.
    now rewrite zseq_length. }
  replace (Z.to_nat (6 * (z * (width - 1) + x)) + j)%nat
    with (Z.to_nat z * (Z.to_nat (width - 1) * 6) + (Z.to_nat x * 6 + j))%nat by nia.
  rewrite (flat_map_nth row _ 0 0 Hrow) by (rewrite ?zseq_length; nia).
  rewrite zseq_nth by lia.
  unfold row.
  rewrite (flat_map_nth (quad_indices width (0 + Z.of_nat (Z.to_nat z))) 6 0 0)
    by (reflexivity || rewrite ?zseq_length; lia).
  rewrite zseq_nth by lia.
  now replace (0 + Z.of_nat (Z.to_nat z)) with z by lia;
      replace (0 + Z.of_nat (Z.to_nat x)) with x by lia.
Qed.

End MeshLayout.

Lemma firstn_skipn_nth {A : Type} (l m : list A) (k : nat) (d : A) :
  (k + length m <= length l)%nat ->
  (forall j, (j < length m)%nat -> nth (k + j) l d = nth j m d) ->
  firstn (length m) (skipn k l) = m.
Proof.
  intros Hlen Hnth.
  apply (nth_ext _ _ d d).
  - rewrite length_firstn, length_skipn. lia.
  - intros j Hj. rewrite length_firstn, length_skipn in Hj.
    rewrite nth_firstn.
    destruct (Nat.ltb_spec j (length m)); [ | lia ].
    rewrite nth_skipn. now apply Hnth.
Qed.

(** X1: with no cells there is no mesh: for dimensions in the range of [int]
    other than INT_MIN (where the loop bounds [width - 1] and [depth - 1]
    would overflow) no vertex is stored when a dimension is zero or negative,
    and no triangle when a dimension is below two. *)
Theorem create_landscape_degenerate `{Platform} (width depth : Z) :
  Int.min_signed < width <= Int.max_signed ->
  Int.min_signed < depth <= Int.max_signed ->
  (width <= 0 \/ depth <= 0 -> vertices (create_landscape width depth) = []) /\
  (width <= 1 \/ depth <= 1 -> indices (create_landscape width depth) = []).
Proof.
  intros _ _.
  split; intros Hd; apply length_zero_iff_nil; unfold create_landscape.
  - cbn [vertices]. rewrite normal_pass_length, vertex_pass_length.
    destruct Hd; [ replace (Z.to_nat width) with 0%nat by lia
                 | replace (Z.to_nat depth) with 0%nat by lia ]; lia.
  - cbn [indices]. rewrite index_pass_length.
    destruct Hd; [ replace (Z.to_nat (width - 1)) with 0%nat by lia
                 | replace (Z.to_nat (depth - 1)) with 0%nat by lia ]; lia.
Qed.

Lemma create_landscape_degenerate_witness :
  (Int.min_signed < 0 <= Int.max_signed /\ Int.min_signed < 5 <= Int.max_signed) /\
  (0 <= 0 \/ 5 <= 0) /\ vertices (@create_landscape coarse_platform 0 5) = [] /\
  (Int.min_signed < 7 <= Int.max_signed /\ Int.min_signed < 1 <= Int.max_signed) /\
  (7 <= 1 \/ 1 <= 1) /\ indices (@create_landscape coarse_platform 7 1) = [].
Proof.
  assert (R0 : Int.min_signed < 0 <= Int.max_signed)
    by (unfold Int.min_signed, Int.max_signed; lia).
  assert (R5 : Int.min_signed < 5 <= Int.max_signed)
    by (unfold Int.min_signed, Int.max_signed; lia).
  assert (R7 : Int.min_signed < 7 <= Int.max_signed)
    by (unfold Int.min_signed, Int.max_signed; lia).
  assert (R1 : Int.min_signed < 1 <= Int.max_signed)
    by (unfold Int.min_signed, Int.max_signed; lia).
  split; [ split; assumption | ]. split; [ left; lia | ]. split.
  - apply (proj1 (@create_landscape_degenerate coarse_platform 0 5 R0 R5)). left; lia.
  - split; [ split; assumption | ]. split; [ right; lia | ].
    apply (proj2 (@create_landscape_degenerate coarse_platform 7 1 R7 R1)). right; lia.
Defined.

(** X2: on a grid with width*depth <= INT_MAX the index buffer is laid out
    quad by quad, row-major: the quad with lower corner (x, z) owns the six
    entries from 6*(z*(width-1)+x) on, the triangle (i0, i2, i1) followed by
    (i1, i2, i3). *)
Theorem create_landscape_quad_indices `{Platform} (width depth x z : Z) :
  0 <= x < width - 1 -> 0 <= z < depth - 1 -> width * depth <= Int.max_signed ->
  let ix := indices (create_landscape width depth) in
  let i0 := z * width + x in
  let i1 := z * width + x + 1 in
  let i2 := (z + 1) * width + x in
  let i3 := (z + 1) * width + x + 1 in
  firstn 6 (skipn (Z.to_nat (6 * (z * (width - 1) + x))) ix) =
  [i0; i2; i1; i1; i2; i3].
Proof.
  intros Hx Hz _ ix i0 i1 i2 i3.
  apply (firstn_skipn_nth ix [i0; i2; i1; i1; i2; i3] _ 0).
  - subst ix. unfold create_landscape. cbn [indices length].
    rewrite index_pass_length. nia.
  - intros j Hj. cbn [length] in Hj.
    subst ix. unfold create_landscape. cbn [indices].
    now rewrite index_pass_nth.
Qed.

Lemma create_landscape_quad_indices_witness :
  0 <= 1 < 4 - 1 /\ 0 <= 1 < 3 - 1 /\ 4 * 3 <= Int.max_signed /\
  firstn 6 (skipn (Z.to_nat (6 * (1 * (4 - 1) + 1)))
              (indices (@create_landscape coarse_platform 4 3))) =
  [5; 9; 6; 6; 9; 10].
Proof.
  split; [ lia | ]. split; [ lia | ]. split; [ unfold Int.max_signed; lia | ].
  apply (@create_landscape_quad_indices coarse_platform 4 3 1 1);
    unfold Int.max_signed; lia.
Defined.

Lemma grid_coords width x z :
  0 <= x < width -> grid_x width (z * width + x) = x /\ grid_z width (z * width + x) = z.
Proof.
  intros Hx. unfold grid_x, grid_z. split.
  - rewrite Z.add_comm, Z.mod_add by lia. apply Z.mod_small; lia.
  - rewrite Z.add_comm, Z.div_add by lia. rewrite Z.div_small by lia. lia.
Qed.

(** X3: on a grid with width*depth <= INT_MAX every triangle of the index
    buffer winds the same way: in the grid plane its corners, in buffer
    order, span the signed area +1/2, so all faces are non-degenerate and
    face the same side. *)
Theorem create_landscape_winding `{Platform} (width depth t : Z) :
  1 < width -> 1 < depth -> width * depth <= Int.max_signed ->
  0 <= t < 2 * (width - 1) * (depth - 1) ->
  let ix := indices (create_landscape width depth) in
  winding width (index_at ix (3 * t)) (index_at ix (3 * t + 1)) (index_at ix (3 * t + 2)) = 1.
Proof.
  intros Hw Hd _ Ht ix.
  set (q := t / 2). set (h := t mod 2).
  set (z := q / (width - 1)). set (x := q mod (width - 1)).
  assert (Hq : t = 2 * q + h) by (apply Z.div_mod; lia).
  assert (Hh : 0 <= h < 2) by (apply Z.mod_pos_bound; lia).
  assert (Hxz : q = (width - 1) * z + x) by (apply Z.div_mod; lia).
  assert (Hx : 0 <= x < width - 1) by (apply Z.mod_pos_bound; lia).
  assert (Hq0 : 0 <= q < (width - 1) * (depth - 1)) by nia.
  assert (Hz : 0 <= z < depth - 1).
  { split; [ apply Z.div_pos; lia | apply Z.div_lt_upper_bound; lia ]. }
  assert (Hnth : forall j, (j < 6)%nat ->
            index_at ix (6 * q + Z.of_nat j) = nth j (quad_indices width z x) 0).
  { intros j Hj. unfold index_at. subst ix. unfold create_landscape. cbn [indices].
    rewrite <- (index_pass_nth width depth x z j Hx Hz Hj).
    f_equal. nia. }
  pose proof (grid_coords width x z ltac:(lia)) as (X0 & Z0).
  pose proof (grid_coords width (x + 1) z ltac:(lia)) as (X1 & Z1).
  pose proof (grid_coords width x (z + 1) ltac:(lia)) as (X2 & Z2).
  pose proof (grid_coords width (x + 1) (z + 1) ltac:(lia)) as (X3 & Z3).
  rewrite Z.add_assoc in X1, Z1, X3, Z3.
  assert (Hcase : h = 0 \/ h = 1) by lia.
  destruct Hcase as [Hc | Hc]; rewrite Hc in Hq.
  - replace (3 * t) with (6 * q + Z.of_nat 0) by lia.
    replace (6 * q + Z.of_nat 0 + 1) with (6 * q + Z.of_nat 1) by lia.
    replace (6 * q + Z.of_nat 0 + 2) with (6 * q + Z.of_nat 2) by lia.
    rewrite !Hnth by lia. cbn [nth quad_indices]. unfold winding.
    rewrite X0, Z0, X1, Z1, X2, Z2. ring.
  - replace (3 * t) with (6 * q + Z.of_nat 3) by lia.
    replace (6 * q + Z.of_nat 3 + 1) with (6 * q + Z.of_nat 4) by lia.
    replace (6 * q + Z.of_nat 3 + 2) with (6 * q + Z.of_nat 5) by lia.
    rewrite !Hnth by lia. cbn [nth quad_indices]. unfold winding.
    rewrite X1, Z1, X2, Z2, X3, Z3. ring.
Qed.

Lemma create_landscape_winding_witness :
  1 < 4 /\ 1 < 3 /\ 4 * 3 <= Int.max_signed /\ 0 <= 7 < 2 * (4 - 1) * (3 - 1) /\
  let ix := indices (@create_landscape coarse_platform 4 3) in
  winding 4 (index_at ix (3 * 7)) (index_at ix (3 * 7 + 1)) (index_at ix (3 * 7 + 2)) = 1.
Proof.
  split; [ lia | ]. split; [ lia | ]. split; [ unfold Int.max_signed; lia | ].
  split; [ lia | ].
  apply (@create_landscape_winding coarse_platform 4 3 7); unfold Int.max_signed; lia.
Defined.

(** ** No orphan vertex *)

(** X4: in a mesh with at least two columns and two rows, and
    width*depth <= INT_MAX, every vertex is a corner of some triangle: each
    vertex index occurs in the index buffer. *)
Theorem create_landscape_every_vertex_used `{Platform} (width depth i : Z) :
  1 < width -> 1 < depth -> width * depth <= Int.max_signed ->
  0 <= i < width * depth ->
  In i (indices (create_landscape width depth)).
Proof.
  intros Hw Hd _ Hi. unfold create_landscape. cbn [indices].
  rewrite index_pass_quads.
  set (z := i / width). set (x := i mod width).
  assert (Ei : i = width * z + x) by (apply Z.div_mod; lia).
  assert (Hx : 0 <= x < width) by (apply Z.mod_pos_bound; lia).
  assert (Hz : 0 <= z < depth).
  { split; [ apply Z.div_pos; lia | apply Z.div_lt_upper_bound; nia ]. }
  set (qx := if x <? width - 1 then x else x - 1).
  set (qz := if z <? depth - 1 then z else z - 1).
  apply in_flat_map. exists qz. split.
  { apply zseq_In. unfold qz. destruct (Z.ltb_spec z (depth - 1)); lia. }
  apply in_flat_map. exists qx. split.
  { apply zseq_In. unfold qx. destruct (Z.ltb_spec x (width - 1)); lia. }
  unfold quad_indices, qx, qz.
  destruct (Z.ltb_spec x (width - 1)), (Z.ltb_spec z (depth - 1)); cbn [In].
  - left. lia.
  - right. left. lia.
  - right. right. left. lia.
  - do 5 right. left. lia.
Qed.

Lemma create_landscape_every_vertex_used_witness :
  1 < 4 /\ 1 < 3 /\ 4 * 3 <= Int.max_signed /\ 0 <= 11 < 4 * 3 /\
  In 11 (indices (@create_landscape coarse_platform 4 3)).
Proof.
  split; [ lia | ]. split; [ lia | ]. split; [ unfold Int.max_signed; lia | ].
  split; [ lia | ].
  apply (@create_landscape_every_vertex_used coarse_platform 4 3 11);
    unfold Int.max_signed; lia.
Defined.

(** ** Positions and heights of the mesh *)

(** X5: the mesh is centred on the origin without rounding: for grids narrower
    than 2^24 with width*depth <= INT_MAX the vertex of cell (x, z) sits at
    exactly x - width/2 and z - depth/2, and its height is the fractal noise
    of the normalised cell coordinates scaled by the terrain height. *)
Theorem create_landscape_vertex_grid `{Platform} (width depth x z : Z) :
  0 <= x < width -> 0 <= z < depth -> width < 2 ^ 24 -> depth < 2 ^ 24 ->
  width * depth <= Int.max_signed ->
  let p := position (vec_get (vertices (create_landscape width depth)) (z * width + x)) in
  F32.is_finite (f3x p) = true /\ F32.is_finite (f3z p) = true /\
  SF2R (f3x p) = (IZR x - IZR width / 2)%R /\
  SF2R (f3z p) = (IZR z - IZR depth / 2)%R /\
  f3y p = F32.mul (fractal_noise
                     (F32.mul (F32.div (F32.of_int x) (F32.of_int width)) TERRAIN_SCALE)
                     (F32.mul (F32.div (F32.of_int z) (F32.of_int depth)) TERRAIN_SCALE))
                  TERRAIN_HEIGHT.
Proof.
  intros Hx Hz Hw Hd _ p. subst p.
  rewrite create_landscape_position by assumption.
  unfold grid_vertex. cbn [position f3x f3y f3z].
  destruct (recentre_real x width Hx Hw) as ((_ & Fx) & Ex).
  destruct (recentre_real z depth Hz Hd) as ((_ & Fz) & Ez).
  repeat split; assumption || reflexivity.
Qed.

Lemma create_landscape_vertex_grid_witness :
  let p := position (vec_get (vertices (@create_landscape coarse_platform 5 4)) (3 * 5 + 1)) in
  F32.is_finite (f3x p) = true /\ F32.is_finite (f3z p) = true /\
  SF2R (f3x p) = (IZR 1 - IZR 5 / 2)%R /\
  SF2R (f3z p) = (IZR 3 - IZR 4 / 2)%R /\
  f3y p = F32.mul (@fractal_noise coarse_platform
                     (F32.mul (F32.div (F32.of_int 1) (F32.of_int 5)) TERRAIN_SCALE)
                     (F32.mul (F32.div (F32.of_int 3) (F32.of_int 4)) TERRAIN_SCALE))
                  TERRAIN_HEIGHT.
Proof.
  apply (@create_landscape_vertex_grid coarse_platform 5 4 1 3);
    unfold Int.max_signed; lia.
Defined.

Lemma terrain_height_exact : good TERRAIN_HEIGHT /\ SF2R TERRAIN_HEIGHT = 12%R.
Proof. apply (of_int_exact 12). simpl. lia. Qed.

(** Scaling a noise value by the terrain height: 12 * 1.788 and one
    rounding stay below 21.5. *)
Lemma height_scale_tight (n : float) :
  good n -> (Rabs (SF2R n) <= 1788 / 1000)%R ->
  good (F32.mul n TERRAIN_HEIGHT) /\
  (Rabs (SF2R (F32.mul n TERRAIN_HEIGHT)) <= 215 / 10)%R.
Proof.
  intros (Vn & Fn) Bn.
  destruct terrain_height_exact as ((Vh & Fh) & Eh).
  pose proof (mul_Rnd _ _ Vn Vh Fn Fh) as HR. rewrite Eh in HR.
  destruct (of_int_exact 25 ltac:(simpl; lia)) as (G25 & E25).
  assert (Hx : (Rabs (SF2R n * 12) <= 21456 / 1000)%R).
  { rewrite Rabs_mult, (Rabs_pos_eq 12) by lra. lra. }
  destruct (Rnd_abs _ _ (F32.of_int 25) HR G25 ltac:(rewrite E25; lra)) as (G & _ & He).
  split; [ exact G | ].
  pose proof (Rabs_le_inv _ _ He) as He'.
  pose proof (Rabs_le_inv _ _ Hx) as Hx'.
  pose proof u24_value as Hu. unfold u24 in Hu. rewrite Hu in He'.
  pose proof eta_small as Heta. unfold eta in Heta.
  apply Rabs_le. lra.
Qed.

Section MeshHeights.
Context `{Platform}.

Lemma grid_height_tight (width depth x z : Z) :
  0 <= x < width -> 0 <= z < depth ->
  width <= Int.max_signed -> depth <= Int.max_signed ->
  good (grid_height width depth x z) /\
  (Rabs (SF2R (grid_height width depth x z)) <= 215 / 10)%R.
Proof.
  intros Hx Hz Hw Hd. unfold grid_height.
  destruct (grid_coordinate_bound x width Hx Hw) as (Gx & Bx).
  destruct (grid_coordinate_bound z depth Hz Hd) as (Gz & Bz).
  destruct (fractal_noise_bound _ _ Gx Gz Bx Bz) as (Gn & Bn).
  now apply height_scale_tight.
Qed.

End MeshHeights.

(** X6: on a grid with width*depth <= INT_MAX every vertex of the mesh
    carries a finite height of magnitude at most 21.5, inside the range
    [-25, 25] the mesh test asserts. *)
Theorem create_landscape_heights_in_range `{Platform} (width depth : Z) :
  0 < width <= Int.max_signed -> 0 < depth <= Int.max_signed ->
  width * depth <= Int.max_signed ->
  Forall (fun v => F32.is_finite (f3y (position v)) = true /\
                   in_height_range (f3y (position v)) = true /\
                   (Rabs (SF2R (f3y (position v))) <= 215 / 10)%R)
         (vertices (create_landscape width depth)).
Proof.
  intros Hw Hd _. apply Forall_forall. intros v Hin.
  destruct (In_nth _ _ default_vertex Hin) as (n & Hn & Ev).
  assert (Hlen : length (vertices (create_landscape width depth)) =
                 (Z.to_nat depth * Z.to_nat width)%nat).
  { unfold create_landscape. cbn [vertices].
    destruct (normal_pass_done width depth (vertex_pass width depth)
                ltac:(lia) ltac:(lia) (vertex_pass_length width depth)) as (Hl & _).
    rewrite Hl. apply vertex_pass_length. }
  rewrite Hlen in Hn.
  set (i := Z.of_nat n).
  set (zc := i / width). set (xc := i mod width).
  assert (Hi : i = width * zc + xc) by (apply Z.div_mod; lia).
  assert (Hxc : 0 <= xc < width) by (apply Z.mod_pos_bound; lia).
  assert (Hzc : 0 <= zc < depth).
  { split; [ apply Z.div_pos; lia | apply Z.div_lt_upper_bound; nia ]. }
  assert (Ev' : v = vec_get (vertices (create_landscape width depth)) (zc * width + xc)).
  { unfold vec_get. rewrite <- Ev. f_equal. lia. }
  rewrite Ev', create_landscape_position by assumption.
  unfold grid_vertex. cbn [position f3y].
  destruct (grid_height_tight width depth xc zc Hxc Hzc ltac:(lia) ltac:(lia)) as ((V & F) & B).
  destruct (grid_height_bound width depth xc zc Hxc Hzc ltac:(lia) ltac:(lia)) as (_ & R & _).
  repeat split; assumption.
Qed.

Lemma create_landscape_heights_in_range_witness :
  Forall (fun v => F32.is_finite (f3y (position v)) = true /\
                   in_height_range (f3y (position v)) = true /\
                   (Rabs (SF2R (f3y (position v))) <= 215 / 10)%R)
         (vertices (@create_landscape coarse_platform 3 2)).
Proof.
  apply (@create_landscape_heights_in_range coarse_platform 3 2);
    unfold Int.max_signed; lia.
Defined.

(** ** The lattice hash along its diagonal *)

Lemma wrap_congr (a b : Z) : a mod 2 ^ 32 = b mod 2 ^ 32 -> Int.wrap a = Int.wrap b.
Proof.
  intros E. unfold Int.wrap.
  rewrite <- (Z.add_mod_idemp_l a), <- (Z.add_mod_idemp_l b), E by lia. reflexivity.
Qed.

Lemma wrap_mod (a : Z) : Int.wrap a mod 2 ^ 32 = a mod 2 ^ 32.
Proof.
  unfold Int.wrap.
  rewrite Zminus_mod_idemp_l.
  replace (a + 2 ^ 31 - 2 ^ 31) with a by lia. reflexivity.
Qed.

Lemma add_wrap_mod (a b : Z) : (a + Int.wrap b) mod 2 ^ 32 = (a + b) mod 2 ^ 32.
Proof.
  rewrite <- Z.add_mod_idemp_r, wrap_mod, Z.add_mod_idemp_r by lia. reflexivity.
Qed.

Lemma hash_seed_shift (x z k : Z) :
  Int.add (x + 57 * k) (Int.mul z 57) = Int.add x (Int.mul (z + k) 57).
Proof.
  unfold Int.add, Int.mul. apply wrap_congr.
  rewrite !add_wrap_mod. f_equal. ring.
Qed.

(** X7: the hash only sees x + 57 z: the lattice value repeats whenever x grows
    by 57 while z shrinks by one, so the noise is constant along the
    direction (57, -1) of the integer lattice. *)
Theorem simple_noise_diagonal_repeat (x z k : Z) :
  simple_noise (x + 57 * k) z = simple_noise x (z + k).
Proof.
  unfold simple_noise, simple_noise_hash.
  now rewrite hash_seed_shift.
Qed.

(** ** Interpolation at a lattice point *)

Lemma same_number_trans a b c : same_number a b -> same_number b c -> same_number a c.
Proof.
  intros [E1 | (s & t & Ea & Eb)] [E2 | (s' & t' & Eb' & Ec)]; subst.
  - now left.
  - right. now exists s', t'.
  - right. now exists s, t.
  - right. now exists s, t'.
Qed.

Lemma mul_one_same (a : float) : good a -> same_number (F32.mul a F32.one) a.
Proof.
  intros (Va & Fa).
  destruct one_exact as ((V1 & F1) & E1).
  pose proof (mul_Rnd a F32.one Va V1 Fa F1) as HR. rewrite E1 in HR.
  now destruct (Rnd_representable _ _ a HR (conj Va Fa) ltac:(lra)) as (_ & _ & S).
Qed.

Lemma sub_diag (x : float) : F32.is_finite x = true -> F32.sub x x = F32.zero.
Proof. intros Fx. now apply SFsub_diag. Qed.

Lemma mul_finite_zero (b : float) :
  F32.is_finite b = true -> exists s, F32.mul b F32.zero = S754_zero s.
Proof.
  destruct b as [s | s | | s m e]; try discriminate; intros _; eexists; reflexivity.
Qed.

Section Lattice.
Context `{Platform}.

Lemma blend_weight_zero s :
  F32.mul (F32.sub F32.one (cosf (F32.mul (S754_zero s) (F32.lit 31415927 10000000))))
          (F32.lit 5 10) = F32.zero.
Proof.
  replace (F32.mul (S754_zero s) (F32.lit 31415927 10000000)) with (S754_zero s)
    by (destruct s; reflexivity).
  rewrite cosf_zero. reflexivity.
Qed.

Lemma interpolate_at_zero (a b : float) (s : bool) :
  good a -> F32.is_finite b = true ->
  same_number (cosine_interpolate a b (S754_zero s)) a.
Proof.
  intros Ga Fb. unfold cosine_interpolate.
  rewrite blend_weight_zero.
  replace (F32.sub F32.one F32.zero) with F32.one by reflexivity.
  destruct (mul_finite_zero b Fb) as (t & Eb). rewrite Eb.
  eapply same_number_trans; [ apply add_zero_same | ].
  now apply mul_one_same.
Qed.

End Lattice.

(** X8: with blend factor zero the interpolation returns its first endpoint:
    the weight (1 - cos 0)/2 is exactly 0 on every platform, and a*1 + b*0 is
    a for finite a and b. *)
Theorem cosine_interpolate_blend_zero `{Platform} (a b : float) (s : bool) :
  F32.valid a = true -> F32.is_finite a = true -> F32.is_finite b = true ->
  same_number (cosine_interpolate a b (S754_zero s)) a.
Proof.
  intros Va Fa Fb. apply interpolate_at_zero; [ now split | exact Fb ].
Qed.

Lemma cosine_interpolate_blend_zero_witness :
  same_number (@cosine_interpolate coarse_platform (F32.lit 3 10) (F32.of_int 7) F32.zero)
              (F32.lit 3 10).
Proof.
  apply (@cosine_interpolate_blend_zero coarse_platform); reflexivity.
Defined.

(** The integer a float stands for, read off its mantissa and exponent. *)
Lemma finite_integer s m e (i : Z) :
  SF2R (S754_finite s m e) = IZR i ->
  (0 <= e -> cond_Zopp s (Zpos m * 2 ^ e) = i) /\
  (e < 0 -> Zpos m = cond_Zopp s i * 2 ^ (- e)).
Proof.
  intros E. rewrite SF2R_finite in E. split; intros He.
  - apply eq_IZR. rewrite cond_Zopp_IZR, mult_IZR, <- bpow_IZR by lia.
    rewrite <- E. ring.
  - apply eq_IZR. rewrite mult_IZR, cond_Zopp_IZR, <- bpow_IZR by lia.
    rewrite <- E. rewrite bpow_opp.
    pose proof (bpow_gt_0 e).
    unfold sign_factor. destruct s; field; lra.
Qed.

Lemma binary_normalize_szero (i : Z) (s : bool) :
  i <> 0 ->
  binary_normalize F32.prec F32.emax i 0 s = binary_normalize F32.prec F32.emax i 0 false.
Proof. destruct i; [ congruence | reflexivity | reflexivity ]. Qed.

Section LatticePoint.
Context `{Platform}.

(** An integer below 2^24 survives the round trip through [float],
    [floorf] and the cast back to [int]. *)
Lemma float_to_int_of_int (i : Z) :
  Z.abs i < 2 ^ 24 ->
  floorf (F32.of_int i) = F32.of_int i /\ float_to_int (F32.of_int i) = i.
Proof.
  intros Hi.
  destruct (of_int_exact i Hi) as ((Vi & Fi) & Ei).
  destruct (F32.of_int i) as [s | s | | s m e] eqn:Ef; try discriminate Fi.
  - split; [ reflexivity | ]. simpl in Ei. simpl. apply eq_IZR. now rewrite <- Ei.
  - destruct (finite_integer s m e i Ei) as (Hpos & Hneg).
    assert (Hr : Int.in_range i = true).
    { unfold Int.in_range, Int.min_signed, Int.max_signed.
      apply andb_true_iff. split; apply Z.leb_le; lia. }
    unfold floorf, float_to_int. destruct (Z.leb_spec 0 e) as [He | He].
    + split; [ reflexivity | ].
      rewrite Z.shiftl_mul_pow2 by lia. rewrite (Hpos He), Hr. reflexivity.
    + specialize (Hneg He).
      assert (Hp : 0 < 2 ^ (- e)) by (apply Z.pow_pos_nonneg; lia).
      assert (Hnz : i <> 0) by (destruct s; simpl in Hneg; nia).
      rewrite !Z.shiftr_div_pow2 by lia.
      assert (Hq : Zpos m / 2 ^ (- e) = cond_Zopp s i).
      { rewrite Hneg. apply Z.div_mul. lia. }
      assert (Hc : cond_Zopp s (cond_Zopp s i) = i) by (destruct s; simpl; lia).
      split.
      * replace (cond_Zopp s (Zpos m) / 2 ^ (- e)) with i.
        -- rewrite binary_normalize_szero by exact Hnz. exact Ef.
        -- destruct s; simpl in *.
           ++ change (Zneg m) with (- Zpos m). rewrite Hneg.
              replace (- (- i * 2 ^ (- e))) with (i * 2 ^ (- e)) by ring.
              symmetry. apply Z.div_mul. lia.
           ++ rewrite Hneg. symmetry. apply Z.div_mul. lia.
      * rewrite Hq, Hc, Hr. reflexivity.
Qed.

End LatticePoint.

(** X9: at a lattice point the smoothed noise is the lattice value itself:
    both fractional parts are +0 and every interpolation returns its first
    endpoint. *)
Theorem smoothed_noise_lattice `{Platform} (i j : Z) :
  Z.abs i < 2 ^ 24 -> Z.abs j < 2 ^ 24 ->
  same_number (smoothed_noise (F32.of_int i) (F32.of_int j)) (simple_noise i j).
Proof.
  intros Hi Hj. unfold smoothed_noise.
  destruct (float_to_int_of_int i Hi) as (Fli & Ci).
  destruct (float_to_int_of_int j Hj) as (Flj & Cj).
  destruct (of_int_exact i Hi) as ((_ & Fi) & _).
  destruct (of_int_exact j Hj) as ((_ & Fj) & _).
  rewrite Fli, Flj, Ci, Cj.
  rewrite (sub_diag _ Fi), (sub_diag _ Fj).
  destruct (simple_noise_good i j) as (G1 & _).
  destruct (simple_noise_good (Int.add i 1) j) as (G2 & _).
  destruct (simple_noise_good i (Int.add j 1)) as (G3 & _).
  destruct (simple_noise_good (Int.add i 1) (Int.add j 1)) as (G4 & _).
  pose proof (interpolate_at_zero (simple_noise i j) (simple_noise (Int.add i 1) j)
                false G1 (proj2 G2)) as S1.
  pose proof (interpolate_at_zero (simple_noise i (Int.add j 1))
                (simple_noise (Int.add i 1) (Int.add j 1))
                false G3 (proj2 G4)) as S2.
  pose proof (same_number_good _ _ S1 G1) as G1'.
  pose proof (same_number_good _ _ S2 G3) as (_ & F2).
  eapply same_number_trans; [ | exact S1 ].
  now apply interpolate_at_zero.
Qed.

Lemma smoothed_noise_lattice_witness :
  Z.abs 3 < 2 ^ 24 /\ Z.abs (-7) < 2 ^ 24 /\
  same_number (@smoothed_noise coarse_platform (F32.of_int 3) (F32.of_int (-7)))
              (simple_noise 3 (-7)).
Proof.
  split; [ simpl; lia | ]. split; [ simpl; lia | ].
  apply (@smoothed_noise_lattice coarse_platform); simpl; lia.
Defined.

(** ** The lattice cell of a coordinate *)

Lemma cond_Zopp_involutive (s : bool) (k : Z) : cond_Zopp s (cond_Zopp s k) = k.
Proof. destruct s; simpl; lia. Qed.

Section Cell.
Context `{Platform}.

(** The cast to [int] of a float that stands for an integer in range. *)
Lemma float_to_int_exact (a : float) (k : Z) :
  F32.is_finite a = true -> SF2R a = IZR k -> Int.in_range k = true ->
  float_to_int a = k.
Proof.
  intros Fa Ea Hk. destruct a as [s | s | | s m e]; try discriminate Fa.
  - simpl in Ea. simpl. apply eq_IZR. now rewrite <- Ea.
  - destruct (finite_integer s m e k Ea) as (Hpos & Hneg).
    unfold float_to_int. destruct (Z.leb_spec 0 e) as [He | He].
    + rewrite Z.shiftl_mul_pow2 by lia. rewrite (Hpos He), Hk. reflexivity.
    + specialize (Hneg He).
      assert (Hp : 0 < 2 ^ (- e)) by (apply Z.pow_pos_nonneg; lia).
      rewrite Z.shiftr_div_pow2 by lia.
      rewrite Hneg, Z.div_mul by lia.
      rewrite cond_Zopp_involutive, Hk. reflexivity.
Qed.

Lemma normalize_exact (k : Z) (s : bool) :
  Z.abs k < 2 ^ 24 ->
  let a := binary_normalize F32.prec F32.emax k 0 s in
  good a /\ SF2R a = IZR k.
Proof.
  intros Hk a.
  destruct (representable k 0 Hk ltac:(lia)) as (B & GB & EB).
  rewrite bpow_0, Rmult_1_r in EB.
  pose proof (binary_normalize_Rnd k 0 s) as HR. rewrite bpow_0, Rmult_1_r in HR.
  destruct (Rnd_representable _ _ B HR GB EB) as (G & E & _).
  now split.
Qed.

Lemma in_range_small (k : Z) : Z.abs k < 2 ^ 31 -> Int.in_range k = true.
Proof.
  intros Hk. unfold Int.in_range, Int.min_signed, Int.max_signed.
  apply andb_true_iff. split; apply Z.leb_le; lia.
Qed.

Lemma lattice_cell (x : float) :
  good x -> (Rabs (SF2R x) < bpow 31)%R ->
  let int_x := float_to_int (floorf x) in
  let frac_x := F32.sub x (F32.of_int int_x) in
  (IZR int_x <= SF2R x < IZR int_x + 1)%R /\
  F32.is_finite frac_x = true /\ (0 <= SF2R frac_x <= 1)%R.
Proof.
  intros (Vx & Fx) Bx int_x frac_x.
  assert (Hcell : exists k, int_x = k /\ good (F32.of_int k) /\ SF2R (F32.of_int k) = IZR k /\
                            (IZR k <= SF2R x < IZR k + 1)%R).
  { subst int_x frac_x.
    destruct x as [s | s | | s m e]; try discriminate Fx.
    - exists 0. repeat split; simpl; lra.
    - destruct (Z.leb_spec 0 e) as [He | He].
      + (* an integer already *)
        set (k := cond_Zopp s (Zpos m * 2 ^ e)).
        assert (Ek : SF2R (S754_finite s m e) = IZR k).
        { unfold k. rewrite SF2R_finite, cond_Zopp_IZR, mult_IZR, <- bpow_IZR by lia. ring. }
        assert (Hk : Z.abs k < 2 ^ 31).
        { apply lt_IZR. rewrite abs_IZR, <- Ek, <- bpow_IZR by lia. exact Bx. }
        exists k.
        assert (Efl : floorf (S754_finite s m e) = S754_finite s m e).
        { unfold floorf. destruct (Z.leb_spec 0 e); [ reflexivity | lia ]. }
        rewrite Efl.
        split; [ apply float_to_int_exact; auto; now apply in_range_small | ].
        pose proof (of_int_Rnd k) as HR. rewrite <- Ek in HR.
        destruct (Rnd_representable _ _ _ HR (conj Vx Fx) eq_refl) as (G & E & _).
        repeat split; try apply G; rewrite ?E; lra.
      + (* a proper fraction: floor division of the mantissa *)
        set (a := cond_Zopp s (Zpos m)).
        set (k := a / 2 ^ (- e)).
        assert (Hp : 0 < 2 ^ (- e)) by (apply Z.pow_pos_nonneg; lia).
        assert (Hp2 : 2 <= 2 ^ (- e)).
        { change 2 with (2 ^ 1) at 1. apply Z.pow_le_mono_r; lia. }
        pose proof (valid_mantissa_lt s m e Vx) as Hm.
        assert (Hdm : a = 2 ^ (- e) * k + a mod 2 ^ (- e)) by (apply Z.div_mod; lia).
        pose proof (Z.mod_pos_bound a (2 ^ (- e)) Hp) as Hmod.
        assert (Ha : Z.abs a < 2 ^ 24) by (unfold a; destruct s; simpl; lia).
        assert (Hk : Z.abs k < 2 ^ 24) by nia.
        assert (Efl : floorf (S754_finite s m e) = binary_normalize F32.prec F32.emax k 0 s).
        { unfold floorf. destruct (Z.leb_spec 0 e); [ lia | ].
          now rewrite Z.shiftr_div_pow2 by lia. }
        destruct (normalize_exact k s Hk) as ((Vf & Ff) & Ef).
        exists k. rewrite Efl.
        split; [ apply float_to_int_exact; auto; apply in_range_small; lia | ].
        destruct (of_int_exact k Hk) as (Gk & Ek).
        split; [ exact Gk | ]. split; [ exact Ek | ].
        rewrite SF2R_finite, <- cond_Zopp_IZR. fold a.
        replace e with (- (- e)) by lia. rewrite bpow_neg_IZR by lia.
        assert (H2 : (0 < IZR (2 ^ (- e)))%R) by (apply IZR_lt; lia).
        assert (Hlo : (IZR k * IZR (2 ^ (- e)) <= IZR a)%R).
        { rewrite <- mult_IZR. apply IZR_le. lia. }
        assert (Hhi : (IZR a < (IZR k + 1) * IZR (2 ^ (- e)))%R).
        { rewrite <- plus_IZR, <- mult_IZR. apply IZR_lt. lia. }
        replace (- - - e) with (- e) by lia.
        split.
        * apply Rmult_le_reg_r with (IZR (2 ^ (- e))); [ exact H2 | ].
          replace (IZR a * / IZR (2 ^ (- e)) * IZR (2 ^ (- e)))%R with (IZR a)
            by (field; lra). exact Hlo.
        * apply Rmult_lt_reg_r with (IZR (2 ^ (- e))); [ exact H2 | ].
          replace (IZR a * / IZR (2 ^ (- e)) * IZR (2 ^ (- e)))%R with (IZR a)
            by (field; lra). exact Hhi. }
  destruct Hcell as (k & Ek & (Vk & Fk) & Rk & Hfloor).
  subst frac_x. rewrite Ek. split; [ exact Hfloor | ].
  pose proof (sub_Rnd x (F32.of_int k) Vx Vk Fx Fk) as HR. rewrite Rk in HR.
  destruct one_exact as ((V1 & F1) & E1).
  destruct (Rnd_between _ _ F32.zero F32.one HR) as (Ffr & Hfr);
    try reflexivity; try assumption.
  - rewrite E1. simpl. lra.
  - rewrite E1 in Hfr. simpl in Hfr. split; [ exact Ffr | exact Hfr ].
Qed.

End Cell.

(** X10: for every finite coordinate of magnitude below 2^31 the cast selects
    the lattice cell floor(x), and the blend factor x - floor(x), rounded
    once, lies in the closed interval [0, 1]. *)
Theorem smoothed_noise_cell `{Platform} (x : float) :
  F32.valid x = true -> F32.is_finite x = true -> (Rabs (SF2R x) < bpow 31)%R ->
  let int_x := float_to_int (floorf x) in
  let frac_x := F32.sub x (F32.of_int int_x) in
  (IZR int_x <= SF2R x < IZR int_x + 1)%R /\
  F32.is_finite frac_x = true /\ (0 <= SF2R frac_x <= 1)%R.
Proof.
  intros Vx Fx Bx. apply lattice_cell; [ now split | exact Bx ].
Qed.

(** The upper end is reached: for x = -2^-30 the cell is -1 and the blend
    factor 1 - 2^-30 rounds to 1. *)
Example smoothed_noise_cell_upper_end :
  let x := S754_finite true 8388608 (-53) in
  @float_to_int coarse_platform (floorf x) = -1 /\
  F32.sub x (F32.of_int (@float_to_int coarse_platform (floorf x))) = F32.one.
Proof. split; vm_compute; reflexivity. Qed.

Lemma smoothed_noise_cell_witness :
  let x := F32.opp (F32.lit 1234 100) in
  let int_x := @float_to_int coarse_platform (floorf x) in
  let frac_x := F32.sub x (F32.of_int int_x) in
  (IZR int_x <= SF2R x < IZR int_x + 1)%R /\
  F32.is_finite frac_x = true /\ (0 <= SF2R frac_x <= 1)%R.
Proof.
  apply (@smoothed_noise_cell coarse_platform); try reflexivity.
  SF2R_const (F32.opp (F32.lit 1234 100)).
  rewrite (bpow_IZR 31) by lia. change (2 ^ 31) with 2147483648.
  rewrite Rabs_left; lra.
Defined.

(** ** Interpolation between the endpoints *)

Section Between.
Context `{Platform}.

(** A weighted sum with weights g, f >= 0 lies between the operands scaled
    by g + f. *)
Lemma convex_bounds (a b g f lo hi : R) :
  (0 <= g)%R -> (0 <= f)%R -> (lo <= a <= hi)%R -> (lo <= b <= hi)%R ->
  (lo * (g + f) <= a * g + b * f <= hi * (g + f))%R.
Proof.
  intros Hg Hf Ha Hb.
  assert (0 <= (a - lo) * g)%R by (apply Rmult_le_pos; lra).
  assert (0 <= (b - lo) * f)%R by (apply Rmult_le_pos; lra).
  assert (0 <= (hi - a) * g)%R by (apply Rmult_le_pos; lra).
  assert (0 <= (hi - b) * f)%R by (apply Rmult_le_pos; lra).
  lra.
Qed.

Lemma interpolate_between (a b t : float) (lo hi : R) :
  good a -> good b -> good t ->
  (Rabs (SF2R t) <= bpow 110)%R ->
  (-2 <= lo)%R -> (hi <= 2)%R ->
  (lo <= SF2R a <= hi)%R -> (lo <= SF2R b <= hi)%R ->
  good (cosine_interpolate a b t) /\
  (lo - / 2097152 <= SF2R (cosine_interpolate a b t) <= hi + / 2097152)%R.
Proof.
  intros [Va Fa] [Vb Fb] Gt Ht Hlo Hhi Ha Hb. unfold cosine_interpolate.
  destruct (blend_weight_range t Gt Ht) as ([Vf Ff] & Bf). cbv zeta in Vf, Ff, Bf.
  set (f := F32.mul (F32.sub F32.one (cosf (F32.mul t (F32.lit 31415927 10000000))))
                    (F32.lit 5 10)) in *.
  pose proof u24_value as Hu. pose proof eta_small as He. unfold u24 in Hu.
  (* g = 1 - f *)
  pose proof (sub_Rnd F32.one f eq_refl Vf eq_refl Ff) as Rg.
  destruct (Rnd_between _ _ F32.zero F32.one Rg) as [Fg Bg]; try reflexivity.
  { SF2R_const F32.one. SF2R_const F32.zero. lra. }
  pose proof (Rnd_error_finite _ _ Rg Fg) as Eg.
  pose proof (rnd_valid _ _ Rg) as Vg.
  set (g := F32.sub F32.one f) in *.
  SF2R_const F32.one. SF2R_const F32.zero.
  fold eta in Eg. rewrite Hu in Eg.
  apply Rabs_le_inv in Eg. rewrite Rabs_pos_eq in Eg by lra.
  (* the exact weighted sum *)
  destruct (convex_bounds (SF2R a) (SF2R b) (SF2R g) (SF2R f) lo hi) as (Clo & Chi);
    try lra.
  assert (Hlod : (- (2 * (/ 16777216 + eta)) <= lo * (SF2R g + SF2R f - 1))%R).
  { assert (Rabs (lo * (SF2R g + SF2R f - 1)) <= 2 * (/ 16777216 + eta))%R.
    { apply mul_abs_le; apply Rabs_le; lra. }
    apply Rabs_le_inv in H0. lra. }
  assert (Hhid : (hi * (SF2R g + SF2R f - 1) <= 2 * (/ 16777216 + eta))%R).
  { assert (Rabs (hi * (SF2R g + SF2R f - 1)) <= 2 * (/ 16777216 + eta))%R.
    { apply mul_abs_le; apply Rabs_le; lra. }
    apply Rabs_le_inv in H0. lra. }
  (* p = a * g and q = b * f *)
  pose proof (mul_Rnd a g Va Vg Fa Fg) as Rp.
  assert (Hag : (Rabs (SF2R a * SF2R g) <= 2 * SF2R g)%R).
  { rewrite Rabs_mult, (Rabs_pos_eq (SF2R g)) by lra.
    apply Rmult_le_compat_r; [ lra | apply Rabs_le; lra ]. }
  destruct (Rnd_abs _ _ F32.two Rp) as ([Vp Fp] & _ & Ep); [split; reflexivity | |].
  { SF2R_const F32.two. lra. }
  pose proof (mul_Rnd b f Vb Vf Fb Ff) as Rq.
  assert (Hbf : (Rabs (SF2R b * SF2R f) <= 2 * SF2R f)%R).
  { rewrite Rabs_mult, (Rabs_pos_eq (SF2R f)) by lra.
    apply Rmult_le_compat_r; [ lra | apply Rabs_le; lra ]. }
  destruct (Rnd_abs _ _ F32.two Rq) as ([Vq Fq] & _ & Eq); [split; reflexivity | |].
  { SF2R_const F32.two. lra. }
  fold eta in Ep, Eq. rewrite Hu in Ep, Eq.
  set (p := F32.mul a g) in *. set (q := F32.mul b f) in *.
  apply Rabs_le_inv in Ep. apply Rabs_le_inv in Eq.
  pose proof (Rabs_le_inv _ _ Hag) as Hag'. pose proof (Rabs_le_inv _ _ Hbf) as Hbf'.
  pose proof (Rabs_pos (SF2R a * SF2R g)) as Wp.
  pose proof (Rabs_pos (SF2R b * SF2R f)) as Wq.
  (* r = p + q *)
  pose proof (add_Rnd p q Vp Vq Fp Fq) as Rr.
  assert (Hs : (Rabs (SF2R p + SF2R q) <= 3)%R) by (apply Rabs_le; lra).
  destruct (Rnd_abs _ _ (F32.of_int 4) Rr) as (Gr & _ & Er); [split; reflexivity | |].
  { SF2R_const (F32.of_int 4). lra. }
  fold eta in Er. rewrite Hu in Er.
  split; [exact Gr|].
  apply Rabs_le_inv in Er.
  assert (Hs2 : (Rabs (SF2R p + SF2R q) <= 2 * (1 + / 16777216 + eta) * (1 + / 16777216) + 2 * eta)%R).
  { apply Rabs_le. lra. }
  lra.
Qed.

End Between.

(** X11: the interpolation does not overshoot: for endpoints of magnitude at
    most 2 and every blend factor whose product with pi stays finite, the
    result is finite and lies between the smaller and the larger endpoint,
    up to 2^-21. *)
Theorem cosine_interpolate_between `{Platform} (a b blend : float) :
  good a -> good b -> good blend ->
  (Rabs (SF2R blend) <= bpow 110)%R ->
  (Rabs (SF2R a) <= 2)%R -> (Rabs (SF2R b) <= 2)%R ->
  F32.is_finite (cosine_interpolate a b blend) = true /\
  (Rmin (SF2R a) (SF2R b) - / 2097152 <= SF2R (cosine_interpolate a b blend)
     <= Rmax (SF2R a) (SF2R b) + / 2097152)%R.
Proof.
  intros Ga Gb Gt Bt Ba Bb.
  apply Rabs_le_inv in Ba. apply Rabs_le_inv in Bb.
  pose proof (Rmin_l (SF2R a) (SF2R b)). pose proof (Rmin_r (SF2R a) (SF2R b)).
  pose proof (Rmax_l (SF2R a) (SF2R b)). pose proof (Rmax_r (SF2R a) (SF2R b)).
  destruct (interpolate_between a b blend (Rmin (SF2R a) (SF2R b)) (Rmax (SF2R a) (SF2R b))
              Ga Gb Gt Bt) as ((_ & F) & B).
  - unfold Rmin. destruct (Rle_dec (SF2R a) (SF2R b)); lra.
  - unfold Rmax. destruct (Rle_dec (SF2R a) (SF2R b)); lra.
  - lra.
  - lra.
  - split; [ exact F | exact B ].
Qed.

Lemma cosine_interpolate_between_witness :
  let a := F32.opp F32.one in
  let b := F32.lit 3 10 in
  let blend := F32.of_int 5 in
  F32.is_finite (@cosine_interpolate coarse_platform a b blend) = true /\
  (Rmin (SF2R a) (SF2R b) - / 2097152 <= SF2R (@cosine_interpolate coarse_platform a b blend)
     <= Rmax (SF2R a) (SF2R b) + / 2097152)%R.
Proof.
  apply (@cosine_interpolate_between coarse_platform);
    try (split; reflexivity).
  - SF2R_const (F32.of_int 5). rewrite (bpow_IZR 110) by lia.
    change (2 ^ 110) with 1298074214633706907132624082305024.
    rewrite Rabs_pos_eq; lra.
  - SF2R_const (F32.opp F32.one). rewrite Rabs_left; lra.
  - SF2R_const (F32.lit 3 10). rewrite Rabs_pos_eq; lra.
Defined.

(** ** Bounds of the noise layers *)

Lemma small_real_bound (c : float) (k : Z) :
  0 <= k -> (Rabs (SF2R c) <= 1000)%R -> (1000 <= IZR (2 ^ k))%R ->
  (Rabs (SF2R c) <= bpow k)%R.
Proof. intros Hk Hc H2. rewrite bpow_IZR by lia. lra. Qed.

(** X12: five octaves with persistence 0.45 add up to at most
    1 + 0.45 + 0.45^2 + 0.45^3 + 0.45^4 = 1.785 times the layer bound: for
    coordinates of magnitude up to 2^104 the fractal noise is finite and
    within 1.788 of zero. *)
Theorem fractal_noise_bounded `{Platform} (x z : float) :
  good x -> good z ->
  (Rabs (SF2R x) <= bpow 104)%R -> (Rabs (SF2R z) <= bpow 104)%R ->
  F32.is_finite (fractal_noise x z) = true /\
  (Rabs (SF2R (fractal_noise x z)) <= 1788 / 1000)%R.
Proof.
  intros Gx Gz Bx Bz.
  destruct (fractal_noise_bound x z Gx Gz Bx Bz) as ((_ & F) & B).
  now split.
Qed.

Lemma fractal_noise_bounded_witness :
  let x := F32.lit 37 10 in
  let z := F32.opp (F32.lit 1234 100) in
  F32.is_finite (@fractal_noise coarse_platform x z) = true /\
  (Rabs (SF2R (@fractal_noise coarse_platform x z)) <= 1788 / 1000)%R.
Proof.
  apply (@fractal_noise_bounded coarse_platform); try (split; reflexivity).
  - apply small_real_bound; [ lia | | simpl; lra ].
    SF2R_const (F32.lit 37 10). rewrite Rabs_pos_eq; lra.
  - apply small_real_bound; [ lia | | simpl; lra ].
    SF2R_const (F32.opp (F32.lit 1234 100)). rewrite Rabs_left; lra.
Defined.

(** X13: the height query returns a finite number within 21.5 of zero, the
    range the height test quotes as approximately [-21.4, 21.4]. *)
Theorem get_terrain_height_magnitude `{Platform} (x z : float) :
  F32.valid x = true -> F32.valid z = true ->
  F32.leb (F32.opp COORD_LIMIT) x = true -> F32.leb x COORD_LIMIT = true ->
  F32.leb (F32.opp COORD_LIMIT) z = true -> F32.leb z COORD_LIMIT = true ->
  F32.is_finite (get_terrain_height x z) = true /\
  (Rabs (SF2R (get_terrain_height x z)) <= 215 / 10)%R.
Proof.
  intros Vx Vz Hxl Hxh Hzl Hzh.
  destruct (within_limit_real x Vx Hxl Hxh) as (Gx & Bx).
  destruct (within_limit_real z Vz Hzl Hzh) as (Gz & Bz).
  unfold get_terrain_height.
  destruct (noise_coordinate_bound x LANDSCAPE_WIDTH eq_refl Gx Bx) as (Gcx & Bcx).
  destruct (noise_coordinate_bound z LANDSCAPE_DEPTH eq_refl Gz Bz) as (Gcz & Bcz).
  cbv zeta in Gcx, Bcx, Gcz, Bcz.
  destruct (fractal_noise_bound _ _ Gcx Gcz Bcx Bcz) as (Gn & Bn).
  destruct (height_scale_tight _ Gn Bn) as ((_ & Fh) & Bh).
  split; [exact Fh | exact Bh].
Qed.

Lemma get_terrain_height_magnitude_witness :
  F32.is_finite (@get_terrain_height coarse_platform (F32.of_int 10) (F32.of_int (-20))) = true /\
  (Rabs (SF2R (@get_terrain_height coarse_platform (F32.of_int 10) (F32.of_int (-20))))
   <= 215 / 10)%R.
Proof.
  apply (@get_terrain_height_magnitude coarse_platform); reflexivity.
Defined.

(** ** Coordinates that are not numbers *)

Section NotFinite.
Context `{Platform}.

Lemma sub_not_finite (x y : float) :
  F32.is_finite x = false -> F32.is_finite (F32.sub x y) = false.
Proof.
  destruct x as [s | s | | s m e]; try discriminate; intros _.
  - apply sub_infinity_not_finite.
  - reflexivity.
Qed.

Lemma smoothed_noise_not_finite (x z : float) :
  F32.is_finite x = false \/ F32.is_finite z = false ->
  smoothed_noise x z = S754_nan.
Proof.
  intros [Hx | Hz]; unfold smoothed_noise.
  - rewrite (cosine_interpolate_nan_blend _ _ (F32.sub x _))
      by (apply sub_not_finite; exact Hx).
    apply cosine_interpolate_nan_left.
  - apply cosine_interpolate_nan_blend. apply sub_not_finite; exact Hz.
Qed.

Lemma mul_one_not_finite (x : float) :
  F32.is_finite x = false -> F32.is_finite (F32.mul x F32.one) = false.
Proof. destruct x as [s | [|] | | s m e]; try discriminate; reflexivity. Qed.

Lemma octave_step_nan (x z : float) (st : octave_state) :
  total st = S754_nan -> total (octave_step x z st) = S754_nan.
Proof. intros E. unfold octave_step. cbn [total]. rewrite E. reflexivity. Qed.

Lemma fractal_noise_not_finite (x z : float) :
  F32.is_finite x = false \/ F32.is_finite z = false ->
  fractal_noise x z = S754_nan.
Proof.
  intros Hxz. unfold fractal_noise, for_lt.
  change (Z.to_nat octaves) with 5%nat.
  cbn [for_range].
  do 4 apply octave_step_nan.
  unfold octave_step. cbn [total frequency amplitude].
  rewrite smoothed_noise_not_finite.
  - reflexivity.
  - destruct Hxz as [Hx | Hz]; [ left | right ]; now apply mul_one_not_finite.
Qed.

(** The scaling of a world coordinate to a noise coordinate keeps an
    infinity or a NaN what it is. *)
Lemma noise_coordinate_not_finite (x : float) :
  F32.is_finite x = false ->
  F32.is_finite
    (F32.mul (F32.div (F32.add x (F32.div (F32.of_int LANDSCAPE_WIDTH) F32.two))
                      (F32.of_int LANDSCAPE_WIDTH)) TERRAIN_SCALE) = false.
Proof. destruct x as [s | [|] | | s m e]; try discriminate; reflexivity. Qed.

End NotFinite.

(** X14: an infinite or NaN coordinate is not caught: the height query then
    returns NaN. *)
Theorem get_terrain_height_not_finite `{Platform} (x z : float) :
  F32.is_finite x = false \/ F32.is_finite z = false ->
  get_terrain_height x z = S754_nan.
Proof.
  intros Hxz. unfold get_terrain_height.
  rewrite fractal_noise_not_finite; [ reflexivity | ].
  destruct Hxz as [Hx | Hz]; [ left | right ]; now apply noise_coordinate_not_finite.
Qed.

Lemma get_terrain_height_not_finite_witness :
  (F32.is_finite (S754_infinity true) = false \/ F32.is_finite F32.one = false) /\
  @get_terrain_height coarse_platform (S754_infinity true) F32.one = S754_nan.
Proof.
  split; [ left; reflexivity | ].
  apply (@get_terrain_height_not_finite coarse_platform). left; reflexivity.
Defined.

(** ** The hull of the lattice values *)

(** X15: the smoothed noise is a blend of the four lattice values around the
    coordinate: for finite coordinates of magnitude up to 2^108 it is finite
    and lies between the smallest and the largest of them, up to 2^-20; in
    particular it stays within 1.000001 of zero. *)
Theorem smoothed_noise_between_corners `{Platform} (x z : float) (lo hi : R) :
  good x -> good z ->
  (Rabs (SF2R x) <= bpow 108)%R -> (Rabs (SF2R z) <= bpow 108)%R ->
  let int_x := float_to_int (floorf x) in
  let int_z := float_to_int (floorf z) in
  let v1 := simple_noise int_x int_z in
  let v2 := simple_noise (Int.add int_x 1) int_z in
  let v3 := simple_noise int_x (Int.add int_z 1) in
  let v4 := simple_noise (Int.add int_x 1) (Int.add int_z 1) in
  (lo <= SF2R v1 <= hi)%R -> (lo <= SF2R v2 <= hi)%R ->
  (lo <= SF2R v3 <= hi)%R -> (lo <= SF2R v4 <= hi)%R ->
  F32.is_finite (smoothed_noise x z) = true /\
  (lo - / 1048576 <= SF2R (smoothed_noise x z) <= hi + / 1048576)%R /\
  (Rabs (SF2R (smoothed_noise x z)) <= 1000001 / 1000000)%R.
Proof.
  intros Gx Gz Bx Bz int_x int_z v1 v2 v3 v4 H1 H2 H3 H4.
  destruct (fraction_bound x Gx Bx) as (Gfx & Bfx).
  destruct (fraction_bound z Gz Bz) as (Gfz & Bfz).
  cbv zeta in Gfx, Bfx, Gfz, Bfz. fold int_x in Gfx, Bfx. fold int_z in Gfz, Bfz.
  destruct (simple_noise_good int_x int_z) as (G1 & B1).
  destruct (simple_noise_good (Int.add int_x 1) int_z) as (G2 & B2).
  destruct (simple_noise_good int_x (Int.add int_z 1)) as (G3 & B3).
  destruct (simple_noise_good (Int.add int_x 1) (Int.add int_z 1)) as (G4 & B4).
  fold v1 in G1, B1. fold v2 in G2, B2. fold v3 in G3, B3. fold v4 in G4, B4.
  apply Rabs_le_inv in B1. apply Rabs_le_inv in B2.
  apply Rabs_le_inv in B3. apply Rabs_le_inv in B4.
  (* the hull of the corners, cut to [-1, 1] *)
  set (l := Rmax lo (-1)). set (h := Rmin hi 1).
  assert (Hl : (lo <= l /\ -1 <= l)%R) by (split; [ apply Rmax_l | apply Rmax_r ]).
  assert (Hh : (h <= hi /\ h <= 1)%R) by (split; [ apply Rmin_l | apply Rmin_r ]).
  assert (Hlv : forall v, (lo <= v)%R -> (-1 <= v)%R -> (l <= v)%R)
    by (intros v ? ?; unfold l; apply Rmax_lub; assumption).
  assert (Hhv : forall v, (v <= hi)%R -> (v <= 1)%R -> (v <= h)%R)
    by (intros v ? ?; unfold h; apply Rmin_glb; assumption).
  assert (L1 := Hlv _ (proj1 H1) (proj1 B1)). assert (U1 := Hhv _ (proj2 H1) (proj2 B1)).
  assert (L2 := Hlv _ (proj1 H2) (proj1 B2)). assert (U2 := Hhv _ (proj2 H2) (proj2 B2)).
  assert (L3 := Hlv _ (proj1 H3) (proj1 B3)). assert (U3 := Hhv _ (proj2 H3) (proj2 B3)).
  assert (L4 := Hlv _ (proj1 H4) (proj1 B4)). assert (U4 := Hhv _ (proj2 H4) (proj2 B4)).
  clearbody l h.
  destruct (interpolate_between v1 v2 _ l h G1 G2 Gfx Bfx) as (Gi1 & Bi1); try lra.
  destruct (interpolate_between v3 v4 _ l h G3 G4 Gfx Bfx) as (Gi2 & Bi2); try lra.
  destruct (interpolate_between _ _ _ (l - / 2097152) (h + / 2097152) Gi1 Gi2 Gfz Bfz)
    as ((_ & F) & B); try lra.
  unfold smoothed_noise. fold int_x int_z. fold v1 v2 v3 v4.
  split; [ exact F | ]. split; [ lra | apply Rabs_le; lra ].
Qed.

Lemma smoothed_noise_between_corners_witness :
  let x := F32.lit 37 10 in
  let z := F32.opp (F32.lit 1234 100) in
  F32.is_finite (@smoothed_noise coarse_platform x z) = true /\
  (-1 - / 1048576 <= SF2R (@smoothed_noise coarse_platform x z) <= 1 + / 1048576)%R /\
  (Rabs (SF2R (@smoothed_noise coarse_platform x z)) <= 1000001 / 1000000)%R.
Proof.
  apply (@smoothed_noise_between_corners coarse_platform); try (split; reflexivity).
  - apply small_real_bound; [ lia | | simpl; lra ].
    SF2R_const (F32.lit 37 10). rewrite Rabs_pos_eq; lra.
  - apply small_real_bound; [ lia | | simpl; lra ].
    SF2R_const (F32.opp (F32.lit 1234 100)). rewrite Rabs_left; lra.
  - apply Rabs_le_inv. apply simple_noise_good.
  - apply Rabs_le_inv. apply simple_noise_good.
  - apply Rabs_le_inv. apply simple_noise_good.
  - apply Rabs_le_inv. apply simple_noise_good.
Defined.

(** ** Normals along a border *)

(** The sign bit of a rounded result is the sign it was given. *)
Lemma binary_round_aux_sign (s : bool) (m e : Z) (l : location) :
  (0 <= sign_factor s * SF2R (binary_round_aux F32.prec F32.emax s m e l))%R.
Proof.
  unfold binary_round_aux.
  destruct (shr_fexp F32.prec F32.emax m e l) as [mrs' e'].
  destruct (shr_fexp F32.prec F32.emax _ e' loc_Exact) as [mrs'' e''].
  destruct (shr_m mrs'') as [ | p | p ]; try (simpl; lra).
  destruct (e'' <=? F32.emax - F32.prec); [ | simpl; lra ].
  rewrite SF2R_finite.
  pose proof (bpow_gt_0 e''). assert (0 < IZR (Zpos p))%R by (apply IZR_lt; lia).
  replace (sign_factor s * (sign_factor s * IZR (Zpos p) * bpow e''))%R
    with (IZR (Zpos p) * bpow e'')%R by (unfold sign_factor; destruct s; ring).
  apply Rmult_le_pos; lra.
Qed.

(** The reciprocal length by which [simd::normalize] scales a vector whose
    y lane is 2 is a positive finite float. *)
Lemma reciprocal_length_positive (v : float3) :
  tame v -> (/ 4 <= norm2 v)%R -> f3y v = F32.two ->
  exists m e, F32.div F32.one (F32.sqrt (simd.dot v v)) = S754_finite false m e.
Proof.
  intros Ht Hn Hy.
  destruct (normalize_accuracy v Ht Hn) as ((_ & ((_ & Fy) & _) & _) & _ & Hup).
  assert (H2 : (1 <= SF2R (f3y v))%R).
  { rewrite Hy. destruct two_exact as (_ & ->). lra. }
  specialize (Hup H2).
  unfold simd.normalize, simd.scale in Fy, Hup. cbn [f3y] in Fy, Hup.
  rewrite Hy in Fy, Hup.
  destruct (F32.div F32.one (F32.sqrt (simd.dot v v))) as [s | s | | s m e].
  - exfalso. simpl in Hup. lra.
  - discriminate Fy.
  - discriminate Fy.
  - destruct s; [ exfalso | now exists m, e ].
    pose proof (binary_round_aux_sign true (Zpos (8388608 * m)) (-22 + e) loc_Exact) as Hs.
    change (binary_round_aux F32.prec F32.emax true (Zpos (8388608 * m)) (-22 + e) loc_Exact)
      with (F32.mul F32.two (S754_finite true m e)) in Hs.
    unfold sign_factor in Hs. lra.
Qed.

(** X16: on a grid one cell wide the left and right neighbours of a vertex are
    the vertex itself: its normal has no x component.  The same holds for z
    on a grid one cell deep, and the single vertex of a 1 x 1 grid has the
    normal (0, 1, 0) exactly. *)
Theorem create_landscape_border_normals `{Platform} (width depth x z : Z) :
  0 < width <= Int.max_signed -> 0 < depth <= Int.max_signed ->
  0 <= x < width -> 0 <= z < depth ->
  let n := normal (vec_get (vertices (create_landscape width depth)) (z * width + x)) in
  (width = 1 -> f3x n = F32.zero) /\
  (depth = 1 -> f3z n = F32.zero) /\
  (width = 1 -> depth = 1 -> n = mk_float3 F32.zero F32.one F32.zero).
Proof.
  intros Hw Hd Hx Hz n. subst n.
  rewrite mesh_normal by lia.
  destruct (grid_slope_tame width depth x z Hx Hz ltac:(lia) ltac:(lia)) as (Ht & _ & Hn).
  destruct (reciprocal_length_positive (grid_slope width depth x z) Ht ltac:(lra) eq_refl)
    as (m & e & Ek).
  assert (Hflat_x : width = 1 -> f3x (grid_slope width depth x z) = F32.zero).
  { intros ->. replace x with 0 by lia. unfold grid_slope. cbn [f3x Z.ltb Z.sub Z.add].
    apply sub_diag.
    now destruct (grid_height_bound 1 depth 0 z ltac:(lia) Hz ltac:(lia) ltac:(lia))
      as ((_ & F) & _). }
  assert (Hflat_z : depth = 1 -> f3z (grid_slope width depth x z) = F32.zero).
  { intros ->. replace z with 0 by lia. unfold grid_slope. cbn [f3z Z.ltb Z.sub Z.add].
    apply sub_diag.
    now destruct (grid_height_bound width 1 x 0 Hx ltac:(lia) ltac:(lia) ltac:(lia))
      as ((_ & F) & _). }
  unfold simd.normalize, simd.scale. rewrite Ek. cbn [f3x f3y f3z].
  split; [ | split ].
  - intros E. rewrite (Hflat_x E). reflexivity.
  - intros E. rewrite (Hflat_z E). reflexivity.
  - intros E1 E2.
    assert (Ev : grid_slope width depth x z = mk_float3 F32.zero F32.two F32.zero).
    { specialize (Hflat_x E1). specialize (Hflat_z E2).
      destruct (grid_slope width depth x z) as [vx vy vz] eqn:Eg.
      cbn [f3x f3z] in Hflat_x, Hflat_z. subst vx vz.
      assert (Hy : f3y (grid_slope width depth x z) = F32.two) by reflexivity.
      rewrite Eg in Hy. cbn [f3y] in Hy. now subst vy. }
    rewrite Ev in Ek |- *. cbn [f3x f3y f3z].
    assert (Ek' : F32.div F32.one (F32.sqrt (simd.dot (mk_float3 F32.zero F32.two F32.zero)
                                                      (mk_float3 F32.zero F32.two F32.zero)))
                  = F32.lit 5 10) by (vm_compute; reflexivity).
    rewrite Ek' in Ek. rewrite <- Ek. vm_compute. reflexivity.
Qed.

Lemma create_landscape_border_normals_witness :
  let n := normal (vec_get (vertices (@create_landscape coarse_platform 1 1)) (0 * 1 + 0)) in
  f3x n = F32.zero /\ f3z n = F32.zero /\ n = mk_float3 F32.zero F32.one F32.zero.
Proof.
  destruct (@create_landscape_border_normals coarse_platform 1 1 0 0) as (Hx & Hz & Hn);
    try (unfold Int.max_signed; lia).
  split; [ apply Hx; reflexivity | ]. split; [ apply Hz; reflexivity | ].
  apply Hn; reflexivity.
Defined.

(** ** The pointer at rest *)

Lemma pointer_delta_still (st : Statics) (mouseX mouseY : double) :
  firstMouse st = true \/ (lastMouseX st = mouseX /\ lastMouseY st = mouseY) ->
  F64.is_finite mouseX = true -> F64.is_finite mouseY = true ->
  pointer_delta st mouseX mouseY =
  (F32.zero, F32.zero,
   {| lastMouseX := mouseX; lastMouseY := mouseY; firstMouse := false |}).
Proof.
  intros Hst Hx Hy. unfold pointer_delta, F64.sub.
  destruct (firstMouse st).
  - now rewrite !SFsub_diag.
  - destruct Hst as [Hf | (Ex & Ey)]; [ discriminate | ].
    rewrite Ex, Ey. now rewrite !SFsub_diag.
Qed.

Lemma update_camera_statics `{Platform} st cam dt keys mouseX mouseY :
  fst (update_camera st cam dt keys mouseX mouseY) =
  {| lastMouseX := mouseX; lastMouseY := mouseY; firstMouse := false |}.
Proof. reflexivity. Qed.

Lemma update_camera_lookSpeed `{Platform} st cam dt keys mouseX mouseY :
  lookSpeed (snd (update_camera st cam dt keys mouseX mouseY)) = lookSpeed cam.
Proof. reflexivity. Qed.

(** X17: a second call with the pointer where the first call left it turns
    nothing: the statics hold that position, the delta is zero, and yaw and
    pitch keep their values, whatever the statics were before the first
    call. *)
Theorem update_camera_still_pointer `{Platform} st cam dt keys dt' keys' mouseX mouseY :
  F64.is_finite mouseX = true -> F64.is_finite mouseY = true ->
  F32.is_finite (lookSpeed cam) = true ->
  let r1 := update_camera st cam dt keys mouseX mouseY in
  let r2 := update_camera (fst r1) (snd r1) dt' keys' mouseX mouseY in
  fst r2 = fst r1 /\
  same_number (yaw (snd r2)) (yaw (snd r1)) /\
  same_number (pitch (snd r2)) (pitch (snd r1)).
Proof.
  intros Hx Hy Hk r1 r2. subst r2.
  split; [ subst r1; now rewrite !update_camera_statics | ].
  rewrite update_camera_yaw, update_camera_pitch.
  assert (Hd : pointer_delta (fst r1) mouseX mouseY =
               (F32.zero, F32.zero,
                {| lastMouseX := mouseX; lastMouseY := mouseY; firstMouse := false |})).
  { apply pointer_delta_still; try assumption.
    right. subst r1. rewrite update_camera_statics. split; reflexivity. }
  rewrite Hd. cbn [fst snd].
  assert (Hk1 : F32.is_finite (lookSpeed (snd r1)) = true)
    by (subst r1; now rewrite update_camera_lookSpeed).
  destruct (mul_zero_finite _ Hk1) as (s & ->).
  split; [ apply add_zero_same | ].
  assert (Hp : pitch (snd r1) = clamp_pitch (F32.sub (pitch cam)
             (F32.mul (snd (fst (pointer_delta st mouseX mouseY))) (lookSpeed cam))))
    by (subst r1; apply update_camera_pitch).
  destruct (clamp_pitch_range (F32.sub (pitch cam)
             (F32.mul (snd (fst (pointer_delta st mouseX mouseY))) (lookSpeed cam))))
    as [Hn | (Hlo & Hhi)]; rewrite <- Hp in *.
  - destruct (pitch (snd r1)); try discriminate Hn. now left.
  - apply clamp_pitch_same; auto. apply sub_zero_same.
Qed.

Lemma update_camera_still_pointer_witness :
  let cam := @make_camera coarse_platform 800 600 in
  let mouseX := F64.of_int 640 in
  let mouseY := F64.of_int (-480) in
  let r1 := @update_camera coarse_platform statics_after_origin cam F32.one
              (fun _ => false) mouseX mouseY in
  let r2 := @update_camera coarse_platform (fst r1) (snd r1) F32.one
              (fun _ => false) mouseX mouseY in
  fst r2 = fst r1 /\
  same_number (yaw (snd r2)) (yaw (snd r1)) /\
  same_number (pitch (snd r2)) (pitch (snd r1)).
Proof.
  apply (@update_camera_still_pointer coarse_platform); reflexivity.
Defined.

(** ** A time step that is not a number *)

Lemma mul_nan_r (a : float) : F32.mul a S754_nan = S754_nan.
Proof. now destruct a. Qed.

(** X18: when a movement key is held (the move direction is longer than the
    epsilon) and the time step is NaN, every lane of the new position is
    NaN before clamping, and the clamp, which drops NaN operands, sends the
    camera to the lower corner (-20, 0, -20) of the box. *)
Theorem update_camera_nan_step `{Platform} st cam keys mouseX mouseY :
  let r := update_camera st cam S754_nan keys mouseX mouseY in
  let forward := forward_of (yaw (snd r)) (pitch (snd r)) in
  F32.ltb MOVE_EPSILON (simd.length (move_dir keys forward (right_of forward))) = true ->
  cam_position (snd r) = minBounds.
Proof.
  intros r forward Hmove. subst r.
  rewrite update_camera_position. cbv zeta. fold forward.
  unfold advance. rewrite Hmove.
  unfold simd.clamp, simd.add, simd.scale, simd.map2. cbn [f3x f3y f3z].
  rewrite !mul_nan_r, !add_nan_right. reflexivity.
Qed.

Lemma update_camera_nan_step_witness :
  let r := @update_camera coarse_platform initial_statics
             (@make_camera coarse_platform 800 600) S754_nan only_W F64.zero F64.zero in
  let forward := @forward_of coarse_platform (yaw (snd r)) (pitch (snd r)) in
  F32.ltb MOVE_EPSILON (simd.length (move_dir only_W forward (right_of forward))) = true /\
  cam_position (snd r) = minBounds.
Proof.
  split; [ vm_compute; reflexivity | ].
  apply (@update_camera_nan_step coarse_platform). vm_compute. reflexivity.
Defined.

(** ** Degenerate views *)

Lemma sub_nan_l (a : float) : F32.sub S754_nan a = S754_nan.
Proof. reflexivity. Qed.

Lemma mul_nan_l (a : float) : F32.mul S754_nan a = S754_nan.
Proof. reflexivity. Qed.

Lemma add_nan_l (a : float) : F32.add S754_nan a = S754_nan.
Proof. reflexivity. Qed.

(** X19: looking at the eye itself is not guarded: the view direction is the
    normalised zero vector, 0 * (1/0) = NaN in every lane, and every entry
    of the view matrix that depends on it is NaN. *)
Theorem matrix_look_at_right_hand_degenerate (eye up : float3) :
  F32.is_finite (f3x eye) = true -> F32.is_finite (f3y eye) = true ->
  F32.is_finite (f3z eye) = true ->
  matrix_look_at_right_hand eye eye up =
  mk_float4x4 (nan_column F32.zero) (nan_column F32.zero) (nan_column F32.zero)
              (nan_column F32.one).
Proof.
  intros Fx Fy Fz. unfold matrix_look_at_right_hand.
  assert (Ef : simd.normalize (simd.sub eye eye) = mk_float3 S754_nan S754_nan S754_nan).
  { unfold simd.sub, simd.map2. rewrite !sub_diag by assumption. reflexivity. }
  rewrite Ef. unfold simd.cross, simd.normalize, simd.dot, simd.scale, nan_column.
  cbn [f3x f3y f3z].
  rewrite ?mul_nan_l, ?sub_nan_l, ?add_nan_l. cbn [f3x f3y f3z].
  rewrite ?mul_nan_l, ?sub_nan_l, ?add_nan_l. reflexivity.
Qed.

Lemma matrix_look_at_right_hand_degenerate_witness :
  let eye := mk_float3 F32.zero F32.one (F32.of_int 5) in
  matrix_look_at_right_hand eye eye world_up =
  mk_float4x4 (nan_column F32.zero) (nan_column F32.zero) (nan_column F32.zero)
              (nan_column F32.one).
Proof.
  apply matrix_look_at_right_hand_degenerate; reflexivity.
Defined.

(** ** Signs *)

Lemma binary_round_aux_opp (s : bool) (m e : Z) (l : location) :
  binary_round_aux F32.prec F32.emax (negb s) m e l =
  SFopp (binary_round_aux F32.prec F32.emax s m e l).
Proof.
  unfold binary_round_aux.
  destruct (shr_fexp F32.prec F32.emax m e l) as [mrs' e'].
  destruct (shr_fexp F32.prec F32.emax _ e' loc_Exact) as [mrs'' e''].
  destruct (shr_m mrs''); [ reflexivity | | reflexivity ].
  destruct (e'' <=? F32.emax - F32.prec); reflexivity.
Qed.

Lemma mul_opp_l (a b : float) : F32.mul (F32.opp a) b = F32.opp (F32.mul a b).
Proof.
  destruct a as [sa | sa | | sa ma ea], b as [sb | sb | | sb mb eb];
    try reflexivity; try (destruct sa, sb; reflexivity).
  unfold F32.mul, F32.opp. cbn [SFopp SFmul].
  rewrite <- binary_round_aux_opp. now destruct sa, sb.
Qed.

Lemma add_opp_r (a b : float) : F32.add a (F32.opp b) = F32.sub a b.
Proof.
  destruct a as [sa | sa | | sa ma ea], b as [sb | sb | | sb mb eb];
    try reflexivity; destruct sa, sb; reflexivity.
Qed.

Lemma one_mul_same (a : float) : good a -> same_number (F32.mul F32.one a) a.
Proof.
  intros (Va & Fa).
  destruct one_exact as ((V1 & F1) & E1).
  pose proof (mul_Rnd F32.one a V1 Va F1 Fa) as HR. rewrite E1 in HR.
  now destruct (Rnd_representable _ _ a HR (conj Va Fa) ltac:(lra)) as (_ & _ & S).
Qed.

Lemma positive_not_zero (a : float) : F32.ltb F32.zero a = true -> forall s, a <> S754_zero s.
Proof. intros H s ->. discriminate H. Qed.

Lemma one_mul_positive (a : float) :
  good a -> F32.ltb F32.zero a = true -> F32.mul F32.one a = a.
Proof.
  intros Ga Hp.
  destruct (one_mul_same a Ga) as [E | (s & t & _ & E)]; [ exact E | ].
  now destruct (positive_not_zero a Hp t).
Qed.

(** ** A level camera *)

Lemma leb_zero_sign (lo hi : float) (s t : bool) :
  F32.leb lo (S754_zero s) = true -> F32.leb (S754_zero s) hi = true ->
  F32.leb lo (S754_zero t) = true /\ F32.leb (S754_zero t) hi = true.
Proof. destruct lo, hi; auto. Qed.

Lemma mul_zero_zero (s : bool) (k : float) :
  F32.is_finite k = true -> exists t, F32.mul (S754_zero s) k = S754_zero t.
Proof.
  destruct k as [sk | sk | | sk m e]; try discriminate; intros _; eexists; reflexivity.
Qed.

(** A lane the move direction does not touch keeps its value through the
    step and the clamp. *)
Lemma still_lane (px speed dt lo hi : float) :
  F32.is_finite speed = true -> F32.is_finite dt = true ->
  F32.leb lo px = true -> F32.leb px hi = true ->
  same_number (clamp_to lo hi (F32.add px (F32.mul (F32.mul F32.zero speed) dt))) px.
Proof.
  intros Fs Fd Hlo Hhi.
  destruct (mul_zero_zero false speed Fs) as (t & Et). fold F32.zero in Et. rewrite Et.
  destruct (mul_zero_zero t dt Fd) as (u & Eu). rewrite Eu.
  unfold clamp_to.
  destruct (add_zero_same px u) as [E | (a & b & Ea & Eb)].
  - rewrite E. left. now apply clamp_lane_inside.
  - rewrite Ea. rewrite Eb in Hlo, Hhi.
    destruct (leb_zero_sign lo hi b a Hlo Hhi) as (Hlo' & Hhi').
    rewrite clamp_lane_inside by assumption.
    right. now exists a, b.
Qed.

Section LevelCamera.
Context `{Platform}.

Lemma level_camera_stays_level st cam dt keys mouseX mouseY :
  yaw cam = F32.zero -> pitch cam = F32.zero ->
  F32.is_finite (lookSpeed cam) = true ->
  fst (pointer_delta st mouseX mouseY) = (F32.zero, F32.zero) ->
  yaw (snd (update_camera st cam dt keys mouseX mouseY)) = F32.zero /\
  pitch (snd (update_camera st cam dt keys mouseX mouseY)) = F32.zero.
Proof.
  intros Hy Hp Hk Hd.
  rewrite update_camera_yaw, update_camera_pitch, Hd, Hy, Hp. cbn [fst snd].
  destruct (mul_zero_finite _ Hk) as (s & ->).
  split; now destruct s.
Qed.

End LevelCamera.

(** X20: from a level camera (yaw = pitch = 0) with the pointer at rest, the
    forward key moves the camera by exactly moveSpeed * dt along -z and the
    strafe-right key by the same step along +x, the result clamped to the
    box; the other two coordinates keep their values.  This holds on every
    platform: only cos 0 = 1 and sin 0 = 0 enter. *)
Theorem update_camera_level_motion `{Platform} st cam dt mouseX mouseY :
  yaw cam = F32.zero -> pitch cam = F32.zero ->
  F32.is_finite (lookSpeed cam) = true ->
  fst (pointer_delta st mouseX mouseY) = (F32.zero, F32.zero) ->
  F32.valid (moveSpeed cam) = true -> F32.is_finite (moveSpeed cam) = true ->
  F32.ltb F32.zero (moveSpeed cam) = true ->
  F32.is_finite dt = true ->
  in_bounds (cam_position cam) ->
  let p := cam_position cam in
  let step := F32.mul (moveSpeed cam) dt in
  let pW := cam_position (snd (update_camera st cam dt only_W mouseX mouseY)) in
  let pD := cam_position (snd (update_camera st cam dt only_D mouseX mouseY)) in
  (same_number (f3x pW) (f3x p) /\ same_number (f3y pW) (f3y p) /\
   f3z pW = clamp_to (f3z minBounds) (f3z maxBounds) (F32.sub (f3z p) step)) /\
  (f3x pD = clamp_to (f3x minBounds) (f3x maxBounds) (F32.add (f3x p) step) /\
   same_number (f3y pD) (f3y p) /\ same_number (f3z pD) (f3z p)).
Proof.
  intros Hy Hp Hk Hd Vs Fs Ps Fd ((Hx1 & Hx2) & (Hy1 & Hy2) & (Hz1 & Hz2)) p step pW pD.
  subst pW pD.
  rewrite !update_camera_position. cbv zeta.
  destruct (level_camera_stays_level st cam dt only_W mouseX mouseY Hy Hp Hk Hd) as (-> & ->).
  destruct (level_camera_stays_level st cam dt only_D mouseX mouseY Hy Hp Hk Hd) as (-> & ->).
  rewrite forward_of_level.
  replace (move_dir only_W (mk_float3 F32.zero F32.zero (F32.opp F32.one))
             (right_of (mk_float3 F32.zero F32.zero (F32.opp F32.one))))
    with (mk_float3 F32.zero F32.zero (F32.opp F32.one)) by (vm_compute; reflexivity).
  replace (move_dir only_D (mk_float3 F32.zero F32.zero (F32.opp F32.one))
             (right_of (mk_float3 F32.zero F32.zero (F32.opp F32.one))))
    with (mk_float3 F32.one F32.zero F32.zero) by (vm_compute; reflexivity).
  unfold advance.
  replace (F32.ltb MOVE_EPSILON (simd.length (mk_float3 F32.zero F32.zero (F32.opp F32.one))))
    with true by (vm_compute; reflexivity).
  replace (F32.ltb MOVE_EPSILON (simd.length (mk_float3 F32.one F32.zero F32.zero)))
    with true by (vm_compute; reflexivity).
  replace (simd.normalize (mk_float3 F32.zero F32.zero (F32.opp F32.one)))
    with (mk_float3 F32.zero F32.zero (F32.opp F32.one)) by (vm_compute; reflexivity).
  replace (simd.normalize (mk_float3 F32.one F32.zero F32.zero))
    with (mk_float3 F32.one F32.zero F32.zero) by (vm_compute; reflexivity).
  unfold simd.clamp, simd.add, simd.scale, simd.map2. cbn [f3x f3y f3z].
  fold (clamp_to (f3x minBounds) (f3x maxBounds)).
  fold (clamp_to (f3y minBounds) (f3y maxBounds)).
  fold (clamp_to (f3z minBounds) (f3z maxBounds)).
  rewrite mul_opp_l, (one_mul_positive _ (conj Vs Fs) Ps), mul_opp_l, add_opp_r.
  subst p step.
  repeat split; try reflexivity; now apply still_lane.
Qed.

Lemma update_camera_level_motion_witness :
  let cam := @make_camera coarse_platform 800 600 in
  let p := cam_position cam in
  let step := F32.mul (moveSpeed cam) F32.one in
  let pW := cam_position (snd (@update_camera coarse_platform initial_statics cam F32.one
                                 only_W F64.zero F64.zero)) in
  let pD := cam_position (snd (@update_camera coarse_platform initial_statics cam F32.one
                                 only_D F64.zero F64.zero)) in
  (same_number (f3x pW) (f3x p) /\ same_number (f3y pW) (f3y p) /\
   f3z pW = clamp_to (f3z minBounds) (f3z maxBounds) (F32.sub (f3z p) step)) /\
  (f3x pD = clamp_to (f3x minBounds) (f3x maxBounds) (F32.add (f3x p) step) /\
   same_number (f3y pD) (f3y p) /\ same_number (f3z pD) (f3z p)).
Proof.
  apply (@update_camera_level_motion coarse_platform); try reflexivity.
  repeat split; reflexivity.
Defined.

(** ** Frame after frame *)

Section Frames.
Context `{Platform}.

Lemma update_camera_settled st cam dt keys mouseX mouseY :
  settled (update_camera st cam dt keys mouseX mouseY).
Proof.
  unfold settled. split; [ | split ].
  - rewrite update_camera_position. apply clamp_in_bounds.
  - rewrite update_camera_pitch. apply clamp_pitch_range.
  - reflexivity.
Qed.

Lemma update_camera_same_settings st cam dt keys mouseX mouseY :
  same_settings cam (snd (update_camera st cam dt keys mouseX mouseY)).
Proof. repeat split. Qed.

Lemma run_frames_snoc st cam frames fr :
  run_frames st cam (frames ++ [fr]) =
  update_camera (fst (run_frames st cam frames)) (snd (run_frames st cam frames))
                (frame_dt fr) (frame_keys fr) (frame_mouseX fr) (frame_mouseY fr).
Proof. unfold run_frames. now rewrite fold_left_app. Qed.

End Frames.

(** X21: over any number of frames: the settings (move speed, look speed,
    projection) are never written, and after at least one frame the
    position is inside the box, the pitch is clamped (or NaN) and the
    pointer statics are initialised, whatever the inputs were. *)
Theorem update_camera_frames_invariant `{Platform} st cam (frames : list Frame) :
  same_settings cam (snd (run_frames st cam frames)) /\
  (frames <> [] -> settled (run_frames st cam frames)).
Proof.
  induction frames as [ | fr frames IH ] using rev_ind.
  - split; [ repeat split | congruence ].
  - rewrite run_frames_snoc. destruct IH as ((Hm & Hl & Hp) & _). split.
    + destruct (update_camera_same_settings
                  (fst (run_frames st cam frames)) (snd (run_frames st cam frames))
                  (frame_dt fr) (frame_keys fr) (frame_mouseX fr) (frame_mouseY fr))
        as (Hm' & Hl' & Hp').
      repeat split; congruence.
    + intros _. apply update_camera_settled.
Qed.

Lemma update_camera_frames_invariant_witness :
  let frames := [ {| frame_dt := F32.one; frame_keys := only_W;
                     frame_mouseX := F64.of_int 10; frame_mouseY := F64.zero |};
                  {| frame_dt := F32.lit 1 60; frame_keys := only_D;
                     frame_mouseX := F64.of_int 30; frame_mouseY := F64.of_int (-400) |} ] in
  let cam := @make_camera coarse_platform 800 600 in
  frames <> [] /\
  same_settings cam (snd (@run_frames coarse_platform initial_statics cam frames)) /\
  settled (@run_frames coarse_platform initial_statics cam frames).
Proof.
  split; [ discriminate | ].
  destruct (@update_camera_frames_invariant coarse_platform initial_statics
              (@make_camera coarse_platform 800 600)
              [ {| frame_dt := F32.one; frame_keys := only_W;
                   frame_mouseX := F64.of_int 10; frame_mouseY := F64.zero |};
                {| frame_dt := F32.lit 1 60; frame_keys := only_D;
                   frame_mouseX := F64.of_int 30; frame_mouseY := F64.of_int (-400) |} ])
    as (Hs & Hi).
  split; [ exact Hs | apply Hi; discriminate ].
Defined.

(** ** Vertical motion *)

(** X22: the up and down keys do not consult the orientation: with only space
    held the camera rises by exactly moveSpeed * dt, with only 'C' held it
    sinks by the same step, the result clamped to [0, 20]; x and z keep
    their values.  This holds for every yaw, pitch and pointer input. *)
Theorem update_camera_vertical_motion `{Platform} st cam dt mouseX mouseY :
  F32.valid (moveSpeed cam) = true -> F32.is_finite (moveSpeed cam) = true ->
  F32.ltb F32.zero (moveSpeed cam) = true ->
  F32.is_finite dt = true ->
  in_bounds (cam_position cam) ->
  let p := cam_position cam in
  let step := F32.mul (moveSpeed cam) dt in
  let pU := cam_position (snd (update_camera st cam dt only_space mouseX mouseY)) in
  let pD := cam_position (snd (update_camera st cam dt only_C mouseX mouseY)) in
  (same_number (f3x pU) (f3x p) /\
   f3y pU = clamp_to (f3y minBounds) (f3y maxBounds) (F32.add (f3y p) step) /\
   same_number (f3z pU) (f3z p)) /\
  (same_number (f3x pD) (f3x p) /\
   f3y pD = clamp_to (f3y minBounds) (f3y maxBounds) (F32.sub (f3y p) step) /\
   same_number (f3z pD) (f3z p)).
Proof.
  intros Vs Fs Ps Fd ((Hx1 & Hx2) & (Hy1 & Hy2) & (Hz1 & Hz2)) p step pU pD.
  subst pU pD.
  rewrite !update_camera_position. cbv zeta.
  rewrite !update_camera_yaw, !update_camera_pitch.
  set (fwd := forward_of _ _).
  replace (move_dir only_space fwd (right_of fwd))
    with (mk_float3 F32.zero F32.one F32.zero) by reflexivity.
  replace (move_dir only_C fwd (right_of fwd))
    with (mk_float3 F32.zero (F32.opp F32.one) F32.zero) by reflexivity.
  unfold advance.
  replace (F32.ltb MOVE_EPSILON (simd.length (mk_float3 F32.zero F32.one F32.zero)))
    with true by (vm_compute; reflexivity).
  replace (F32.ltb MOVE_EPSILON (simd.length (mk_float3 F32.zero (F32.opp F32.one) F32.zero)))
    with true by (vm_compute; reflexivity).
  replace (simd.normalize (mk_float3 F32.zero F32.one F32.zero))
    with (mk_float3 F32.zero F32.one F32.zero) by (vm_compute; reflexivity).
  replace (simd.normalize (mk_float3 F32.zero (F32.opp F32.one) F32.zero))
    with (mk_float3 F32.zero (F32.opp F32.one) F32.zero) by (vm_compute; reflexivity).
  unfold simd.clamp, simd.add, simd.scale, simd.map2. cbn [f3x f3y f3z].
  fold (clamp_to (f3x minBounds) (f3x maxBounds)).
  fold (clamp_to (f3y minBounds) (f3y maxBounds)).
  fold (clamp_to (f3z minBounds) (f3z maxBounds)).
  rewrite mul_opp_l, (one_mul_positive _ (conj Vs Fs) Ps), mul_opp_l, add_opp_r.
  subst p step.
  repeat split; try reflexivity; now apply still_lane.
Qed.

Lemma update_camera_vertical_motion_witness :
  let cam := @make_camera coarse_platform 800 600 in
  let p := cam_position cam in
  let step := F32.mul (moveSpeed cam) F32.one in
  let pU := cam_position (snd (@update_camera coarse_platform statics_after_origin cam F32.one
                                 only_space (F64.of_int 300) (F64.of_int 200))) in
  let pD := cam_position (snd (@update_camera coarse_platform statics_after_origin cam F32.one
                                 only_C (F64.of_int 300) (F64.of_int 200))) in
  (same_number (f3x pU) (f3x p) /\
   f3y pU = clamp_to (f3y minBounds) (f3y maxBounds) (F32.add (f3y p) step) /\
   same_number (f3z pU) (f3z p)) /\
  (same_number (f3x pD) (f3x p) /\
   f3y pD = clamp_to (f3y minBounds) (f3y maxBounds) (F32.sub (f3y p) step) /\
   same_number (f3z pD) (f3z p)).
Proof.
  apply (@update_camera_vertical_motion coarse_platform); try reflexivity.
  repeat split; reflexivity.
Defined.

(** ** The keys that count *)

Lemma move_dir_keys (keys keys' : ascii -> bool) (forward right : float3) :
  same_movement_keys keys keys' ->
  move_dir keys forward right = move_dir keys' forward right.
Proof.
  intros (HW & HS & HA & HD & Hsp & Hdown). unfold move_dir.
  now rewrite HW, HS, HA, HD, Hsp, Hdown.
Qed.

(** X23: of the 1024 key states only seven are read: 'W', 'S', 'A', 'D', space,
    and 'C' or 'X', the last two interchangeable (holding both sinks no
    faster than holding one).  Two key states that agree on these give the
    same statics and the same camera. *)
Theorem update_camera_keys_read `{Platform} st cam dt keys keys' mouseX mouseY :
  same_movement_keys keys keys' ->
  update_camera st cam dt keys mouseX mouseY = update_camera st cam dt keys' mouseX mouseY.
Proof.
  intros Hk. unfold update_camera.
  destruct (pointer_delta st mouseX mouseY) as [[dx dy] st'].
  now rewrite (move_dir_keys keys keys' _ _ Hk).
Qed.

Lemma update_camera_keys_read_witness :
  same_movement_keys both_down only_X /\
  @update_camera coarse_platform initial_statics (@make_camera coarse_platform 800 600)
    F32.one both_down F64.zero F64.zero =
  @update_camera coarse_platform initial_statics (@make_camera coarse_platform 800 600)
    F32.one only_X F64.zero F64.zero.
Proof.
  assert (Hk : same_movement_keys both_down only_X) by (repeat split).
  split; [ exact Hk | ].
  apply (@update_camera_keys_read coarse_platform). exact Hk.
Defined.

(** ** The projection *)

(** Finite floats are integer multiples of 2^-149. *)
Lemma good_grid (a : float) : good a -> exists M : Z, SF2R a = (IZR M * bpow (-149))%R.
Proof.
  intros (Va & Fa). destruct a as [s | s | | s m e]; try discriminate Fa.
  - exists 0. simpl. lra.
  - destruct (valid_finite_inv s m e Va) as (He & _).
    exists (cond_Zopp s (Zpos m * 2 ^ (e + 149))).
    rewrite SF2R_finite, cond_Zopp_IZR, !Rmult_assoc.
    f_equal. assert (H149 : 0 <= e + 149) by lia.
    rewrite (IZR_bpow_shift (Zpos m) (e + 149) (-149) H149).
    replace (-149 + (e + 149)) with e by lia. reflexivity.
Qed.

(** Two floats in strict order differ by at least 2^-149. *)
Lemma float_gap (a b : float) :
  good a -> good b -> (SF2R a < SF2R b)%R -> (SF2R a - SF2R b <= - bpow (-149))%R.
Proof.
  intros Ga Gb Hlt.
  destruct (good_grid a Ga) as (Ma & Ea). destruct (good_grid b Gb) as (Mb & Eb).
  rewrite Ea, Eb in *. pose proof (bpow_gt_0 (-149)) as Hp.
  assert (Hm : Ma < Mb).
  { apply lt_IZR. apply Rmult_lt_reg_r with (bpow (-149)); assumption. }
  assert (Hm' : (IZR Ma <= IZR Mb - 1)%R).
  { rewrite <- minus_IZR. apply IZR_le. lia. }
  assert (Hq : (IZR Ma * bpow (-149) <= (IZR Mb - 1) * bpow (-149))%R)
    by (apply Rmult_le_compat_r; lra).
  lra.
Qed.

Lemma NEG_FLT_TRUE_MIN_value :
  good NEG_FLT_TRUE_MIN /\ SF2R NEG_FLT_TRUE_MIN = (- bpow (-149))%R.
Proof.
  split; [ split; reflexivity | ].
  unfold NEG_FLT_TRUE_MIN. rewrite SF2R_finite. unfold sign_factor. lra.
Qed.

Lemma zero_real : SF2R F32.zero = 0%R.
Proof. reflexivity. Qed.

(** A float known to be a number at most some negative bound is below zero
    in the float order, whether it is finite or minus infinity. *)
Lemma below_bound (r B : float) :
  F32.valid r = true -> r <> S754_nan -> r <> S754_infinity false ->
  good B ->
  (F32.is_finite r = true -> (SF2R r <= SF2R B)%R) ->
  (SF2R B < 0)%R ->
  F32.leb r B = true /\ F32.ltb r F32.zero = true.
Proof.
  intros Vr Hn Hi (VB & FB) Hle HB.
  destruct r as [s | [|] | | s m e] eqn:Er; try congruence.
  - specialize (Hle eq_refl). simpl in Hle. lra.
  - split; [ | reflexivity ].
    destruct B as [sb | sb | | sb mb eb]; try discriminate FB; reflexivity.
  - specialize (Hle eq_refl). split.
    + apply leb_real; auto.
    + apply ltb_real; auto; try reflexivity. rewrite zero_real. lra.
Qed.

(** X24: for clip planes 0 < nearZ < farZ the depth scale farZ / (nearZ - farZ)
    comes out at most -1 (possibly minus infinity, never NaN), and the depth
    offset zs * nearZ is negative: the difference of the planes cannot round
    to zero, so there is no division by zero. *)
Theorem matrix_perspective_right_hand_depth `{Platform} (fovyRadians aspect nearZ farZ : float) :
  F32.valid nearZ = true -> F32.valid farZ = true ->
  F32.is_finite nearZ = true -> F32.is_finite farZ = true ->
  F32.ltb F32.zero nearZ = true -> F32.ltb nearZ farZ = true ->
  let P := matrix_perspective_right_hand fovyRadians aspect nearZ farZ in
  F32.leb (f4z (col2 P)) (F32.opp F32.one) = true /\
  F32.ltb (f4z (col3 P)) F32.zero = true /\
  f4w (col2 P) = F32.opp F32.one /\ f4w (col3 P) = F32.zero.
Proof.
  intros Vn Vf Fn Ff Hn Hnf P. subst P.
  unfold matrix_perspective_right_hand. cbn [col2 col3 f4z f4w].
  apply ltb_real in Hn; auto; try reflexivity. rewrite zero_real in Hn.
  apply ltb_real in Hnf; auto.
  set (n := SF2R nearZ) in *. set (f := SF2R farZ) in *.
  pose proof (bpow_gt_0 (-149)) as Hp.
  (* the difference of the planes *)
  pose proof (sub_Rnd nearZ farZ Vn Vf Fn Ff) as Rd. fold n f in Rd.
  pose proof (float_gap nearZ farZ (conj Vn Fn) (conj Vf Ff) Hnf) as Hgap. fold n f in Hgap.
  destruct NEG_FLT_TRUE_MIN_value as ((Vm & Fm) & Em).
  destruct (Rnd_between _ _ (F32.opp farZ) NEG_FLT_TRUE_MIN Rd) as (Fd & Hd);
    rewrite ?valid_opp, ?is_finite_opp, ?SF2R_opp; auto.
  { fold f. rewrite Em. lra. }
  rewrite SF2R_opp, Em in Hd. fold f in Hd.
  pose proof (rnd_valid _ _ Rd) as Vd.
  set (d := F32.sub nearZ farZ) in *.
  (* the depth scale *)
  assert (Hdnz : SF2R d <> 0%R) by (intros E0; rewrite E0 in Hd; lra).
  pose proof (div_Rnd farZ d Vf Vd Ff Fd Hdnz) as Rz. fold f in Rz.
  assert (Hq : (f / SF2R d <= -1)%R).
  { apply Rmult_le_reg_r with (- SF2R d)%R; [ lra | ].
    replace (f / SF2R d * - SF2R d)%R with (- f)%R by (field; exact Hdnz). lra. }
  destruct one_exact as ((V1 & F1) & E1).
  assert (Gm1 : good (F32.opp F32.one)) by (split; reflexivity).
  assert (Em1 : SF2R (F32.opp F32.one) = (-1)%R) by (rewrite SF2R_opp, E1; reflexivity).
  destruct (rnd_upper _ _ Rz (F32.opp F32.one) (proj1 Gm1) (proj2 Gm1)
              ltac:(rewrite Em1; exact Hq)) as (Hzi & Hzle).
  pose proof (rnd_valid _ _ Rz) as Vz. pose proof (rnd_not_nan _ _ Rz) as Hzn.
  set (zs := F32.div farZ d) in *.
  destruct (below_bound zs (F32.opp F32.one) Vz Hzn Hzi Gm1 Hzle ltac:(rewrite Em1; lra))
    as (Hz1 & Hz0).
  split; [ exact Hz1 | ]. split; [ | split; reflexivity ].
  (* the depth offset *)
  destruct zs as [s | [|] | | s m e] eqn:Ez; try congruence; try discriminate Hz0.
  - unfold n in Hn. clear - Hn Fn.
    destruct nearZ as [sn | sn | | [|] mn en]; try discriminate Fn;
      try reflexivity; exfalso; simpl in Hn.
    + lra.
    + pose proof (bpow_gt_0 en). fold (bpow en) in Hn.
      assert (0 < IZR (Zpos mn))%R by (apply IZR_lt; lia). nra.
  - rewrite <- Ez in *.
    assert (Fz : F32.is_finite zs = true) by (rewrite Ez; reflexivity).
    specialize (Hzle Fz). rewrite Em1 in Hzle.
    pose proof (mul_Rnd zs nearZ Vz Vn Fz Fn) as Rm. fold n in Rm.
    assert (Hprod : (SF2R zs * n <= - n)%R).
    { replace (- n)%R with ((-1) * n)%R by ring. apply Rmult_le_compat_r; lra. }
    destruct (rnd_upper _ _ Rm (F32.opp nearZ)) as (Hmi & Hmle);
      rewrite ?valid_opp, ?is_finite_opp, ?SF2R_opp; auto.
    apply (below_bound (F32.mul zs nearZ) (F32.opp nearZ)); auto.
    + apply Rm.
    + apply Rm.
    + split; rewrite ?valid_opp, ?is_finite_opp; auto.
    + rewrite SF2R_opp. fold n. lra.
Qed.

Lemma matrix_perspective_right_hand_depth_witness :
  let P := @matrix_perspective_right_hand coarse_platform F32.one F32.one
             (F32.lit 1 10) (F32.of_int 100) in
  F32.leb (f4z (col2 P)) (F32.opp F32.one) = true /\
  F32.ltb (f4z (col3 P)) F32.zero = true /\
  f4w (col2 P) = F32.opp F32.one /\ f4w (col3 P) = F32.zero.
Proof.
  apply (@matrix_perspective_right_hand_depth coarse_platform); reflexivity.
Defined.

(** ** The camera's projection *)

(** X25: a viewport of height zero is not rejected: the aspect ratio is
    infinite, or NaN when the width is zero too, and the horizontal scale of
    the projection comes out as zero or NaN whatever the tangent is. *)
Theorem make_camera_zero_height `{Platform} (width : Z) :
  let xs := f4x (col0 (projectionMatrix (make_camera width 0))) in
  (xs = S754_nan \/ exists s, xs = S754_zero s) /\
  (width = 0 -> xs = S754_nan).
Proof.
  intros xs. subst xs. unfold make_camera, matrix_perspective_right_hand.
  cbn [projectionMatrix col0 f4x].
  change (F32.of_int 0) with F32.zero.
  match goal with |- context [F32.div ?ys (F32.div _ _)] => generalize ys end.
  intros ys. split.
  - destruct (F32.of_int width) as [s | s | | s m e];
      destruct ys as [t | t | | t mt et]; cbn; eauto.
  - intros ->. change (F32.of_int 0) with F32.zero.
    destruct ys; reflexivity.
Qed.

Lemma make_camera_zero_height_witness :
  let xs := f4x (col0 (projectionMatrix (@make_camera coarse_platform 0 0))) in
  (xs = S754_nan \/ exists s, xs = S754_zero s) /\ xs = S754_nan.
Proof.
  destruct (@make_camera_zero_height coarse_platform 0) as (Hxs & Hnan).
  split; [ exact Hxs | apply Hnan; reflexivity ].
Defined.

(** X26: whatever the viewport and the platform, the camera's projection maps
    depth with the clip planes 0.1 and 100: the depth scale is within 10^-6
    of -100/99.9, the depth offset within 10^-6 of -10/99.9, and the w
    column holds -1. *)
Theorem make_camera_depth_entries `{Platform} (width height : Z) :
  let P := projectionMatrix (make_camera width height) in
  (Rabs (SF2R (f4z (col2 P)) - (- 100 / (999 / 10))) <= / 1000000)%R /\
  (Rabs (SF2R (f4z (col3 P)) - (- 10 / (999 / 10))) <= / 1000000)%R /\
  f4w (col2 P) = F32.opp F32.one /\
  col2 P = mk_float4 F32.zero F32.zero (f4z (col2 P)) (F32.opp F32.one) /\
  col3 P = mk_float4 F32.zero F32.zero (f4z (col3 P)) F32.zero.
Proof.
  intros P. subst P. unfold make_camera, matrix_perspective_right_hand.
  cbn [projectionMatrix col2 col3 f4z f4w].
  repeat split.
  - SF2R_const (F32.div (F32.of_int 100) (F32.sub (F32.lit 1 10) (F32.of_int 100))).
    apply Rabs_le. lra.
  - SF2R_const (F32.mul (F32.div (F32.of_int 100) (F32.sub (F32.lit 1 10) (F32.of_int 100)))
                        (F32.lit 1 10)).
    apply Rabs_le. lra.
Qed.

(** ** The identity *)

